(** * terra_tools: lookup tables and the Goes attenuation model

    A shallow embedding of [terratools/lookup_tables.py] and
    [terratools/properties/attenuation.py].

    Numbers.  The program computes with IEEE doubles.  The lookup-table
    code only adds, subtracts, multiplies, divides and compares, so it is
    embedded over the rationals [Q], where every definition evaluates.
    The attenuation code also needs [exp], [power] and [tan], so it is
    embedded over the reals [R], with [np.inf] added where the source
    assigns it.  Rounding, overflow, signed zeros and NaN are outside this
    idealisation, and so is what numpy makes of a division by zero
    ([inf] or [nan], with a warning), except for [1.0 / invQP].  A division
    of two Python floats by zero raises, and is embedded as such.  Where a
    statement is about returning a number exactly, rounding decides it:
    [linear_interp_1d] is therefore embedded a second time, over the
    binary64 numbers themselves (module [Binary64]).

    Exceptions.  A Python exception is a value of [exn]; code that can
    raise returns [Exc A].

    Libraries.  [scipy.interpolate.interp2d] and [interp1d] are embedded
    by what they compute for the arguments the source passes. *)

From Stdlib Require Import String Ascii.
From Stdlib Require Import List Bool Arith Lia.
From Stdlib Require Import QArith Qminmax.
From Stdlib Require Import Reals.
From Stdlib Require Lqa Lra.
From Stdlib Require Floats.
Import ListNotations.

Set Implicit Arguments.

(** ** Python exceptions *)

Inductive exn : Type :=
| ValueError          (* numpy: shapes cannot be broadcast, empty reduction *)
| IndexError          (* list index out of range *)
| KeyError            (* missing dict key *)
| ZeroDivisionError   (* division of Python floats by zero *)
| FitpackError.       (* scipy's fit refuses an axis with a single knot *)

Inductive Exc (A : Type) : Type :=
| Ok (a : A)
| Raise (e : exn).

Arguments Ok {A} a.
Arguments Raise {A} e.

Definition bind {A B : Type} (m : Exc A) (k : A -> Exc B) : Exc B :=
  match m with
  | Ok a => k a
  | Raise e => Raise e
  end.

Notation "x <- m ;; k" := (bind m (fun x => k))
  (at level 61, m at next level, right associativity).

Definition succeeds {A : Type} (m : Exc A) : Prop := exists a, m = Ok a.

(** [mapM f l]: a Python loop that evaluates [f] on every element in order
    and stops at the first exception. *)
Fixpoint mapM {A B : Type} (f : A -> Exc B) (l : list A) : Exc (list B) :=
  match l with
  | [] => Ok []
  | a :: l' => b <- f a ;; bs <- mapM f l' ;; Ok (b :: bs)
  end.

(** [l[i] = v] on a list that has index [i]. *)
Fixpoint list_set {A : Type} (i : nat) (v : A) (l : list A) : list A :=
  match l, i with
  | [], _ => []
  | _ :: l', O => v :: l'
  | x :: l', S i' => x :: list_set i' v l'
  end.

(** ** lookup_tables.py *)

Module LookupTables.

Local Open Scope Q_scope.

(** One line of the table file: the ten columns named in the docstring of
    [SeismicLookupTable.__init__]. *)
Record Row : Type := mkRow {
  pressure : Q;      (* column 0 *)
  temperature : Q;   (* column 1 *)
  c_vp : Q;          (* column 2 *)
  c_vs : Q;          (* column 3 *)
  c_vp_an : Q;       (* column 4 *)
  c_vs_an : Q;       (* column 5 *)
  c_vphi : Q;        (* column 6 *)
  c_dens : Q;        (* column 7 *)
  c_qs : Q;          (* column 8 *)
  c_t_sol : Q        (* column 9 *)
}.

(** [self.table]: a 2-D array, one [Row] per line. *)
Definition RawTable : Type := list Row.

(** [np.unique]: the sorted distinct values.  Insertion into a strictly
    increasing list; a value already present is dropped. *)
Fixpoint insert_unique (x : Q) (l : list Q) : list Q :=
  match l with
  | [] => [x]
  | y :: l' =>
      match x ?= y with
      | Lt => x :: y :: l'
      | Eq => y :: l'
      | Gt => y :: insert_unique x l'
      end
  end.

Definition np_unique (l : list Q) : list Q := fold_right insert_unique [] l.

(** [np.max] and [np.min] of a non-empty array; numpy raises [ValueError]
    on an empty one. *)
Definition np_max (l : list Q) : Exc Q :=
  match l with
  | [] => Raise ValueError
  | x :: l' => Ok (fold_left (fun m y => if Qle_bool m y then y else m) l' x)
  end.

Definition np_min (l : list Q) : Exc Q :=
  match l with
  | [] => Raise ValueError
  | x :: l' => Ok (fold_left (fun m y => if Qle_bool y m then y else m) l' x)
  end.

(** [a[lo:hi]]: a slice never raises, it is cut at the end of the array. *)
Definition slice {A : Type} (lo hi : nat) (l : list A) : list A :=
  firstn (hi - lo) (skipn lo l).

(** A grid in Temp-Pressure space: [len(temp)] rows of [len(pres)]
    entries, [grid[j][i]] at [temp[j]], [pres[i]]. *)
Definition Grid : Type := list (list Q).

Definition np_zeros (rows cols : nat) : Grid := repeat (repeat 0 cols) rows.

Definition grid_get (g : Grid) (j i : nat) : Q := nth i (nth j g []) 0.

(** [g[:, i] = src]: the right-hand side must have one value per row, or a
    single value, which numpy broadcasts down the column; any other length
    raises [ValueError]. *)
Definition set_column (g : Grid) (i : nat) (src : list Q) : Exc Grid :=
  if Nat.eqb (length src) (length g) then
    Ok (map (fun rv => list_set i (snd rv) (fst rv)) (combine g src))
  else
    match src with
    | [v] => Ok (map (list_set i v) g)
    | _ => Raise ValueError
    end.

(** The eight arrays initialised with [np.zeros] before the loop. *)
Record Grids : Type := mkGrids {
  Vp : Grid; Vs : Grid; Vp_an : Grid; Vs_an : Grid;
  Vphi : Grid; Dens : Grid; Qs : Grid; T_sol : Grid
}.

(** [self.table[0 + (i * self.pstep) : self.pstep + (i * self.pstep), c]] *)
Definition block (col : Row -> Q) (table : RawTable) (pstep i : nat)
    : list Q :=
  map col (slice (0 + i * pstep) (pstep + i * pstep) table).

(** One turn of [for i, p in enumerate(self.pres)]: block [i] of [pstep]
    rows goes to column [i] of each grid, in the order of the source. *)
Definition fill_step (table : RawTable) (pstep : nat) (gs : Grids) (i : nat)
    : Exc Grids :=
  g2 <- set_column (Vp gs) i (block c_vp table pstep i) ;;
  g3 <- set_column (Vs gs) i (block c_vs table pstep i) ;;
  g4 <- set_column (Vp_an gs) i (block c_vp_an table pstep i) ;;
  g5 <- set_column (Vs_an gs) i (block c_vs_an table pstep i) ;;
  g6 <- set_column (Vphi gs) i (block c_vphi table pstep i) ;;
  g7 <- set_column (Dens gs) i (block c_dens table pstep i) ;;
  g8 <- set_column (Qs gs) i (block c_qs table pstep i) ;;
  g9 <- set_column (T_sol gs) i (block c_t_sol table pstep i) ;;
  Ok (mkGrids g2 g3 g4 g5 g6 g7 g8 g9).

Fixpoint fill_loop (table : RawTable) (pstep : nat) (idxs : list nat)
    (gs : Grids) : Exc Grids :=
  match idxs with
  | [] => Ok gs
  | i :: idxs' =>
      gs' <- fill_step table pstep gs i ;;
      fill_loop table pstep idxs' gs'
  end.

(** An entry of [self.fields]: table index, gridded field, units. *)
Record Field : Type := mkField {
  f_index : nat;
  f_grid : Grid;
  f_units : string
}.

Record SeismicLookupTable : Type := mkTable {
  table : RawTable;
  pres : list Q;
  temp : list Q;
  n_uniq_p : nat;
  n_uniq_t : nat;
  t_max : Q;
  t_min : Q;
  p_max : Q;
  p_min : Q;
  pstep : nat;
  fields : list (string * Field)
}.

(** Lines 42-101 of [__init__] on a 2-D [self.table]: the axes, the eight
    grids and the dictionary [self.fields]. *)
Definition fill_grids (tbl : RawTable) : Exc SeismicLookupTable :=
  let pres := np_unique (map pressure tbl) in
  let temp := np_unique (map temperature tbl) in
  let n_p := length pres in
  let n_t := length temp in
  tmax <- np_max temp ;;
  tmin <- np_min temp ;;
  pmax <- np_max pres ;;
  pmin <- np_min pres ;;
  let pstep := length temp in
  let z := np_zeros (length temp) (length pres) in
  gs <- fill_loop tbl pstep (seq 0 (length pres))
          (mkGrids z z z z z z z z) ;;
  Ok {| table := tbl; pres := pres; temp := temp;
        n_uniq_p := n_p; n_uniq_t := n_t;
        t_max := tmax; t_min := tmin; p_max := pmax; p_min := pmin;
        pstep := pstep;
        fields := [ ("vp", mkField 2 (Vp gs) "km/s");
                    ("vs", mkField 3 (Vs gs) "km/s");
                    ("vp_ani", mkField 4 (Vp_an gs) "km/s");
                    ("vs_ani", mkField 5 (Vs_an gs) "km/s");
                    ("vphi", mkField 6 (Vphi gs) "km/s");
                    ("density", mkField 7 (Dens gs) "$kg/m^3$");
                    ("qs", mkField 8 (Qs gs) "Hz");
                    ("t_sol", mkField 9 (T_sol gs) "K") ]%string |}.

(** What [np.genfromtxt] makes of the numeric lines of the file: a 2-D
    array, one [Row] per line, when there are two lines or more; a single
    line gives the 1-D array of its ten numbers, and no line at all an
    empty 1-D array.  (Lines that are not numeric, and with them the
    second reading with [skip_header=1], are not part of the embedding.) *)
Inductive Loaded : Type :=
| Array1 (v : list Q)
| Array2 (rows : RawTable).

Definition row_values (r : Row) : list Q :=
  [pressure r; temperature r; c_vp r; c_vs r; c_vp_an r; c_vs_an r;
   c_vphi r; c_dens r; c_qs r; c_t_sol r].

Definition genfromtxt (lines : list Row) : Loaded :=
  match lines with
  | [] => Array1 []
  | [r] => Array1 (row_values r)
  | _ :: _ :: _ => Array2 lines
  end.

(** [self.table[:, 0]], the first of the two-index accesses to the table:
    a 1-D array has no second axis, and numpy raises [IndexError]. *)
Definition rows_of (t : Loaded) : Exc RawTable :=
  match t with
  | Array1 _ => Raise IndexError
  | Array2 rows => Ok rows
  end.

(** Lines 37-101 of [__init__], from the numeric lines of the file. *)
Definition build_grids (lines : list Row) : Exc SeismicLookupTable :=
  tbl <- rows_of (genfromtxt lines) ;;
  fill_grids tbl.

(** *** scipy.interpolate.interp2d

    The routine is SciPy's, not this repository's.  It is embedded as the
    library documents and implements it for the default [kind='linear'],
    [fill_value=None] on a rectangular grid: an interpolating spline of
    degree one in each direction (FITPACK [regrid] with [s=0], evaluated by
    [bispev]), whose evaluation first moves an argument outside the knots
    to the nearest end knot. *)

Definition Qltb (x y : Q) : bool := negb (Qle_bool y x).

Record Interp2d : Type := mkInterp2d {
  ix : list Q;     (* knots in x: pressures *)
  iy : list Q;     (* knots in y: temperatures *)
  iz : Grid        (* iz[j][i] at iy[j], ix[i] *)
}.

(** The fit needs more knots than the degree in each direction. *)
Definition interp2d (x y : list Q) (z : Grid) : Exc Interp2d :=
  if (2 <=? length x)%nat && (2 <=? length y)%nat
  then Ok (mkInterp2d x y z)
  else Raise FitpackError.

(** [arg = x; if (arg < tb) arg = tb; if (arg > te) arg = te] *)
Definition clamp (tb te x : Q) : Q :=
  let arg := if Qltb x tb then tb else x in
  if Qltb te arg then te else arg.

(** The knot interval used for [arg]: the first [k] with
    [arg < knots[k+1]], or the last interval. *)
Fixpoint locate (k : nat) (knots : list Q) (arg : Q) : nat :=
  match knots with
  | _ :: ((x1 :: rest) as tl) =>
      match rest with
      | [] => k
      | _ :: _ => if Qltb arg x1 then k else locate (S k) tl arg
      end
  | _ => k
  end.

(** The two non-zero degree-one B-splines at [x] ([fpbspl]): the interval
    index and the weights of its left and right knot. *)
Definition bspl (knots : list Q) (x : Q) : nat * (Q * Q) :=
  let arg := clamp (hd 0 knots) (last knots 0) x in
  let l := locate 0 knots arg in
  let t0 := nth l knots 0 in
  let t1 := nth (S l) knots 0 in
  let f := 1 / (t1 - t0) in
  (l, (f * (t1 - arg), f * (arg - t0))).

(** [bispev] at one point: the weighted sum of the four grid values at the
    corners of the cell. *)
Definition eval (g : Interp2d) (x y : Q) : Q :=
  let '(lx, (hx1, hx2)) := bspl (ix g) x in
  let '(ly, (hy1, hy2)) := bspl (iy g) y in
  0 + grid_get (iz g) ly lx * (hx1 * hy1)
    + grid_get (iz g) (S ly) lx * (hx1 * hy2)
    + grid_get (iz g) ly (S lx) * (hx2 * hy1)
    + grid_get (iz g) (S ly) (S lx) * (hx2 * hy2).

(** [np.sort]: insertion into an ascending list. *)
Fixpoint insert_sorted (x : Q) (l : list Q) : list Q :=
  match l with
  | [] => [x]
  | y :: l' => if Qle_bool x y then x :: y :: l' else y :: insert_sorted x l'
  end.

Definition np_sort (l : list Q) : list Q := fold_right insert_sorted [] l.

Inductive ndarray : Type :=
| Arr1 (v : list Q)
| Arr2 (m : list (list Q)).

(** [interp2d.__call__(x, y)]: both argument arrays are sorted and the
    spline is evaluated on their product by [bisplev], which refuses an
    empty array ([bispev] demands [mx >= 1] and [my >= 1]) with
    [ValueError]; the result has one row per [y], and a result with a
    single row is returned as that row. *)
Definition call (g : Interp2d) (x y : list Q) : Exc ndarray :=
  let x := np_sort x in
  let y := np_sort y in
  match x, y with
  | [], _ => Raise ValueError
  | _, [] => Raise ValueError
  | _ :: _, _ :: _ =>
      let z := map (fun yj => map (fun xi => eval g xi yj) x) y in
      match z with
      | [row] => Ok (Arr1 row)
      | _ => Ok (Arr2 z)
      end
  end.

(** *** The methods of [SeismicLookupTable] *)

(** Lines 104-111 of [__init__]: one interpolator per field. *)
Definition init (tbl : RawTable) : Exc SeismicLookupTable :=
  lut <- build_grids tbl ;;
  _ <- mapM (fun kv => interp2d (pres lut) (temp lut) (f_grid (snd kv)))
         (fields lut) ;;
  Ok lut.

(** [str.lower] on ASCII text. *)
Definition lower_char (c : ascii) : ascii :=
  let n := nat_of_ascii c in
  if (65 <=? n)%nat && (n <=? 90)%nat then ascii_of_nat (n + 32) else c.

Fixpoint lower (s : string) : string :=
  match s with
  | EmptyString => EmptyString
  | String c s' => String (lower_char c) (lower s')
  end.

(** [d[key]] *)
Fixpoint dict_get {V : Type} (d : list (string * V)) (key : string) : Exc V :=
  match d with
  | [] => Raise KeyError
  | (k, v) :: d' => if String.eqb k key then Ok v else dict_get d' key
  end.

(** [_check_bounds]: the lines it prints. *)
Definition _check_bounds (input check : list Q) (TP : string)
    : Exc (list string) :=
  mx <- np_max check ;;
  let high :=
    if existsb (fun x => Qltb mx x) input
    then [("One or more of your " ++ TP ++
           " inputs exceeds the table range, reverting to maximum table value")%string]
    else [] in
  mn <- np_min check ;;
  let low :=
    if existsb (fun x => Qltb x mn) input
    then [("One or more of your " ++ TP ++
           " inputs is below the table range, reverting to minimum table value")%string]
    else [] in
  Ok (high ++ low).

(** What a method leaves behind: the lines printed, and its result. *)
Definition Out (A : Type) : Type := (list string * Exc A)%type.

Definition checked {A : Type} (lut : SeismicLookupTable)
    (press temps : list Q) (k : Exc A) : Out A :=
  match _check_bounds press (pres lut) "pressure" with
  | Raise e => ([], Raise e)
  | Ok w1 =>
      match _check_bounds temps (temp lut) "temperature" with
      | Raise e => (w1, Raise e)
      | Ok w2 => (w1 ++ w2, k)
      end
  end.

Definition interp_grid (lut : SeismicLookupTable) (press temps : list Q)
    (field : string) : Out ndarray :=
  checked lut press temps
    (f <- dict_get (fields lut) (lower field) ;;
     grid <- interp2d (pres lut) (temp lut) (f_grid f) ;;
     call grid press temps).

(** [temps[i]] *)
Definition index (l : list Q) (i : nat) : Exc Q :=
  match nth_error l i with
  | Some v => Ok v
  | None => Raise IndexError
  end.

Definition interp_points (lut : SeismicLookupTable) (press temps : list Q)
    (field : string) : Out (list Q) :=
  checked lut press temps
    (f <- dict_get (fields lut) (lower field) ;;
     grid <- interp2d (pres lut) (temp lut) (f_grid f) ;;
     mapM (fun i => p <- index press i ;; t <- index temps i ;;
                    Ok (eval grid p t))
          (seq 0 (length press))).

(** [linear_interp_1d]: scipy's [interp1d] through the two samples, sorted
    by composition, with [fill_value="extrapolate"]: the one segment is
    used for every [cnew].  Stacking samples of unequal size is refused by
    numpy. *)
Definition linear_interp_1d (vals1 vals2 : list Q) (c1 c2 cnew : Q)
    : Exc (list Q) :=
  if negb (Nat.eqb (length vals1) (length vals2)) then Raise ValueError
  else
    let '(x_lo, y_lo, x_hi, y_hi) :=
      if Qle_bool c1 c2 then (c1, vals1, c2, vals2)
      else (c2, vals2, c1, vals1) in
    Ok (map (fun ab =>
               let slope := (snd ab - fst ab) / (x_hi - x_lo) in
               slope * (cnew - x_lo) + fst ab)
            (combine y_lo y_hi)).

(** Element-wise operations on arrays of equal length. *)
Definition zip_with {A B C : Type} (f : A -> B -> C) (l1 : list A)
    (l2 : list B) : list C :=
  map (fun ab => f (fst ab) (snd ab)) (combine l1 l2).

(** numpy's element-wise [op] on two 1-D arrays: the shapes are equal, or
    one of the arrays has a single element, which is then broadcast along
    the other; any other pair of shapes raises [ValueError]. *)
Definition np_broadcast (op : Q -> Q -> Q) (l1 l2 : list Q) : Exc (list Q) :=
  if Nat.eqb (length l1) (length l2) then Ok (zip_with op l1 l2)
  else match l1, l2 with
       | [x], _ => Ok (map (op x) l2)
       | _, [y] => Ok (map (fun v => op v y) l1)
       | _, _ => Raise ValueError
       end.

(** [harmonic_mean_comp]: [bas], [lhz] and [hzb] are 1-D arrays and the
    three fractions are floats.  The quotients are taken for non-zero
    values: numpy's [inf] at a zero is outside the embedding. *)
Definition harmonic_mean_comp (bas lhz hzb : list Q)
    (bas_fr lhz_fr hzb_fr : Q) : Exc (list Q) :=
  let m1 := map (fun v => (1 / v) * bas_fr) bas in
  let m2 := map (fun v => (1 / v) * lhz_fr) lhz in
  let m3 := map (fun v => (1 / v) * hzb_fr) hzb in
  m12 <- np_broadcast Qplus m1 m2 ;;
  m123 <- np_broadcast Qplus m12 m3 ;;
  let hmean := map (fun m => 1 / m) m123 in
  Ok hmean.

End LookupTables.

(** ** terratools/lookup_tables.py in binary64 arithmetic *)

Module Binary64.

Import PrimFloat.

Local Open Scope float_scope.

(** [linear_interp_1d] on doubles: scipy's [interp1d] sorts the two
    compositions, and evaluates [slope * (x_new - x_lo) + y_lo] with
    [slope = (y_hi - y_lo) / (x_hi - x_lo)] on the one segment. *)
Definition linear_interp_1d (vals1 vals2 : list float) (c1 c2 cnew : float)
    : Exc (list float) :=
  if negb (Nat.eqb (length vals1) (length vals2)) then Raise ValueError
  else
    let '(x_lo, y_lo, x_hi, y_hi) :=
      if leb c1 c2 then (c1, vals1, c2, vals2)
      else (c2, vals2, c1, vals1) in
    Ok (map (fun ab =>
               let slope := (snd ab - fst ab) / (x_hi - x_lo) in
               slope * (cnew - x_lo) + fst ab)
            (combine y_lo y_hi)).

End Binary64.

(** ** properties/attenuation.py *)

Module Attenuation.

Local Open Scope R_scope.

(** A quality factor: a real, or [np.inf]. *)
Inductive xreal : Type :=
| Finite (r : R)
| PosInf.

(** The namedtuple [AnelasticProperties]; [num] is [R] for the scalar
    call and [list R] for arrays. *)
Record AnelasticProperties (num qp : Type) : Type := mkAnelastic {
  V_P : num;
  V_S : num;
  Q_S : num;
  Q_K : num;
  Q_P : qp;
  T_solidus : num
}.

(** One parameter dictionary of [Q_models]. *)
Record Q_model : Type := mkQ {
  Q0 : R;
  g : R;
  a : R;
  QK : R
}.

(** An [AttenuationModelGoes].  The two functions of the configuration are
    Python functions called with floats by the scalar code and with arrays
    by the array code; each is given by what it returns in the two
    cases (the mixing function: one vector of fractions, or one row of
    fractions per P-T point). *)
Record AttenuationModelGoes : Type := mkModel {
  T_solidus_function : R -> R;
  T_solidus_function_array : list R -> list R;
  model_mixing_function : R -> R -> list R;
  model_mixing_function_array : list R -> list R -> list (list R);
  Q_models : list Q_model
}.

Definition Rltb (x y : R) : bool := if Rlt_dec x y then true else false.
Definition Rleb (x y : R) : bool := if Rle_dec x y then true else false.

(** [np.power]: the square for the exponent [2.0] (the source squares a
    velocity ratio of any sign), and [exp (y * ln x)] otherwise, which is
    numpy's value for a positive base [x] (the frequency). *)
Definition np_power (x y : R) : R :=
  if Req_EM_T y 2 then x * x else Rpower x y.

(** [1.0 / x] on a numpy value: [inf] at zero. *)
Definition np_inv (x : R) : xreal :=
  if Req_EM_T x 0 then PosInf else Finite (1 / x).

(** [x / y] on Python floats. *)
Definition py_div (x y : R) : Exc R :=
  if Req_EM_T y 0 then Raise ZeroDivisionError else Ok (x / y).

(** [1.0 / s] for a sum [s] that the scalar loop accumulated over
    [fractions], starting from the Python float [0.0]: [s] is a numpy
    value once the loop has added a numpy product to it, and is still the
    Python float [0.0] when there was no fraction at all. *)
Definition inv_of_sum (fractions : list R) (s : R) : Exc R :=
  match fractions with
  | [] => py_div 1.0 s
  | _ :: _ => Ok (1.0 / s)
  end.

(** Element-wise operations on arrays of one length. *)
Definition map2 {A B C : Type} (f : A -> B -> C) (l1 : list A) (l2 : list B)
    : list C :=
  map (fun ab => f (fst ab) (snd ab)) (combine l1 l2).

(** [arr[np.argwhere(mask)] = new[np.argwhere(mask)]] *)
Definition where_set {A : Type} (mask : list bool) (new old : list A)
    : list A :=
  map2 (fun (m : bool) (no : A * A) => if m then fst no else snd no) mask
       (combine new old).

(** [m.T] of a 2-D array given by its rows. *)
Definition transpose (m : list (list R)) : list (list R) :=
  match m with
  | [] => []
  | r :: _ => map (fun j => map (fun row => nth j row 0) m) (seq 0 (length r))
  end.

(** *** mantle_domain_fractions *)

Definition P_smooth_halfwidth : R := 1.1e9.
Definition T_ref : R := 750.0.
Definition pressure_tztop (temperature : R) : R :=
  11.1e9 + 2.4e6 * (temperature - T_ref).
Definition pressure_tzbase (temperature : R) : R :=
  26.1e9 - 2.2e6 * (temperature - T_ref).

(** The [try] branch: floats. *)
Definition mantle_domain_fractions (pressure temperature : R) : list R :=
  let fractions := [0; 0; 0] in
  if Rltb pressure (pressure_tztop temperature - P_smooth_halfwidth) then
    list_set 0 1.0 fractions
  else if Rltb pressure (pressure_tztop temperature + P_smooth_halfwidth) then
    let f := (pressure - (pressure_tztop temperature - P_smooth_halfwidth))
             / (2.0 * P_smooth_halfwidth) in
    list_set 1 f (list_set 0 (1.0 - f) fractions)
  else if Rltb pressure (pressure_tzbase temperature - P_smooth_halfwidth) then
    list_set 1 1.0 fractions
  else if Rltb pressure (pressure_tzbase temperature + P_smooth_halfwidth) then
    let f := (pressure - (pressure_tzbase temperature - P_smooth_halfwidth))
             / (2.0 * P_smooth_halfwidth) in
    list_set 2 f (list_set 1 (1.0 - f) fractions)
  else
    list_set 2 1.0 fractions.

(** [fractions[idx, ...] = ...] for the rows selected by [mask];
    [upd] is given the row's own entry of the right-hand side. *)
Definition rows_where {A : Type} (mask : list bool) (rhs : list A)
    (upd : A -> list R -> list R) (rows : list (list R)) : list (list R) :=
  map2 (fun (mr : bool * A) row => if fst mr then upd (snd mr) row else row)
       (combine mask rhs) rows.

(** The [except ValueError] branch: arrays of one length with two or more
    elements (the truth value of the first comparison raises
    [ValueError]).  The five index sets are computed first, then the five
    assignments are made in order. *)
Definition mantle_domain_fractions_array (pressure temperature : list R)
    : list (list R) :=
  let fractions := repeat [0; 0; 0] (length pressure) in
  let f_umtz :=
    map2 (fun p t => (p - (pressure_tztop t - P_smooth_halfwidth))
                     / (2.0 * P_smooth_halfwidth)) pressure temperature in
  let f_tzlm :=
    map2 (fun p t => (p - (pressure_tzbase t - P_smooth_halfwidth))
                     / (2.0 * P_smooth_halfwidth)) pressure temperature in
  let um_idx := map (fun f => Rleb f 0.0) f_umtz in
  let umtz_idx := map (fun f => Rleb 0.0 f && Rleb f 1.0) f_umtz in
  let tz_idx := map2 (fun f1 f2 => Rleb 1.0 f1 && Rleb f2 0.0) f_umtz f_tzlm in
  let tzlm_idx := map (fun f => Rleb 0.0 f && Rleb f 1.0) f_tzlm in
  let lm_idx := map (fun f => Rleb 1.0 f) f_tzlm in
  let fractions :=
    rows_where um_idx f_umtz (fun _ => list_set 0 1.0) fractions in
  let fractions :=
    rows_where umtz_idx f_umtz
      (fun f row => list_set 1 f (list_set 0 (1.0 - f) row)) fractions in
  let fractions :=
    rows_where tz_idx f_umtz (fun _ => list_set 1 1.0) fractions in
  let fractions :=
    rows_where tzlm_idx f_tzlm
      (fun f row => list_set 2 f (list_set 1 (1.0 - f) row)) fractions in
  let fractions :=
    rows_where lm_idx f_tzlm (fun _ => list_set 2 1.0) fractions in
  fractions.

(** *** AttenuationModelGoes.anelastic_properties *)

(** [Q_models[i]] *)
Definition getitem (l : list Q_model) (i : nat) : Exc Q_model :=
  match nth_error l i with
  | Some m => Ok m
  | None => Raise IndexError
  end.

(** The scalar loop [for i, f in enumerate(fractions)] from index [i];
    the accumulator is [(QS, QK, alpha)].  The quotient
    [Tm / Q_temperature] is taken for a non-zero [Q_temperature], as the
    statements below assume: at zero Python floats raise and numpy values
    give [inf] or [nan], and which of the two the solidus function returns
    is not in the sources at hand. *)
Fixpoint Q_loop (models : list Q_model) (frequency Tm Q_temperature : R)
    (i : nat) (fractions : list R) (acc : R * R * R) : Exc (R * R * R) :=
  match fractions with
  | [] => Ok acc
  | f :: rest =>
      Q_mod <- getitem models i ;;
      let '(QS, QK_, alpha) := acc in
      Q_loop models frequency Tm Q_temperature (S i) rest
        (QS + f * (Q0 Q_mod * np_power frequency (a Q_mod)
                   * exp (a Q_mod * g Q_mod * Tm / Q_temperature)),
         QK_ + f * QK Q_mod,
         alpha + f * a Q_mod)
  end.

(** The [try] branches: every argument a Python float; the fractions
    are a numpy vector, as [mantle_domain_fractions] returns it. *)
Definition anelastic_properties (self : AttenuationModelGoes)
    (elastic_Vp elastic_Vs pressure temperature frequency
       dT_Q_constant_above_solidus : R)
    : Exc (AnelasticProperties R xreal) :=
  let fractions := model_mixing_function self pressure temperature in
  let Tm := T_solidus_function self pressure in
  let Q_temperature :=
    if Rltb dT_Q_constant_above_solidus (temperature - Tm)
    then Tm + dT_Q_constant_above_solidus
    else temperature in
  sums <- Q_loop (Q_models self) frequency Tm Q_temperature 0 fractions
            (0.0, 0.0, 0.0) ;;
  let '(QS, QK_, alpha) := sums in
  invQS <- inv_of_sum fractions QS ;;
  invQK <- inv_of_sum fractions QK_ ;;
  ratio <- py_div elastic_Vs elastic_Vp ;;
  let lmda := 4.0 / 3.0 * np_power ratio 2.0 in
  let invQP := (1.0 - lmda) * invQK + lmda * invQS in
  let '(invQP, QP) :=
    if Rltb invQP 0.0 then (0.0, PosInf) else (invQP, np_inv invQP) in
  let anelastic_Vp :=
    elastic_Vp * (1.0 - invQP / (2.0 * tan (PI * alpha / 2.0))) in
  let anelastic_Vs :=
    elastic_Vs * (1.0 - invQS / (2.0 * tan (PI * alpha / 2.0))) in
  Ok (mkAnelastic anelastic_Vp anelastic_Vs QS QK_ QP Tm).

(** The array loop [for i, f in enumerate(fractions.T)]: [f] is the column
    of material [i], the accumulators are arrays. *)
Fixpoint Q_loop_array (models : list Q_model) (frequency : R)
    (Tm Q_temperature : list R) (i : nat) (columns : list (list R))
    (acc : list R * list R * list R) : Exc (list R * list R * list R) :=
  match columns with
  | [] => Ok acc
  | f :: rest =>
      Q_mod <- getitem models i ;;
      let '(QS, QK_, alpha) := acc in
      Q_loop_array models frequency Tm Q_temperature (S i) rest
        (map2 Rplus QS
           (map2 Rmult f
              (map2 (fun tm qt =>
                       Q0 Q_mod * np_power frequency (a Q_mod)
                       * exp (a Q_mod * g Q_mod * tm / qt))
                    Tm Q_temperature)),
         map2 Rplus QK_ (map (fun fi => fi * QK Q_mod) f),
         map2 Rplus alpha (map (fun fi => fi * a Q_mod) f))
  end.

(** [arr[np.argwhere(mask)] = v] *)
Definition where_fill {A : Type} (mask : list bool) (v : A) (old : list A)
    : list A :=
  map2 (fun (m : bool) o => if m then v else o) mask old.

(** The [except] branches: arrays of one length, with at least two
    elements ([float(pressure)] raises [TypeError] and the truth value of
    [invQP < 0.0] raises [ValueError]). *)
Definition anelastic_properties_array (self : AttenuationModelGoes)
    (elastic_Vp elastic_Vs pressure temperature : list R)
    (frequency dT_Q_constant_above_solidus : R)
    : Exc (AnelasticProperties (list R) (list xreal)) :=
  let fractions := model_mixing_function_array self pressure temperature in
  let Tm := T_solidus_function_array self pressure in
  let idx :=
    map2 (fun t tm => Rltb (tm + dT_Q_constant_above_solidus) t)
         temperature Tm in
  let Q_temperature :=
    where_set idx (map (fun tm => tm + dT_Q_constant_above_solidus) Tm)
              temperature in
  let zeros := map (fun _ => 0.0) temperature in
  sums <- Q_loop_array (Q_models self) frequency Tm Q_temperature 0
            (transpose fractions) (zeros, zeros, zeros) ;;
  let '(QS, QK_, alpha) := sums in
  let invQS := map (fun q => 1.0 / q) QS in
  let invQK := map (fun q => 1.0 / q) QK_ in
  let lmda :=
    map2 (fun vs vp => 4.0 / 3.0 * np_power (vs / vp) 2.0)
         elastic_Vs elastic_Vp in
  let invQP :=
    map2 Rplus (map2 (fun l k => (1.0 - l) * k) lmda invQK)
               (map2 Rmult lmda invQS) in
  let QP := map (fun _ => Finite 0.0) temperature in
  let idx := map (fun x => Rleb x 0.0) invQP in
  let invQP := where_fill idx 0.0 invQP in
  let QP := where_fill idx PosInf QP in
  let idx := map (fun x => Rltb 0.0 x) invQP in
  let QP := where_set idx (map np_inv invQP) QP in
  let corr (v : list R) (inv : list R) :=
    map2 Rmult v
      (map2 (fun iq al => 1.0 - iq / (2.0 * tan (PI * al / 2.0))) inv alpha) in
  Ok (mkAnelastic (corr elastic_Vp invQP) (corr elastic_Vs invQS)
                  QS QK_ QP Tm).

End Attenuation.

(** * Vocabulary of the statements *)

Unset Implicit Arguments.

Module LookupTablesTerms.

Import LookupTables.
Local Open Scope Q_scope.


(** The straight line through [(c1, v1)] and [(c2, v2)]. *)
Definition line (c1 c2 v1 v2 cnew : Q) : Q :=
  v1 + (cnew - c1) * ((v2 - v1) / (c2 - c1)).

(** The number of rows that block [i] of a table really holds. *)
Definition block_length (tbl : RawTable) (pstep i : nat) : nat :=
  Nat.min pstep (length tbl - i * pstep).

(** All eight grids have [n] rows. *)
Definition rows_are (n : nat) (gs : Grids) : Prop :=
  length (Vp gs) = n /\ length (Vs gs) = n /\ length (Vp_an gs) = n
  /\ length (Vs_an gs) = n /\ length (Vphi gs) = n /\ length (Dens gs) = n
  /\ length (Qs gs) = n /\ length (T_sol gs) = n.

Definition block_fits (tbl : RawTable) (pstep i : nat) : Prop :=
  block_length tbl pstep i = pstep \/ block_length tbl pstep i = 1%nat.

(** The loop of [__init__] seen on one of its eight grids. *)
Fixpoint fill_column (col : Row -> Q) (tbl : RawTable) (pstep : nat)
    (idxs : list nat) (g : Grid) : Exc Grid :=
  match idxs with
  | [] => Ok g
  | i :: idxs' =>
      g' <- set_column g i (block col tbl pstep i) ;;
      fill_column col tbl pstep idxs' g'
  end.

(** Every row of the grid has [n_p] entries. *)
Definition wide (n_p : nat) (g : Grid) : Prop :=
  Forall (fun row => length row = n_p) g.

(** What [g[:, i] = src] puts in row [j] of a grid of [n] rows. *)
Definition written (n : nat) (src : list Q) (j : nat) : Q :=
  nth (if (length src =? n)%nat then j else 0%nat) src 0.

(** The two lines [_check_bounds] can print. *)
Definition exceeds_msg (TP : string) : string :=
  ("One or more of your " ++ TP ++
   " inputs exceeds the table range, reverting to maximum table value")%string.

Definition below_msg (TP : string) : string :=
  ("One or more of your " ++ TP ++
   " inputs is below the table range, reverting to minimum table value")%string.

(** The interpolant of a field at the pairs [(press[i], temps[i])]. *)
Definition points (g : Interp2d) (press temps : list Q) : list Q :=
  map (fun pt => eval g (fst pt) (snd pt)) (combine press temps).

(** The interpolant of a field on the product of the two sorted arrays,
    one row per temperature; a single row is a 1-D array. *)
Definition regridded (g : Interp2d) (press temps : list Q) : ndarray :=
  let z := map (fun t => map (fun p => eval g p t) (np_sort press))
               (np_sort temps) in
  match z with
  | [row] => Arr1 row
  | _ => Arr2 z
  end.

(** The lines printed for one axis with bounds [mn] and [mx]. *)
Definition bounds_lines (TP : string) (mx mn : Q) (input : list Q)
    : list string :=
  (if existsb (fun x => Qltb mx x) input then [exceeds_msg TP] else [])
  ++ (if existsb (fun x => Qltb x mn) input then [below_msg TP] else []).

(** The lines printed by a query of a table. *)
Definition query_lines (lut : SeismicLookupTable) (press temps : list Q)
    : list string :=
  bounds_lines "pressure" (p_max lut) (p_min lut) press
  ++ bounds_lines "temperature" (t_max lut) (t_min lut) temps.

Fixpoint list_Qeqb (l1 l2 : list Q) : bool :=
  match l1, l2 with
  | [], [] => true
  | x :: l1', y :: l2' => Qeq_bool x y && list_Qeqb l1' l2'
  | _, _ => false
  end.

(** The temperatures of every pressure block are the temperature axis. *)
Definition blocks_agree (tbl : RawTable) : bool :=
  let temp := np_unique (map temperature tbl) in
  let n_p := length (np_unique (map pressure tbl)) in
  forallb (fun i => list_Qeqb (block temperature tbl (length temp) i) temp)
          (seq 0 n_p).

(** The two defects of a table named by the specification. *)
Definition malformed (tbl : RawTable) : bool :=
  let n_p := length (np_unique (map pressure tbl)) in
  let n_t := length (np_unique (map temperature tbl)) in
  negb (length tbl =? n_p * n_t)%nat || negb (blocks_agree tbl).

(** A strictly increasing list. *)
Fixpoint increasing (l : list Q) : Prop :=
  match l with
  | x :: ((y :: _) as tl) => x < y /\ increasing tl
  | _ => True
  end.

(** [table[r, c]] for a row. *)
Definition get_column (c : nat) (r : Row) : Q :=
  match c with
  | 0 => pressure r | 1 => temperature r | 2 => c_vp r | 3 => c_vs r
  | 4 => c_vp_an r | 5 => c_vs_an r | 6 => c_vphi r | 7 => c_dens r
  | 8 => c_qs r | _ => c_t_sol r
  end%nat.

(** Sample tables. *)
Definition sample_row (p t v : Q) : Row :=
  mkRow p t v (v + 1) (v + 2) (v + 3) (v + 4) (v + 5) (v + 6) (v + 7).

(** The table of the docstring of [__init__]. *)
Definition docstring_table : RawTable :=
  [ sample_row 0 500 10; sample_row 0 1000 20; sample_row 0 1500 30;
    sample_row 100000000 500 40; sample_row 100000000 1000 50;
    sample_row 100000000 1500 60 ].

(** Four rows, two pressures, two temperatures; the second pressure block
    repeats one temperature. *)
Definition uneven_table : RawTable :=
  [ sample_row 0 500 10; sample_row 0 1000 20;
    sample_row 100000000 500 30; sample_row 100000000 500 40 ].

(** The docstring's table with its last row repeated: seven rows. *)
Definition long_table : RawTable :=
  docstring_table ++ [sample_row 100000000 1500 60].

(** Two query points of the docstring's table. *)
Definition sample_press : list Q := [0; 100000000].
Definition sample_temps : list Q := [500; 1500].

(** A pressure above and a temperature below the docstring's table. *)
Definition far_press : list Q := [200000000].
Definition far_temps : list Q := [100].

(** Two property vectors, sampled at compositions 0 and 1. *)
Definition sample_vals1 : list Q := [1; 2].
Definition sample_vals2 : list Q := [3; 6].

(** The eight keys of [self.fields]. *)
Definition field_names : list string :=
  ["vp"; "vs"; "vp_ani"; "vs_ani"; "vphi"; "density"; "qs"; "t_sol"]%string.

(** A value within the bounds [mn] and [mx] of an axis. *)
Definition within (mn mx x : Q) : Prop := mn <= x /\ x <= mx.

(** All the numbers of an array. *)
Definition entries (arr : ndarray) : list Q :=
  match arr with
  | Arr1 v => v
  | Arr2 m => concat m
  end.

(** Every entry of a grid of [n_t] rows and [n_p] columns lies within
    [lo] and [hi]. *)
Definition grid_within (lo hi : Q) (n_t n_p : nat) (g : Grid) : Prop :=
  forall j i, (j < n_t)%nat -> (i < n_p)%nat -> within lo hi (grid_get g j i).

(** A table laid out as the docstring of [__init__] demands, on the
    pressures [ps] and the temperatures [ts]: both strictly increasing, one
    row per pair, pressure by pressure, and within a pressure temperature
    by temperature. *)
Definition grid_ordered (tbl : RawTable) (ps ts : list Q) : Prop :=
  increasing ps /\ increasing ts
  /\ length tbl = (length ps * length ts)%nat
  /\ forall i j r,
       (i < length ps)%nat -> (j < length ts)%nat ->
       nth_error tbl (i * length ts + j) = Some r ->
       pressure r == nth i ps 0 /\ temperature r == nth j ts 0.

(** The axes of the docstring's table. *)
Definition docstring_pressures : list Q := [0; 100000000].
Definition docstring_temperatures : list Q := [500; 1000; 1500].

(** Three array lengths that numpy can broadcast together: any two of
    them are equal, or one of the two is one. *)
Definition shapes_agree (n1 n2 n3 : nat) : Prop :=
  (n1 = n2 \/ n1 = 1 \/ n2 = 1)%nat
  /\ (n1 = n3 \/ n1 = 1 \/ n3 = 1)%nat
  /\ (n2 = n3 \/ n2 = 1 \/ n3 = 1)%nat.

(** A list in ascending order, as [np.sort] returns it. *)
Fixpoint ascending (l : list Q) : Prop :=
  match l with
  | x :: ((y :: _) as tl) => Qle_bool x y = true /\ ascending tl
  | _ => True
  end.

End LookupTablesTerms.

Module AttenuationTerms.

Import Attenuation.
Local Open Scope R_scope.

(** The five assignments of the array branch of
    [mantle_domain_fractions], as they act on the row of one P-T point. *)
Definition array_row (p t : R) : list R :=
  let f_umtz := (p - (pressure_tztop t - P_smooth_halfwidth))
                / (2.0 * P_smooth_halfwidth) in
  let f_tzlm := (p - (pressure_tzbase t - P_smooth_halfwidth))
                / (2.0 * P_smooth_halfwidth) in
  let row := [0; 0; 0] in
  let row := if Rleb f_umtz 0.0 then list_set 0 1.0 row else row in
  let row := if Rleb 0.0 f_umtz && Rleb f_umtz 1.0
             then list_set 1 f_umtz (list_set 0 (1.0 - f_umtz) row)
             else row in
  let row := if Rleb 1.0 f_umtz && Rleb f_tzlm 0.0
             then list_set 1 1.0 row else row in
  let row := if Rleb 0.0 f_tzlm && Rleb f_tzlm 1.0
             then list_set 2 f_tzlm (list_set 1 (1.0 - f_tzlm) row)
             else row in
  let row := if Rleb 1.0 f_tzlm then list_set 2 1.0 row else row in
  row.

(** A vector of three fractions: each in [0, 1], summing to one. *)
Definition is_fraction_vector (v : list R) : Prop :=
  exists x y z, v = [x; y; z]
    /\ 0 <= x <= 1 /\ 0 <= y <= 1 /\ 0 <= z <= 1 /\ x + y + z = 1.

(** The two blending bands do not overlap at temperature [t]. *)
Definition bands_apart (t : R) : Prop :=
  pressure_tztop t + P_smooth_halfwidth
  <= pressure_tzbase t - P_smooth_halfwidth.

(** The effective temperature of step 3. *)
Definition effective_temperature (dT temperature Tm : R) : R :=
  if Rltb dT (temperature - Tm) then Tm + dT else temperature.

(** The fraction-weighted sums of step 4 over the materials. *)
Fixpoint weighted_sum (term : Q_model -> R) (fractions : list R)
    (models : list Q_model) : R :=
  match fractions, models with
  | f :: fs, m :: ms => f * term m + weighted_sum term fs ms
  | _, _ => 0
  end.

Definition QS_term (frequency Tm Q_temperature : R) (m : Q_model) : R :=
  Q0 m * Rpower frequency (a m) * exp (a m * g m * Tm / Q_temperature).

(** Step 5 on an [invQP] already computed: the clamped [invQP] and [QP]. *)
Definition clamped (invQP : R) : R * xreal :=
  if Rltb invQP 0 then (0, PosInf) else (invQP, np_inv invQP).

(** Steps 3-7 at one P-T point, written out, for the fractions [fr] and
    the solidus temperature [Tm] of that point. *)
Definition steps (models : list Q_model) (fr : list R)
    (Tm Vp Vs temperature frequency dT : R) : AnelasticProperties R xreal :=
  let Qt := effective_temperature dT temperature Tm in
  let QS := weighted_sum
              (fun m => Q0 m * np_power frequency (a m)
                        * exp (a m * g m * Tm / Qt))
              fr models in
  let QK_ := weighted_sum QK fr models in
  let alpha := weighted_sum a fr models in
  let lmda := 4.0 / 3.0 * (Vs / Vp * (Vs / Vp)) in
  let invQP := (1.0 - lmda) * (1.0 / QK_) + lmda * (1.0 / QS) in
  mkAnelastic
    (Vp * (1.0 - fst (clamped invQP) / (2.0 * tan (PI * alpha / 2.0))))
    (Vs * (1.0 - 1.0 / QS / (2.0 * tan (PI * alpha / 2.0))))
    QS QK_ (snd (clamped invQP)) Tm.

(** The result of steps 1-7 at one P-T point, written out. *)
Definition closed_form (self : AttenuationModelGoes)
    (Vp Vs pressure temperature frequency dT : R)
    : AnelasticProperties R xreal :=
  steps (Q_models self)
        (model_mixing_function self pressure temperature)
        (T_solidus_function self pressure)
        Vp Vs temperature frequency dT.

(** The models Q4g, Q6g and Q7g of the source, with the solidus function
    [peridotite_solidus] of [profiles.py], which is not part of the
    sources at hand, left as a parameter (its array form acts on every
    element). *)
Definition goes_model (solidus : R -> R) (models : list Q_model)
    : AttenuationModelGoes :=
  mkModel solidus (map solidus)
          mantle_domain_fractions mantle_domain_fractions_array models.

Definition Q4g (solidus : R -> R) : AttenuationModelGoes :=
  goes_model solidus
    [ mkQ 0.1 38.0 0.15 1000.0; mkQ 3.5 20.0 0.15 1000.0;
      mkQ 35.0 10.0 0.15 1000.0 ].

Definition Q6g (solidus : R -> R) : AttenuationModelGoes :=
  goes_model solidus
    [ mkQ 0.1 38.0 0.15 1000.0; mkQ 0.5 30.0 0.15 1000.0;
      mkQ 3.5 20.0 0.15 1000.0 ].

Definition Q7g (solidus : R -> R) : AttenuationModelGoes :=
  goes_model solidus
    [ mkQ 0.1 38.0 0.15 1000.0; mkQ 0.5 30.0 0.15 1000.0;
      mkQ 1.5 26.0 0.15 1000.0 ].

(** The single-material engine of the specification's example: solidus
    at 1600 K everywhere, one material with all the weight. *)
Definition single_material : AttenuationModelGoes :=
  mkModel (fun _ => 1600) (map (fun _ => 1600))
          (fun _ _ => [1.0]) (map2 (fun _ _ => [1.0]))
          [ mkQ 35.0 10.0 0.15 1000.0 ].

(** A configuration acts on arrays of one length row by row: the solidus
    function element by element, the mixing function by [rowf] on every
    P-T point, one fraction per material. *)
Definition rowwise (self : AttenuationModelGoes) (rowf : R -> R -> list R)
    : Prop :=
  (forall ps, T_solidus_function_array self ps
              = map (T_solidus_function self) ps)
  /\ (forall ps ts, length ps = length ts ->
                    model_mixing_function_array self ps ts
                    = map2 rowf ps ts)
  /\ (forall p t, length (rowf p t) = length (Q_models self)).

(** A configuration acts on arrays element by element: on an array its
    functions return, at every element, what they return on the floats. *)
Definition elementwise (self : AttenuationModelGoes) : Prop :=
  rowwise self (model_mixing_function self).

(** Three models with a common frequency exponent [alpha0] and a common
    [QK], each with a positive [Q0]; the models Q4g, Q6g and Q7g of the
    source are of this kind. *)
Definition uniform_models (alpha0 k : R) (models : list Q_model) : Prop :=
  length models = 3%nat
  /\ Forall (fun m => a m = alpha0 /\ QK m = k /\ 0 < Q0 m) models.

(** The single-material engine with its one model taken away. *)
Definition no_models : AttenuationModelGoes :=
  mkModel (fun _ => 1600) (map (fun _ => 1600))
          (fun _ _ => [1.0]) (map2 (fun _ _ => [1.0])) [].

(** Three models with positive [Q0] and positive [QK]. *)
Definition positive_models (models : list Q_model) : Prop :=
  length models = 3%nat
  /\ Forall (fun m => 0 < Q0 m /\ 0 < QK m) models.

End AttenuationTerms.

(** ** Numbers used in the statements about binary64 arithmetic *)

Module Binary64Terms.

Import PrimFloat.

Local Open Scope float_scope.


Definition f0 : float := 0.
Definition f1 : float := 1.
Definition f49 : float := 49.

(** A double that is a number: neither an infinity nor NaN. *)
Definition finite (x : float) : bool :=
  match FloatOps.Prim2SF x with
  | SpecFloat.S754_zero _ | SpecFloat.S754_finite _ _ _ => true
  | _ => false
  end.

(** The same double, the two zeros taken as one. *)
Definition same_number (x y : float) : Prop :=
  x = y \/ ((x =? 0) = true /\ (y =? 0) = true).

End Binary64Terms.

(** * Properties of the lookup tables *)

Module LookupTablesSpec.

Import LookupTables LookupTablesTerms.
Import Lqa.
Local Open Scope Q_scope.

(** ** Field names *)

Lemma lower_char_idempotent (c : ascii) :
  lower_char (lower_char c) = lower_char c.
Proof.
  destruct c as [[] [] [] [] [] [] [] []]; reflexivity.
Qed.

Lemma lower_idempotent (s : string) : lower (lower s) = lower s.
Proof.
  induction s as [|c s IH]; simpl.
  - reflexivity.
  - now rewrite lower_char_idempotent, IH.
Qed.

(** A file of two lines or more is read as a 2-D table; a shorter one
    stops at the first two-index access. *)
Lemma build_grids_rows (tbl : RawTable) :
  (2 <= length tbl)%nat -> build_grids tbl = fill_grids tbl.
Proof.
  destruct tbl as [|r [|r' tbl]]; simpl; try lia. reflexivity.
Qed.

Lemma build_grids_short (tbl : RawTable) :
  (length tbl < 2)%nat -> build_grids tbl = Raise IndexError.
Proof.
  destruct tbl as [|r [|r' tbl]]; simpl; try lia; reflexivity.
Qed.

Lemma build_grids_ok (tbl : RawTable) (lut : SeismicLookupTable) :
  build_grids tbl = Ok lut ->
  fill_grids tbl = Ok lut /\ (2 <= length tbl)%nat.
Proof.
  intros H. destruct (Nat.lt_ge_cases (length tbl) 2) as [Hs|Hl].
  - rewrite (build_grids_short tbl Hs) in H. discriminate.
  - rewrite (build_grids_rows tbl Hl) in H. now split.
Qed.

Lemma build_grids_keys (tbl : RawTable) (lut : SeismicLookupTable) :
  build_grids tbl = Ok lut ->
  map fst (fields lut) =
  ["vp"; "vs"; "vp_ani"; "vs_ani"; "vphi"; "density"; "qs"; "t_sol"]%string.
Proof.
  intros H. apply build_grids_ok in H as [H _]. unfold fill_grids in H.
  repeat match type of H with
         | bind ?m _ = Ok _ => destruct m; simpl in H; [|discriminate]
         end.
  injection H as <-. reflexivity.
Qed.

(** C10: field-name lookup in [interp_grid] and [interp_points] is
    case-insensitive.  A query with a name and a query with its lowercase
    leave the same printed lines and the same result or exception; the
    names ['Vs'], ['VS'] and ['vs'] are looked up under one key; and every
    key of [self.fields] of a constructed table is its own lowercase. *)
Theorem C10_field_lookup_case_insensitive :
  (forall lut press temps s,
      interp_grid lut press temps s = interp_grid lut press temps (lower s)
      /\ interp_points lut press temps s
         = interp_points lut press temps (lower s))
  /\ (lower "Vs" = "vs" /\ lower "VS" = "vs" /\ lower "vs" = "vs")%string
  /\ (forall tbl lut,
         build_grids tbl = Ok lut ->
         Forall (fun kv => lower (fst kv) = fst kv) (fields lut)).
Proof.
  split; [|split].
  - intros lut press temps s.
    unfold interp_grid, interp_points.
    now rewrite lower_idempotent.
  - repeat split; reflexivity.
  - intros tbl lut H. apply build_grids_keys in H.
    rewrite <- (Forall_map fst (fun k => lower k = k)), H.
    repeat constructor.
Qed.

Lemma C10_field_lookup_case_insensitive_witness :
  exists lut,
    build_grids docstring_table = Ok lut
    /\ Forall (fun kv => lower (fst kv) = fst kv) (fields lut)
    /\ interp_points lut sample_press sample_temps "VS"
       = interp_points lut sample_press sample_temps (lower "VS").
Proof.
  destruct C10_field_lookup_case_insensitive as (Hq & _ & Hk).
  destruct (build_grids docstring_table) as [lut|] eqn:E;
    [|vm_compute in E; discriminate].
  exists lut. split; [reflexivity|]. split.
  - now apply (Hk docstring_table).
  - apply Hq.
Defined.

(** ** Composition interpolation *)

Lemma segment_ascending (c1 c2 v1 v2 cnew : Q) :
  (v2 - v1) / (c2 - c1) * (cnew - c1) + v1 == line c1 c2 v1 v2 cnew.
Proof. unfold line. ring. Qed.

Lemma segment_descending (c1 c2 v1 v2 cnew : Q) :
  ~ c1 == c2 ->
  (v1 - v2) / (c1 - c2) * (cnew - c2) + v2 == line c1 c2 v1 v2 cnew.
Proof.
  intros H. unfold line. field. split; intros E; apply H; lra.
Qed.



Lemma linear_interp_1d_line (vals1 vals2 : list Q) (c1 c2 cnew : Q) :
  ~ c1 == c2 -> length vals1 = length vals2 ->
  exists out,
    linear_interp_1d vals1 vals2 c1 c2 cnew = Ok out
    /\ Forall2 (fun o v => o == line c1 c2 (fst v) (snd v) cnew)
               out (combine vals1 vals2).
Proof.
  intros Hc Hlen. unfold linear_interp_1d.
  rewrite Hlen, Nat.eqb_refl. simpl.
  destruct (Qle_bool c1 c2) eqn:Hle; eexists; (split; [reflexivity|]).
  - clear Hlen. revert vals2.
    induction vals1 as [|v1 l1 IH]; intros [|v2 l2]; simpl;
      constructor; auto.
    simpl. apply segment_ascending.
  - clear Hlen. revert vals2.
    induction vals1 as [|v1 l1 IH]; intros [|v2 l2]; simpl;
      constructor; auto.
    simpl. now apply segment_descending.
Qed.




(** ** Building the grids *)

Lemma insert_unique_not_nil (x : Q) (l : list Q) : insert_unique x l <> [].
Proof. destruct l; simpl; [|destruct (x ?= q)]; discriminate. Qed.

Lemma np_unique_nil (l : list Q) : np_unique l = [] -> l = [].
Proof.
  destruct l as [|x l]; simpl; [reflexivity|].
  intros H. now apply insert_unique_not_nil in H.
Qed.

Lemma np_max_total (l : list Q) : l <> [] -> exists m, np_max l = Ok m.
Proof. destruct l; [congruence|]. intros _. eexists. reflexivity. Qed.

Lemma np_min_total (l : list Q) : l <> [] -> exists m, np_min l = Ok m.
Proof. destruct l; [congruence|]. intros _. eexists. reflexivity. Qed.

Lemma block_has_length (col : Row -> Q) (tbl : RawTable) (pstep i : nat) :
  length (block col tbl pstep i) = block_length tbl pstep i.
Proof.
  unfold block, block_length, slice.
  rewrite length_map, length_firstn, length_skipn.
  replace (pstep + i * pstep - (0 + i * pstep))%nat with pstep by lia.
  f_equal.
Qed.

(** When a column assignment goes through, and what it leaves. *)
Lemma set_column_spec (g : Grid) (i : nat) (src : list Q) :
  (length src = length g \/ length src = 1%nat ->
   exists g', set_column g i src = Ok g' /\ length g' = length g)
  /\ (~ (length src = length g \/ length src = 1%nat) ->
      set_column g i src = Raise ValueError).
Proof.
  unfold set_column.
  destruct (Nat.eqb_spec (length src) (length g)) as [E|E].
  - split; [|tauto]. intros _. eexists. split; [reflexivity|].
    rewrite length_map, length_combine. lia.
  - split.
    + intros [H|H]; [tauto|].
      destruct src as [|v [|w src]]; try discriminate.
      eexists. split; [reflexivity|]. now rewrite length_map.
    + intros H. destruct src as [|v [|w src]]; try reflexivity.
      exfalso. apply H. now right.
Qed.

Ltac set_column_goes H :=
  match goal with
  | |- context [set_column ?g ?i (block ?c ?t ?p ?k)] =>
      let g' := fresh "g" in
      let E := fresh "E" in
      let L := fresh "L" in
      destruct (proj1 (set_column_spec g i (block c t p k))) as (g' & E & L);
      [rewrite block_has_length; unfold block_fits in H; lia
      |rewrite E; simpl]
  end.

Lemma fill_step_fits (tbl : RawTable) (n : nat) (gs : Grids) (i : nat) :
  rows_are n gs -> block_fits tbl n i ->
  exists gs', fill_step tbl n gs i = Ok gs' /\ rows_are n gs'.
Proof.
  intros (H1 & H2 & H3 & H4 & H5 & H6 & H7 & H8) Hfit.
  unfold fill_step.
  do 8 set_column_goes Hfit.
  eexists. split; [reflexivity|].
  unfold rows_are; simpl. repeat split; congruence.
Qed.

Lemma fill_step_misfit (tbl : RawTable) (n : nat) (gs : Grids) (i : nat) :
  rows_are n gs -> ~ block_fits tbl n i ->
  fill_step tbl n gs i = Raise ValueError.
Proof.
  intros (H1 & _) Hfit. unfold fill_step.
  rewrite (proj2 (set_column_spec (Vp gs) i (block c_vp tbl n i))).
  - reflexivity.
  - rewrite block_has_length, H1. exact Hfit.
Qed.

Lemma block_fits_dec (tbl : RawTable) (n i : nat) :
  {block_fits tbl n i} + {~ block_fits tbl n i}.
Proof.
  unfold block_fits.
  destruct (Nat.eq_dec (block_length tbl n i) n);
    destruct (Nat.eq_dec (block_length tbl n i) 1); (left; lia) || (right; lia).
Qed.

Lemma fill_loop_spec (tbl : RawTable) (n : nat) (idxs : list nat) :
  forall gs, rows_are n gs ->
  (Forall (block_fits tbl n) idxs ->
   exists gs', fill_loop tbl n idxs gs = Ok gs' /\ rows_are n gs')
  /\ (~ Forall (block_fits tbl n) idxs ->
      fill_loop tbl n idxs gs = Raise ValueError).
Proof.
  induction idxs as [|i idxs IH]; intros gs Hgs; simpl.
  - split; [eauto|]. intros H. exfalso. apply H. constructor.
  - destruct (block_fits_dec tbl n i) as [Hi|Hi].
    + destruct (fill_step_fits tbl n gs i Hgs Hi) as (gs1 & E & Hgs1).
      rewrite E. simpl. destruct (IH gs1 Hgs1) as [IHok IHbad]. split.
      * intros H. inversion H; subst. auto.
      * intros H. apply IHbad. intros H'. apply H. now constructor.
    + rewrite (fill_step_misfit tbl n gs i Hgs Hi). simpl. split.
      * intros H. inversion H; subst. tauto.
      * reflexivity.
Qed.

Lemma np_zeros_rows (n_t n_p : nat) :
  let z := np_zeros n_t n_p in
  rows_are n_t (mkGrids z z z z z z z z).
Proof.
  unfold rows_are, np_zeros; simpl. rewrite repeat_length. tauto.
Qed.

(** Every block fits exactly when the table has at least
    [n_p * n_t] rows, or its last block is a single row. *)
Lemma blocks_fit_iff (tbl : RawTable) (n_p n_t : nat) :
  (1 <= n_p)%nat -> (1 <= n_t)%nat ->
  Forall (block_fits tbl n_t) (seq 0 n_p) <->
  (n_p * n_t <= length tbl)%nat \/ length tbl = ((n_p - 1) * n_t + 1)%nat.
Proof.
  intros Hp Ht. rewrite Forall_forall. unfold block_fits, block_length.
  split.
  - intros H. specialize (H (n_p - 1)%nat).
    rewrite in_seq in H.
    assert (E : (n_p * n_t = (n_p - 1) * n_t + n_t)%nat) by nia.
    lia.
  - intros H i Hi. rewrite in_seq in Hi.
    assert (E : (i * n_t + n_t <= (n_p - 1) * n_t + n_t)%nat) by nia.
    assert (E' : (n_p * n_t = (n_p - 1) * n_t + n_t)%nat) by nia.
    destruct H as [H|H].
    + lia.
    + destruct (Nat.eq_dec i (n_p - 1)) as [->|Hne].
      * lia.
      * assert ((i + 1) * n_t <= (n_p - 1) * n_t)%nat by nia. lia.
Qed.

Lemma fill_grids_spec (tbl : RawTable) :
  let n_p := length (np_unique (map pressure tbl)) in
  let n_t := length (np_unique (map temperature tbl)) in
  (tbl <> [] /\ Forall (block_fits tbl n_t) (seq 0 n_p) ->
   exists lut, fill_grids tbl = Ok lut
               /\ table lut = tbl
               /\ pres lut = np_unique (map pressure tbl)
               /\ temp lut = np_unique (map temperature tbl)
               /\ n_uniq_p lut = n_p /\ n_uniq_t lut = n_t
               /\ pstep lut = n_t)
  /\ (~ (tbl <> [] /\ Forall (block_fits tbl n_t) (seq 0 n_p)) ->
      fill_grids tbl = Raise ValueError).
Proof.
  intros n_p n_t.
  destruct tbl as [|r tbl].
  { split; [intros [H _]; congruence|reflexivity]. }
  assert (Hp : np_unique (map pressure (r :: tbl)) <> [])
    by (intros E; apply np_unique_nil in E; discriminate).
  assert (Ht : np_unique (map temperature (r :: tbl)) <> [])
    by (intros E; apply np_unique_nil in E; discriminate).
  unfold fill_grids. fold n_p n_t.
  destruct (np_max_total _ Ht) as (tmax & ->).
  destruct (np_min_total _ Ht) as (tmin & ->).
  destruct (np_max_total _ Hp) as (pmax & ->).
  destruct (np_min_total _ Hp) as (pmin & ->).
  simpl bind.
  destruct (fill_loop_spec (r :: tbl) n_t (seq 0 n_p) _
              (np_zeros_rows n_t n_p)) as [Hok Hbad].
  split.
  - intros [_ Hfit]. destruct (Hok Hfit) as (gs & -> & _). simpl.
    eexists. split; [reflexivity|]. simpl. tauto.
  - intros H. rewrite Hbad; [reflexivity|]. intros Hfit. apply H.
    split; [discriminate|exact Hfit].
Qed.

(** C2, as the code has it: building the grids compares no temperature
    sequences and knows no [MalformedTableError].  A file with fewer than
    two lines is read as a 1-D array and ends in [IndexError] at the first
    access to a column.  A file of two lines or more goes through exactly
    when it has at least [n_uniq_p * n_uniq_t] rows, or when its last
    pressure block is a single row (which numpy broadcasts down the
    column); every other such table ends in numpy's [ValueError].  In
    particular every table of two rows or more with
    [n_uniq_p * n_uniq_t] rows is built, and the built object has
    [n_uniq_p * n_uniq_t] equal to its row count. *)
Theorem C2_build_grids_checks_only_block_sizes (tbl : RawTable) :
  let n_p := length (np_unique (map pressure tbl)) in
  let n_t := length (np_unique (map temperature tbl)) in
  (succeeds (build_grids tbl) <->
   (2 <= length tbl)%nat
   /\ ((n_p * n_t <= length tbl)%nat
       \/ length tbl = ((n_p - 1) * n_t + 1)%nat))
  /\ (forall e, build_grids tbl = Raise e ->
        ((length tbl < 2)%nat /\ e = IndexError)
        \/ ((2 <= length tbl)%nat /\ e = ValueError))
  /\ ((2 <= length tbl)%nat /\ length tbl = (n_p * n_t)%nat ->
      exists lut, build_grids tbl = Ok lut
                  /\ (n_uniq_p lut * n_uniq_t lut)%nat = length (table lut)).
Proof.
  intros n_p n_t.
  destruct (Nat.lt_ge_cases (length tbl) 2) as [Hs|Hl].
  { rewrite (build_grids_short tbl Hs). split; [|split].
    - split; [intros [lut E]; discriminate|intros [H _]; lia].
    - intros e E. left. split; [exact Hs|congruence].
    - intros [H _]. lia. }
  rewrite (build_grids_rows tbl Hl).
  assert (Hne : tbl <> []) by (intros ->; simpl in Hl; lia).
  destruct (fill_grids_spec tbl) as [Hok Hbad]. fold n_p n_t in Hok, Hbad.
  assert (Hfit : Forall (block_fits tbl n_t) (seq 0 n_p) <->
                 (n_p * n_t <= length tbl)%nat
                 \/ length tbl = ((n_p - 1) * n_t + 1)%nat).
  { apply blocks_fit_iff.
    - subst n_p. destruct (np_unique (map pressure tbl)) eqn:E; simpl; [|lia].
      apply np_unique_nil in E. destruct tbl; [congruence|discriminate].
    - subst n_t.
      destruct (np_unique (map temperature tbl)) eqn:E; simpl; [|lia].
      apply np_unique_nil in E. destruct tbl; [congruence|discriminate]. }
  assert (Hdec : {Forall (block_fits tbl n_t) (seq 0 n_p)}
                 + {~ Forall (block_fits tbl n_t) (seq 0 n_p)})
    by apply (Forall_dec _ (block_fits_dec tbl n_t) (seq 0 n_p)).
  split; [|split].
  - split.
    + intros [lut E]. split; [exact Hl|]. destruct Hdec as [H|H].
      * now apply Hfit.
      * rewrite Hbad in E by tauto. discriminate.
    + intros [_ H]. apply Hfit in H.
      destruct (Hok (conj Hne H)) as (lut & E & _). now exists lut.
  - intros e E. right. split; [exact Hl|]. destruct Hdec as [H|H].
    + destruct (Hok (conj Hne H)) as (lut & E' & _). congruence.
    + rewrite Hbad in E by tauto. congruence.
  - intros [_ Hlen].
    destruct Hok as (lut & E & Ht & _ & _ & Hp & Hn & _).
    { split; [exact Hne|]. apply Hfit. lia. }
    exists lut. split; [exact E|]. rewrite Hp, Hn, Ht. lia.
Qed.

(** C2 as stated fails: [uneven_table] has [n_uniq_p * n_uniq_t] rows but
    its second pressure block repeats a temperature, and [long_table] has
    a row too many; both are malformed in the sense of the specification,
    and both are built, interpolators included. *)
Lemma C2_malformed_tables_are_built :
  (malformed uneven_table = true
   /\ blocks_agree uneven_table = false
   /\ exists lut, init uneven_table = Ok lut)
  /\ (malformed long_table = true
      /\ (length long_table =? 2 * 3)%nat = false
      /\ exists lut, init long_table = Ok lut).
Proof.
  split; (split; [vm_compute; reflexivity|]);
    (split; [vm_compute; reflexivity|]);
    eexists; vm_compute; reflexivity.
Qed.

Lemma C2_build_grids_checks_only_block_sizes_witness :
  succeeds (build_grids docstring_table)
  /\ exists lut,
       build_grids docstring_table = Ok lut
       /\ (n_uniq_p lut * n_uniq_t lut)%nat = length (table lut).
Proof.
  destruct (C2_build_grids_checks_only_block_sizes docstring_table)
    as (Hiff & _ & Hrows).
  split.
  - apply Hiff. split; [vm_compute; lia|]. left. vm_compute. lia.
  - apply Hrows. split; [vm_compute; lia|]. vm_compute. reflexivity.
Defined.

(** ** The axes *)

Lemma Qltb_lt (x y : Q) : Qltb x y = true <-> x < y.
Proof.
  unfold Qltb. rewrite negb_true_iff. split.
  - intros H. apply Qnot_le_lt. intros Hle.
    apply Qle_bool_iff in Hle. congruence.
  - intros H. destruct (Qle_bool y x) eqn:E; [|reflexivity].
    apply Qle_bool_iff in E. lra.
Qed.

Lemma Qltb_ge (x y : Q) : Qltb x y = false <-> y <= x.
Proof.
  unfold Qltb. rewrite negb_false_iff. apply Qle_bool_iff.
Qed.

Lemma insert_unique_head (x y : Q) (l : list Q) :
  exists z l', insert_unique x (y :: l) = z :: l' /\ (z == x \/ z = y).
Proof.
  simpl. destruct (x ?= y); eexists; eexists; (split; [reflexivity|]);
    auto. left. reflexivity.
Qed.

Lemma insert_unique_increasing (x : Q) (l : list Q) :
  increasing l -> increasing (insert_unique x l).
Proof.
  induction l as [|y l IH]; intros Hl; [exact I|].
  simpl. destruct (Qcompare_spec x y) as [E|E|E].
  - exact Hl.
  - split; assumption.
  - assert (Htl : increasing l) by (destruct l; [exact I|apply Hl]).
    specialize (IH Htl).
    destruct l as [|z l]; [simpl; split; [exact E|exact I]|].
    destruct (insert_unique_head x z l) as (w & l' & Eq & Hw).
    rewrite Eq in *. split; [|exact IH].
    destruct Hw as [Hw| ->]; [rewrite Hw; exact E|apply Hl].
Qed.

Lemma np_unique_increasing (l : list Q) : increasing (np_unique l).
Proof.
  induction l as [|x l IH]; [exact I|].
  simpl. now apply insert_unique_increasing.
Qed.

Lemma increasing_tail (x : Q) (l : list Q) :
  increasing (x :: l) -> increasing l.
Proof. destruct l; [intros; exact I|intros [_ H]; exact H]. Qed.

Lemma increasing_step (l : list Q) (k : nat) :
  increasing l -> (S k < length l)%nat -> nth k l 0 < nth (S k) l 0.
Proof.
  revert k. induction l as [|x l IH]; intros k Hl Hk; [simpl in Hk; lia|].
  destruct l as [|y l]; [simpl in Hk; lia|].
  destruct k as [|k].
  - apply Hl.
  - apply (IH k); [apply Hl|simpl in *; lia].
Qed.

Lemma increasing_from_head (l : list Q) (k : nat) :
  increasing l -> (k < length l)%nat -> hd 0 l <= nth k l 0.
Proof.
  intros Hl. induction k as [|k IH]; intros Hk.
  - destruct l; simpl; lra.
  - pose proof (increasing_step l k Hl Hk). specialize (IH ltac:(lia)). lra.
Qed.

Lemma last_is_nth (l : list Q) : last l 0 = nth (length l - 1) l 0.
Proof.
  induction l as [|x l IH]; [reflexivity|].
  destruct l as [|y l]; [reflexivity|].
  change (last (x :: y :: l) 0) with (last (y :: l) 0). rewrite IH.
  simpl. now rewrite Nat.sub_0_r.
Qed.

Lemma increasing_to_last (l : list Q) (k : nat) :
  increasing l -> (k < length l)%nat -> nth k l 0 <= last l 0.
Proof.
  intros Hl Hk. rewrite last_is_nth.
  remember (length l - 1 - k)%nat as d eqn:Hd.
  revert k Hk Hd. induction d as [|d IH]; intros k Hk Hd.
  - replace (length l - 1)%nat with k by lia. lra.
  - pose proof (increasing_step l k Hl ltac:(lia)).
    specialize (IH (S k) ltac:(lia) ltac:(lia)). lra.
Qed.

(** ** The interpolant at the knots and outside them *)

Lemma clamp_inside (tb te x : Q) : tb <= x -> x <= te -> clamp tb te x = x.
Proof.
  intros H1 H2. unfold clamp.
  rewrite (proj2 (Qltb_ge x tb) H1). now rewrite (proj2 (Qltb_ge te x) H2).
Qed.

Lemma clamp_bounds (tb te x : Q) :
  tb <= te -> tb <= clamp tb te x /\ clamp tb te x <= te.
Proof.
  intros H. unfold clamp.
  destruct (Qltb x tb) eqn:E1.
  - rewrite (proj2 (Qltb_ge te tb) H). lra.
  - apply Qltb_ge in E1. destruct (Qltb te x) eqn:E2.
    + lra.
    + apply Qltb_ge in E2. lra.
Qed.

Lemma clamp_idempotent (tb te x : Q) :
  tb <= te -> clamp tb te (clamp tb te x) = clamp tb te x.
Proof.
  intros H. destruct (clamp_bounds tb te x H). now apply clamp_inside.
Qed.

(** At a knot the search stops in the interval that starts there, or in
    the last interval for the last knot. *)
Lemma locate_knot (knots : list Q) :
  forall k i, increasing knots -> (2 <= length knots)%nat ->
  (i < length knots)%nat ->
  locate k knots (nth i knots 0)
  = (k + if (i <? length knots - 1)%nat then i else length knots - 2)%nat.
Proof.
  induction knots as [|x0 knots IH]; intros k i Hinc Hlen Hi;
    [simpl in Hlen; lia|].
  destruct knots as [|x1 rest]; [simpl in Hlen; lia|].
  destruct rest as [|x2 rest].
  - simpl. destruct i as [|[|i]]; simpl in *; lia.
  - change (locate k (x0 :: x1 :: x2 :: rest) (nth i (x0 :: x1 :: x2 :: rest) 0))
      with (if Qltb (nth i (x0 :: x1 :: x2 :: rest) 0) x1 then k
            else locate (S k) (x1 :: x2 :: rest)
                   (nth i (x0 :: x1 :: x2 :: rest) 0)).
    destruct i as [|i].
    + simpl nth. rewrite (proj2 (Qltb_lt x0 x1)) by apply Hinc.
      simpl. lia.
    + change (nth (S i) (x0 :: x1 :: x2 :: rest) 0)
        with (nth i (x1 :: x2 :: rest) 0).
      assert (Hge : x1 <= nth i (x1 :: x2 :: rest) 0).
      { apply (increasing_from_head (x1 :: x2 :: rest) i);
          [apply Hinc|simpl in *; lia]. }
      rewrite (proj2 (Qltb_ge _ _) Hge).
      rewrite IH; [|apply Hinc|simpl; lia|simpl in *; lia].
      simpl length.
      destruct (Nat.ltb_spec i (S (S (length rest)) - 1));
        destruct (Nat.ltb_spec (S i) (S (S (S (length rest))) - 1)); lia.
Qed.

(** At a knot one of the two weights is one and the other zero. *)
Lemma bspl_knot (knots : list Q) (i : nat) :
  increasing knots -> (2 <= length knots)%nat -> (i < length knots)%nat ->
  exists l h1 h2,
    bspl knots (nth i knots 0) = (l, (h1, h2))
    /\ ((l = i /\ h1 == 1 /\ h2 == 0) \/ (S l = i /\ h1 == 0 /\ h2 == 1)).
Proof.
  intros Hinc Hlen Hi. unfold bspl.
  rewrite clamp_inside;
    [|now apply increasing_from_head|now apply increasing_to_last].
  rewrite locate_knot by assumption. simpl Nat.add.
  do 3 eexists. split; [reflexivity|].
  destruct (Nat.ltb_spec i (length knots - 1)) as [Hlt|Hge].
  - left. split; [reflexivity|].
    pose proof (increasing_step knots i Hinc ltac:(lia)) as Hstep.
    split; [field; lra|ring].
  - right. assert (Ei : i = S (length knots - 2)) by lia.
    split; [now rewrite Ei|].
    pose proof (increasing_step knots (length knots - 2) Hinc ltac:(lia))
      as Hstep.
    rewrite <- Ei in *.
    split; [ring|field; lra].
Qed.

(** The interpolant passes through the grid values. *)
Lemma eval_knot (g : Interp2d) (i j : nat) :
  increasing (ix g) -> increasing (iy g) ->
  (2 <= length (ix g))%nat -> (2 <= length (iy g))%nat ->
  (i < length (ix g))%nat -> (j < length (iy g))%nat ->
  eval g (nth i (ix g) 0) (nth j (iy g) 0) == grid_get (iz g) j i.
Proof.
  intros Hx Hy Lx Ly Hi Hj. unfold eval.
  destruct (bspl_knot (ix g) i Hx Lx Hi) as (lx & hx1 & hx2 & -> & Wx).
  destruct (bspl_knot (iy g) j Hy Ly Hj) as (ly & hy1 & hy2 & -> & Wy).
  destruct Wx as [(<- & Ex1 & Ex2)|(<- & Ex1 & Ex2)];
    destruct Wy as [(<- & Ey1 & Ey2)|(<- & Ey1 & Ey2)];
    rewrite Ex1, Ex2, Ey1, Ey2; ring.
Qed.

(** An argument outside the knots is moved to the nearest end knot before
    anything else is computed. *)
Lemma bspl_clamps (knots : list Q) (x : Q) :
  hd 0 knots <= last knots 0 ->
  bspl knots x = bspl knots (clamp (hd 0 knots) (last knots 0) x).
Proof.
  intros H. unfold bspl. now rewrite clamp_idempotent.
Qed.

Lemma eval_clamps (g : Interp2d) (x y : Q) :
  hd 0 (ix g) <= last (ix g) 0 -> hd 0 (iy g) <= last (iy g) 0 ->
  eval g x y
  = eval g (clamp (hd 0 (ix g)) (last (ix g) 0) x)
           (clamp (hd 0 (iy g)) (last (iy g) 0) y).
Proof.
  intros Hx Hy. unfold eval.
  now rewrite <- (bspl_clamps (ix g) x Hx), <- (bspl_clamps (iy g) y Hy).
Qed.

(** ** What the grids hold *)

Lemma list_set_length {A : Type} (i : nat) (v : A) (l : list A) :
  length (list_set i v l) = length l.
Proof.
  revert i. induction l as [|x l IH]; intros [|i]; simpl; auto.
Qed.

Lemma list_set_nth {A : Type} (i k : nat) (v d : A) (l : list A) :
  (i < length l)%nat ->
  nth k (list_set i v l) d = if (k =? i)%nat then v else nth k l d.
Proof.
  revert i k. induction l as [|x l IH]; intros i k Hi; [simpl in Hi; lia|].
  destruct i as [|i]; destruct k as [|k]; simpl; auto.
  apply IH. simpl in Hi. lia.
Qed.

Lemma nth_map_in {A B : Type} (f : A -> B) (l : list A) (j : nat)
    (d : A) (d' : B) :
  (j < length l)%nat -> nth j (map f l) d' = f (nth j l d).
Proof.
  intros H. rewrite (nth_indep _ d' (f d)) by now rewrite length_map.
  apply map_nth.
Qed.

Lemma fill_loop_columns (tbl : RawTable) (n : nat) (idxs : list nat) :
  forall gs gs', fill_loop tbl n idxs gs = Ok gs' ->
  fill_column c_vp tbl n idxs (Vp gs) = Ok (Vp gs')
  /\ fill_column c_vs tbl n idxs (Vs gs) = Ok (Vs gs')
  /\ fill_column c_vp_an tbl n idxs (Vp_an gs) = Ok (Vp_an gs')
  /\ fill_column c_vs_an tbl n idxs (Vs_an gs) = Ok (Vs_an gs')
  /\ fill_column c_vphi tbl n idxs (Vphi gs) = Ok (Vphi gs')
  /\ fill_column c_dens tbl n idxs (Dens gs) = Ok (Dens gs')
  /\ fill_column c_qs tbl n idxs (Qs gs) = Ok (Qs gs')
  /\ fill_column c_t_sol tbl n idxs (T_sol gs) = Ok (T_sol gs').
Proof.
  induction idxs as [|i idxs IH]; intros gs gs' H; simpl in *.
  - injection H as <-. repeat split; reflexivity.
  - unfold fill_step in H.
    repeat match type of H with
           | context [set_column ?g ?k ?src] =>
               destruct (set_column g k src); simpl in H; [|discriminate]
           end.
    apply IH in H. simpl in H. exact H.
Qed.

Lemma set_column_get (n_p : nat) (g g' : Grid) (i : nat) (src : list Q) :
  set_column g i src = Ok g' -> wide n_p g -> (i < n_p)%nat ->
  wide n_p g' /\ length g' = length g
  /\ forall j k, (j < length g)%nat ->
       grid_get g' j k
       = if (k =? i)%nat then written (length g) src j else grid_get g j k.
Proof.
  unfold set_column, written, wide, grid_get. intros H Hw Hi.
  destruct (Nat.eqb_spec (length src) (length g)) as [E|E].
  - injection H as <-. split; [|split].
    + rewrite Forall_forall in *. intros row Hrow.
      apply in_map_iff in Hrow. destruct Hrow as ([r v] & <- & Hin).
      rewrite list_set_length. apply Hw. now apply in_combine_l in Hin.
    + rewrite length_map, length_combine. lia.
    + intros j k Hj.
      rewrite (nth_map_in _ _ j ([], 0)) by (rewrite length_combine; lia).
      rewrite combine_nth by auto. simpl.
      apply list_set_nth. rewrite Forall_forall in Hw.
      rewrite (Hw (nth j g [])); [exact Hi|]. now apply nth_In.
  - destruct src as [|v [|w src]]; try discriminate.
    injection H as <-. split; [|split].
    + rewrite Forall_forall in *. intros row Hrow.
      apply in_map_iff in Hrow. destruct Hrow as (r & <- & Hin).
      rewrite list_set_length. now apply Hw.
    + now rewrite length_map.
    + intros j k Hj.
      rewrite (nth_map_in _ _ j []) by lia. simpl nth at 2.
      apply list_set_nth. rewrite Forall_forall in Hw.
      rewrite (Hw (nth j g [])); [exact Hi|]. now apply nth_In.
Qed.

Lemma fill_column_get (col : Row -> Q) (tbl : RawTable) (n n_p : nat)
    (idxs : list nat) :
  forall g g', fill_column col tbl n idxs g = Ok g' ->
  wide n_p g -> length g = n -> Forall (fun i => (i < n_p)%nat) idxs ->
  wide n_p g' /\ length g' = n
  /\ forall j k, (j < n)%nat ->
       grid_get g' j k
       = if existsb (Nat.eqb k) idxs
         then written n (block col tbl n k) j else grid_get g j k.
Proof.
  induction idxs as [|i idxs IH]; intros g g' H Hw Hn Hidx; simpl in H.
  - injection H as <-. simpl. auto.
  - destruct (set_column g i (block col tbl n i)) as [g1|] eqn:E;
      simpl in H; [|discriminate].
    apply Forall_cons_iff in Hidx as [Hi Hrest].
    destruct (set_column_get n_p g g1 i _ E Hw Hi) as (Hw1 & Hn1 & Hget1).
    destruct (IH g1 g' H Hw1 ltac:(lia) Hrest) as (Hw' & Hn' & Hget').
    split; [exact Hw'|]. split; [lia|].
    intros j k Hj. rewrite Hget' by lia. simpl.
    destruct (existsb (Nat.eqb k) idxs).
    + now rewrite orb_true_r.
    + rewrite orb_false_r, Hget1, Hn by lia.
      destruct (Nat.eqb_spec k i) as [->|]; reflexivity.
Qed.

(** A block that fits carries the table's rows, in order. *)
Lemma written_row (col : Row -> Q) (tbl : RawTable) (n i j : nat) (r : Row) :
  block_fits tbl n i -> (j < n)%nat ->
  nth_error tbl (i * n + j) = Some r ->
  written n (block col tbl n i) j = col r.
Proof.
  intros Hfit Hj Hr. unfold written.
  assert (HN : (i * n + j < length tbl)%nat)
    by (apply nth_error_Some; congruence).
  assert (Hrow : forall k, (k < n)%nat ->
            nth_error (block col tbl n i) k
            = option_map col (nth_error tbl (i * n + k))).
  { intros k Hk. unfold block, slice.
    rewrite nth_error_map, nth_error_firstn, nth_error_skipn.
    replace (n + i * n - (0 + i * n))%nat with n by lia.
    destruct (Nat.ltb_spec k n); [|lia]. reflexivity. }
  rewrite block_has_length.
  unfold block_fits, block_length in *.
  destruct (Nat.eqb_spec (Nat.min n (length tbl - i * n)) n) as [E|E].
  - apply nth_error_nth. rewrite Hrow by exact Hj. now rewrite Hr.
  - assert (j = 0%nat) by lia. subst j.
    apply nth_error_nth. rewrite Hrow by exact Hj. now rewrite Hr.
Qed.

(** ** A constructed table *)

Tactic Notation "bind_ok" hyp(H) ident(x) ident(E) :=
  match type of H with
  | bind ?m _ = Ok _ => destruct m as [x|] eqn:E; simpl in H; [|discriminate]
  end.

Lemma build_grids_inv (tbl : RawTable) (lut : SeismicLookupTable) :
  build_grids tbl = Ok lut ->
  table lut = tbl
  /\ pres lut = np_unique (map pressure tbl)
  /\ temp lut = np_unique (map temperature tbl)
  /\ n_uniq_p lut = length (pres lut) /\ n_uniq_t lut = length (temp lut)
  /\ pstep lut = length (temp lut)
  /\ np_max (temp lut) = Ok (t_max lut) /\ np_min (temp lut) = Ok (t_min lut)
  /\ np_max (pres lut) = Ok (p_max lut) /\ np_min (pres lut) = Ok (p_min lut)
  /\ exists gs,
       fill_loop tbl (length (temp lut)) (seq 0 (length (pres lut)))
         (let z := np_zeros (length (temp lut)) (length (pres lut)) in
          mkGrids z z z z z z z z) = Ok gs
       /\ fields lut =
          [ ("vp", mkField 2 (Vp gs) "km/s");
            ("vs", mkField 3 (Vs gs) "km/s");
            ("vp_ani", mkField 4 (Vp_an gs) "km/s");
            ("vs_ani", mkField 5 (Vs_an gs) "km/s");
            ("vphi", mkField 6 (Vphi gs) "km/s");
            ("density", mkField 7 (Dens gs) "$kg/m^3$");
            ("qs", mkField 8 (Qs gs) "Hz");
            ("t_sol", mkField 9 (T_sol gs) "K") ]%string.
Proof.
  intros H. apply build_grids_ok in H as [H _]. unfold fill_grids in H.
  bind_ok H tmax E1. bind_ok H tmin E2. bind_ok H pmax E3. bind_ok H pmin E4.
  bind_ok H gs E5. injection H as <-. simpl.
  repeat (split; [reflexivity || assumption|]).
  exists gs. split; [exact E5|reflexivity].
Qed.

Lemma init_inv (tbl : RawTable) (lut : SeismicLookupTable) :
  init tbl = Ok lut ->
  build_grids tbl = Ok lut
  /\ (2 <= length (pres lut))%nat /\ (2 <= length (temp lut))%nat.
Proof.
  unfold init. intros H. bind_ok H lut' E.
  destruct (build_grids_inv tbl lut' E) as (_ & _ & _ & _ & _ & _ & _ & _ & _
                                            & _ & gs & _ & Hf).
  rewrite Hf in H. simpl in H. unfold interp2d at 1 in H.
  destruct (2 <=? length (pres lut'))%nat eqn:Lp;
    destruct (2 <=? length (temp lut'))%nat eqn:Lt;
    simpl in H; try discriminate.
  apply Nat.leb_le in Lp, Lt.
  bind_ok H x Ex. injection H as <-. auto.
Qed.

Lemma np_zeros_wide (n_t n_p : nat) : wide n_p (np_zeros n_t n_p).
Proof.
  unfold wide, np_zeros. apply Forall_forall. intros row Hrow.
  apply repeat_spec in Hrow. subst. apply repeat_length.
Qed.

Lemma existsb_seq (k n : nat) :
  (k < n)%nat -> existsb (Nat.eqb k) (seq 0 n) = true.
Proof.
  intros H. apply existsb_exists. exists k. split.
  - apply in_seq. lia.
  - apply Nat.eqb_refl.
Qed.

(** The grid of a field holds, at row [j] and column [i], the field's
    column of table row [i * pstep + j]. *)
Lemma field_grid_value (tbl : RawTable) (lut : SeismicLookupTable)
    (key : string) (fld : Field) (i j : nat) (r : Row) :
  build_grids tbl = Ok lut -> dict_get (fields lut) key = Ok fld ->
  (i < length (pres lut))%nat -> (j < length (temp lut))%nat ->
  nth_error tbl (i * length (temp lut) + j) = Some r ->
  grid_get (f_grid fld) j i = get_column (f_index fld) r.
Proof.
  intros Hb Hd Hi Hj Hr.
  destruct (build_grids_inv tbl lut Hb)
    as (_ & _ & _ & _ & _ & _ & _ & _ & _ & _ & gs & Hloop & Hf).
  set (n := length (temp lut)) in *. set (n_p := length (pres lut)) in *.
  assert (Hfit : block_fits tbl n i).
  { destruct (Forall_dec _ (block_fits_dec tbl n) (seq 0 n_p)) as [F|F].
    - rewrite Forall_forall in F. apply F. apply in_seq. lia.
    - destruct (fill_loop_spec tbl n (seq 0 n_p) _ (np_zeros_rows n n_p))
        as [_ Hbad].
      simpl in Hloop. rewrite (Hbad F) in Hloop. discriminate. }
  assert (Hall : Forall (fun k => (k < n_p)%nat) (seq 0 n_p)).
  { apply Forall_forall. intros k Hk. apply in_seq in Hk. lia. }
  assert (Hcol : forall col g,
             fill_column col tbl n (seq 0 n_p) (np_zeros n n_p) = Ok g ->
             grid_get g j i = col r).
  { intros col g Hg.
    destruct (fill_column_get col tbl n n_p (seq 0 n_p) _ g Hg
                (np_zeros_wide n n_p)) as (_ & _ & Hget).
    - unfold np_zeros. apply repeat_length.
    - exact Hall.
    - rewrite Hget by exact Hj. rewrite existsb_seq by exact Hi.
      now apply written_row. }
  apply fill_loop_columns in Hloop. simpl in Hloop.
  destruct Hloop as (G2 & G3 & G4 & G5 & G6 & G7 & G8 & G9).
  rewrite Hf in Hd. simpl in Hd.
  repeat match type of Hd with
         | (if ?b then _ else _) = _ =>
             destruct b; [injection Hd as <-; simpl; now apply Hcol|]
         end.
  discriminate.
Qed.

(** ** Bounds of an axis *)

Lemma increasing_above_head (x : Q) (l : list Q) :
  increasing (x :: l) -> Forall (fun y => x < y) l.
Proof.
  revert x. induction l as [|y l IH]; intros x H; constructor.
  - apply H.
  - destruct H as [Hxy Hl]. specialize (IH y Hl).
    apply Forall_forall. intros z Hz. rewrite Forall_forall in IH.
    specialize (IH z Hz). lra.
Qed.

Lemma np_max_increasing (l : list Q) :
  increasing l -> l <> [] -> np_max l = Ok (last l 0).
Proof.
  destruct l as [|x l]; [congruence|]. intros H _. unfold np_max. f_equal.
  revert x H. induction l as [|y l IH]; intros x H; [reflexivity|].
  simpl fold_left. destruct H as [Hxy Hl].
  assert (E : Qle_bool x y = true) by (apply Qle_bool_iff; lra).
  rewrite E. rewrite (IH y Hl). reflexivity.
Qed.

Lemma np_min_increasing (l : list Q) :
  increasing l -> l <> [] -> np_min l = Ok (hd 0 l).
Proof.
  destruct l as [|x l]; [congruence|]. intros H _. unfold np_min. f_equal.
  apply increasing_above_head in H. simpl hd.
  induction H as [|y l Hy _ IH]; [reflexivity|].
  simpl fold_left.
  assert (E : Qle_bool y x = false).
  { destruct (Qle_bool y x) eqn:E; [|reflexivity].
    apply Qle_bool_iff in E. lra. }
  rewrite E. exact IH.
Qed.

Lemma _check_bounds_spec (input check : list Q) (TP : string) (mx mn : Q) :
  np_max check = Ok mx -> np_min check = Ok mn ->
  _check_bounds input check TP
  = Ok ((if existsb (fun x => Qltb mx x) input then [exceeds_msg TP] else [])
        ++ (if existsb (fun x => Qltb x mn) input then [below_msg TP]
            else [])).
Proof.
  intros Hmx Hmn. unfold _check_bounds. rewrite Hmx, Hmn. reflexivity.
Qed.

(** ** The loop of [interp_points] *)

Lemma mapM_ext {A B : Type} (f h : A -> Exc B) (l : list A) :
  (forall x, f x = h x) -> mapM f l = mapM h l.
Proof.
  intros H. induction l as [|x l IH]; simpl; [reflexivity|].
  now rewrite H, IH.
Qed.

Lemma mapM_seq_shift {B : Type} (f : nat -> Exc B) (start n : nat) :
  mapM f (seq (S start) n) = mapM (fun i => f (S i)) (seq start n).
Proof.
  revert start. induction n as [|n IH]; intros start; simpl; [reflexivity|].
  now rewrite IH.
Qed.

(** The loop reads [temps[i]] for every index of [press]: it ends in
    [IndexError] when [temps] is shorter, and otherwise pairs the two
    sequences up to the length of [press]. *)
Lemma points_loop (g : Interp2d) (press temps : list Q) :
  mapM (fun i => p <- index press i ;; t <- index temps i ;;
                 Ok (eval g p t))
       (seq 0 (length press))
  = if (length press <=? length temps)%nat
    then Ok (points g press temps) else Raise IndexError.
Proof.
  revert temps. induction press as [|p press IH]; intros temps.
  - reflexivity.
  - simpl length. simpl seq. simpl mapM.
    destruct temps as [|t temps]; [reflexivity|].
    unfold index at 1 2. simpl nth_error. simpl bind.
    rewrite mapM_seq_shift.
    rewrite (mapM_ext _ (fun i => p0 <- index press i ;;
                                  t0 <- index temps i ;;
                                  Ok (eval g p0 t0))) by reflexivity.
    rewrite IH. simpl length.
    change (S (length press) <=? S (length temps))%nat
      with (length press <=? length temps)%nat.
    destruct (length press <=? length temps)%nat; reflexivity.
Qed.

(** ** The two queries on a constructed table *)

Lemma lut_axes (tbl : RawTable) (lut : SeismicLookupTable) :
  init tbl = Ok lut ->
  increasing (pres lut) /\ increasing (temp lut)
  /\ (2 <= length (pres lut))%nat /\ (2 <= length (temp lut))%nat
  /\ p_max lut = last (pres lut) 0 /\ p_min lut = hd 0 (pres lut)
  /\ t_max lut = last (temp lut) 0 /\ t_min lut = hd 0 (temp lut).
Proof.
  intros H. destruct (init_inv tbl lut H) as (Hb & Lp & Lt).
  destruct (build_grids_inv tbl lut Hb)
    as (_ & Ep & Et & _ & _ & _ & M1 & M2 & M3 & M4 & _).
  assert (Ip : increasing (pres lut))
    by (rewrite Ep; apply np_unique_increasing).
  assert (It : increasing (temp lut))
    by (rewrite Et; apply np_unique_increasing).
  assert (Np : pres lut <> []) by (destruct (pres lut); simpl in *; [lia|easy]).
  assert (Nt : temp lut <> []) by (destruct (temp lut); simpl in *; [lia|easy]).
  rewrite (np_max_increasing _ It Nt) in M1.
  rewrite (np_min_increasing _ It Nt) in M2.
  rewrite (np_max_increasing _ Ip Np) in M3.
  rewrite (np_min_increasing _ Ip Np) in M4.
  repeat split; try assumption; congruence.
Qed.

Lemma insert_sorted_not_nil (x : Q) (l : list Q) : insert_sorted x l <> [].
Proof. destruct l; simpl; [|destruct (Qle_bool x q)]; discriminate. Qed.

Lemma np_sort_not_nil (l : list Q) : l <> [] -> np_sort l <> [].
Proof.
  destruct l as [|x l]; [congruence|]. intros _. simpl.
  apply insert_sorted_not_nil.
Qed.

(** A call of the interpolant on two arrays that are not empty returns;
    on an empty array it raises. *)
Lemma call_regridded (g : Interp2d) (press temps : list Q) :
  press <> [] -> temps <> [] ->
  call g press temps = Ok (regridded g press temps).
Proof.
  intros Hp Ht. unfold call, regridded.
  pose proof (np_sort_not_nil press Hp) as Sp.
  pose proof (np_sort_not_nil temps Ht) as St.
  destruct (np_sort press) as [|p ps]; [congruence|].
  destruct (np_sort temps) as [|t [|t' ts]]; [congruence| |]; reflexivity.
Qed.

Lemma call_empty (g : Interp2d) (press temps : list Q) :
  press = [] \/ temps = [] -> call g press temps = Raise ValueError.
Proof.
  intros [->| ->]; unfold call; simpl; [reflexivity|].
  destruct (np_sort press); reflexivity.
Qed.

Lemma queries_spec (tbl : RawTable) (lut : SeismicLookupTable)
    (press temps : list Q) (name : string) (fld : Field) :
  init tbl = Ok lut -> dict_get (fields lut) (lower name) = Ok fld ->
  let g := mkInterp2d (pres lut) (temp lut) (f_grid fld) in
  interp_grid lut press temps name
  = (query_lines lut press temps, call g press temps)
  /\ interp_points lut press temps name
     = (query_lines lut press temps,
        if (length press <=? length temps)%nat
        then Ok (points g press temps) else Raise IndexError).
Proof.
  intros H Hd g. destruct (init_inv tbl lut H) as (Hb & Lp & Lt).
  destruct (build_grids_inv tbl lut Hb)
    as (_ & _ & _ & _ & _ & _ & M1 & M2 & M3 & M4 & _).
  unfold interp_grid, interp_points, checked.
  rewrite (_check_bounds_spec press _ "pressure" _ _ M3 M4).
  rewrite (_check_bounds_spec temps _ "temperature" _ _ M1 M2).
  rewrite Hd. simpl bind. unfold interp2d.
  apply Nat.leb_le in Lp, Lt. rewrite Lp, Lt. simpl bind.
  split; [reflexivity|]. now rewrite points_loop.
Qed.

Lemma points_nth (g : Interp2d) (press temps : list Q) (i : nat) (p t : Q) :
  nth_error press i = Some p -> nth_error temps i = Some t ->
  nth_error (points g press temps) i = Some (eval g p t).
Proof.
  revert temps i. induction press as [|p0 press IH]; intros temps i Hp Ht.
  - destruct i; discriminate.
  - destruct temps as [|t0 temps]; [destruct i; discriminate|].
    destruct i as [|i]; simpl in *.
    + now injection Hp as ->; injection Ht as ->.
    + now apply IH.
Qed.

(** C8, as the code has it: [interp_points] compares no lengths and knows
    no [DimensionMismatchError].  On a constructed table and a known field
    it ends in [IndexError] when [temps] is shorter than [press]; when
    [temps] is at least as long, also when it is longer, it returns an
    array as long as [press] whose [i]-th entry is the interpolated value
    at [(press[i], temps[i])]. *)
Theorem C8_interp_points_lengths (tbl : RawTable) (lut : SeismicLookupTable)
    (press temps : list Q) (name : string) (fld : Field) :
  init tbl = Ok lut -> dict_get (fields lut) (lower name) = Ok fld ->
  ((length temps < length press)%nat ->
   snd (interp_points lut press temps name) = Raise IndexError)
  /\ ((length press <= length temps)%nat ->
      exists out,
        snd (interp_points lut press temps name) = Ok out
        /\ length out = length press
        /\ forall i p t,
             nth_error press i = Some p -> nth_error temps i = Some t ->
             nth_error out i
             = Some (eval (mkInterp2d (pres lut) (temp lut) (f_grid fld))
                          p t)).
Proof.
  intros H Hd.
  destruct (queries_spec tbl lut press temps name fld H Hd) as [_ E].
  rewrite E. simpl snd. split; intros Hlen.
  - destruct (Nat.leb_spec (length press) (length temps)); [lia|reflexivity].
  - destruct (Nat.leb_spec (length press) (length temps)); [|lia].
    eexists. split; [reflexivity|]. split.
    + unfold points. rewrite length_map, length_combine. lia.
    + intros i p t. apply points_nth.
Qed.

(** C8 as stated fails: one pressure and two temperatures are sequences of
    unequal length, and the query returns the value at the first pair. *)
Lemma C8_unequal_lengths_accepted :
  exists lut v,
    init docstring_table = Ok lut
    /\ interp_points lut [0] [500; 1000] "Vs" = ([], Ok [v])
    /\ v == 11.
Proof.
  do 2 eexists. split; [vm_compute; reflexivity|].
  split; [vm_compute; reflexivity|]. reflexivity.
Qed.

Lemma C8_interp_points_lengths_witness :
  exists lut fld,
    init docstring_table = Ok lut
    /\ dict_get (fields lut) (lower "Vs") = Ok fld
    /\ ((length sample_temps < length sample_press)%nat ->
        snd (interp_points lut sample_press sample_temps "Vs")
        = Raise IndexError)
    /\ ((length sample_press <= length sample_temps)%nat ->
        exists out,
          snd (interp_points lut sample_press sample_temps "Vs") = Ok out
          /\ length out = length sample_press
          /\ forall i p t,
               nth_error sample_press i = Some p ->
               nth_error sample_temps i = Some t ->
               nth_error out i
               = Some (eval (mkInterp2d (pres lut) (temp lut) (f_grid fld))
                            p t)).
Proof.
  do 2 eexists. split; [vm_compute; reflexivity|].
  split; [vm_compute; reflexivity|].
  apply (C8_interp_points_lengths docstring_table); vm_compute; reflexivity.
Defined.

Lemma bounds_lines_inside (TP : string) (mx mn x : Q) :
  mn <= x -> x <= mx -> bounds_lines TP mx mn [x] = [].
Proof.
  intros H1 H2. unfold bounds_lines. simpl.
  rewrite (proj2 (Qltb_ge mx x) H2), (proj2 (Qltb_ge x mn) H1). reflexivity.
Qed.

(** C7: on a constructed table, for every field and every grid node
    [(pres[i], temp[j])], [interp_points([pres[i]], [temp[j]], field)]
    prints nothing and returns the one value [FieldGrid[j, i]], which is
    the field's column of table row [i * pstep + j]. *)
Theorem C7_interp_points_at_node (tbl : RawTable) (lut : SeismicLookupTable)
    (name : string) (fld : Field) (i j : nat) :
  init tbl = Ok lut -> dict_get (fields lut) (lower name) = Ok fld ->
  (i < n_uniq_p lut)%nat -> (j < n_uniq_t lut)%nat ->
  exists v,
    interp_points lut [nth i (pres lut) 0] [nth j (temp lut) 0] name
    = ([], Ok [v])
    /\ v == grid_get (f_grid fld) j i
    /\ forall r,
         nth_error (table lut) (i * pstep lut + j) = Some r ->
         grid_get (f_grid fld) j i = get_column (f_index fld) r.
Proof.
  intros H Hd Hi Hj.
  destruct (lut_axes tbl lut H)
    as (Ip & It & Lp & Lt & Epx & Epn & Etx & Etn).
  destruct (init_inv tbl lut H) as (Hb & _ & _).
  destruct (build_grids_inv tbl lut Hb)
    as (Etbl & _ & _ & Enp & Ent & Eps & _).
  rewrite Enp in Hi. rewrite Ent in Hj.
  destruct (queries_spec tbl lut [nth i (pres lut) 0] [nth j (temp lut) 0]
              name fld H Hd) as [_ E].
  eexists. split; [|split].
  - rewrite E. unfold query_lines.
    rewrite bounds_lines_inside, bounds_lines_inside.
    + reflexivity.
    + rewrite Etn. now apply increasing_from_head.
    + rewrite Etx. now apply increasing_to_last.
    + rewrite Epn. now apply increasing_from_head.
    + rewrite Epx. now apply increasing_to_last.
  - apply (eval_knot (mkInterp2d (pres lut) (temp lut) (f_grid fld)) i j);
      assumption.
  - intros r Hr. rewrite Etbl, Eps in Hr.
    now apply (field_grid_value tbl lut (lower name) fld i j r).
Qed.

Lemma C7_interp_points_at_node_witness :
  exists lut fld v,
    init docstring_table = Ok lut
    /\ dict_get (fields lut) (lower "Density") = Ok fld
    /\ interp_points lut [nth 1 (pres lut) 0] [nth 2 (temp lut) 0] "Density"
       = ([], Ok [v])
    /\ v == grid_get (f_grid fld) 2 1
    /\ forall r,
         nth_error (table lut) (1 * pstep lut + 2) = Some r ->
         grid_get (f_grid fld) 2 1 = get_column (f_index fld) r.
Proof.
  destruct (init docstring_table) as [lut|] eqn:Hi;
    [|vm_compute in Hi; discriminate].
  pose proof Hi as Hc. vm_compute in Hc. injection Hc as Hc.
  destruct (dict_get (fields lut) (lower "Density")) as [fld|] eqn:Hd;
    [|rewrite <- Hc in Hd; vm_compute in Hd; discriminate].
  destruct (C7_interp_points_at_node docstring_table lut "Density" fld 1 2
              Hi Hd) as (v & Hv).
  - rewrite <- Hc. vm_compute. lia.
  - rewrite <- Hc. vm_compute. lia.
  - exists lut, fld, v. split; [reflexivity|]. split; [exact Hd|]. exact Hv.
Defined.

(** ** Queries outside the table *)

Lemma messages_distinct :
  exceeds_msg "pressure" <> below_msg "pressure"
  /\ exceeds_msg "pressure" <> exceeds_msg "temperature"
  /\ exceeds_msg "pressure" <> below_msg "temperature"
  /\ below_msg "pressure" <> exceeds_msg "temperature"
  /\ below_msg "pressure" <> below_msg "temperature"
  /\ exceeds_msg "temperature" <> below_msg "temperature".
Proof.
  repeat split; intros E; vm_compute in E; discriminate E.
Qed.

Lemma some_above (mx : Q) (input : list Q) :
  existsb (fun x => Qltb mx x) input = true <->
  exists x, In x input /\ mx < x.
Proof.
  rewrite existsb_exists. split; intros (x & Hin & H); exists x;
    (split; [exact Hin|]); now apply Qltb_lt.
Qed.

Lemma some_below (mn : Q) (input : list Q) :
  existsb (fun x => Qltb x mn) input = true <->
  exists x, In x input /\ x < mn.
Proof.
  rewrite existsb_exists. split; intros (x & Hin & H); exists x;
    (split; [exact Hin|]); now apply Qltb_lt.
Qed.

(** Each of the four lines is printed exactly when its own violation
    occurs. *)
Lemma query_lines_in (lut : SeismicLookupTable) (press temps : list Q) :
  (In (exceeds_msg "pressure") (query_lines lut press temps) <->
   exists p, In p press /\ p_max lut < p)
  /\ (In (below_msg "pressure") (query_lines lut press temps) <->
      exists p, In p press /\ p < p_min lut)
  /\ (In (exceeds_msg "temperature") (query_lines lut press temps) <->
      exists t, In t temps /\ t_max lut < t)
  /\ (In (below_msg "temperature") (query_lines lut press temps) <->
      exists t, In t temps /\ t < t_min lut).
Proof.
  destruct messages_distinct as (D1 & D2 & D3 & D4 & D5 & D6).
  rewrite <- !some_above, <- !some_below.
  unfold query_lines, bounds_lines.
  destruct (existsb (fun x => Qltb (p_max lut) x) press);
    destruct (existsb (fun x => Qltb x (p_min lut)) press);
    destruct (existsb (fun x => Qltb (t_max lut) x) temps);
    destruct (existsb (fun x => Qltb x (t_min lut)) temps);
    simpl; repeat split; intros H; auto;
    repeat match goal with
           | H : _ \/ _ |- _ => destruct H as [H|H]
           | H : False |- _ => destruct H
           end;
    try discriminate; try (symmetry in H; contradiction); contradiction.
Qed.

Lemma clamp_above (tb te x : Q) : tb <= te -> te < x -> clamp tb te x = te.
Proof.
  intros H1 H2. unfold clamp.
  rewrite (proj2 (Qltb_ge x tb)) by lra.
  now rewrite (proj2 (Qltb_lt te x)).
Qed.

Lemma clamp_below (tb te x : Q) : tb <= te -> x < tb -> clamp tb te x = tb.
Proof.
  intros H1 H2. unfold clamp.
  rewrite (proj2 (Qltb_lt x tb)) by exact H2.
  now rewrite (proj2 (Qltb_ge te tb)).
Qed.

Lemma increasing_ends (l : list Q) :
  increasing l -> (1 <= length l)%nat -> hd 0 l <= last l 0.
Proof.
  intros H L. pose proof (increasing_to_last l 0 H ltac:(lia)) as E.
  destruct l; simpl in *; [lia|exact E].
Qed.

(** C6, as the code has it: on a constructed table and a known field, a
    query with inputs outside the sampled range prints one line per
    violated bound - pressure too high, pressure too low, temperature too
    high, temperature too low, each exactly when some input violates that
    bound.  After the lines, [interp_grid] returns the interpolant when
    neither array is empty, and ends in scipy's [ValueError] when one is;
    [interp_points] returns the interpolant when there are at least as
    many temperatures as pressures.  The value of the interpolant at any
    point is its value at the point clamped to the axis range: above the
    range the maximum of the axis is used, below it the minimum. *)
Theorem C6_out_of_range_warns_and_clamps
    (tbl : RawTable) (lut : SeismicLookupTable)
    (press temps : list Q) (name : string) (fld : Field) :
  init tbl = Ok lut -> dict_get (fields lut) (lower name) = Ok fld ->
  let g := mkInterp2d (pres lut) (temp lut) (f_grid fld) in
  let clamp_p := clamp (p_min lut) (p_max lut) in
  let clamp_t := clamp (t_min lut) (t_max lut) in
  (fst (interp_grid lut press temps name) = query_lines lut press temps
   /\ fst (interp_points lut press temps name) = query_lines lut press temps)
  /\ ((In (exceeds_msg "pressure") (query_lines lut press temps) <->
       exists p, In p press /\ p_max lut < p)
      /\ (In (below_msg "pressure") (query_lines lut press temps) <->
          exists p, In p press /\ p < p_min lut)
      /\ (In (exceeds_msg "temperature") (query_lines lut press temps) <->
          exists t, In t temps /\ t_max lut < t)
      /\ (In (below_msg "temperature") (query_lines lut press temps) <->
          exists t, In t temps /\ t < t_min lut))
  /\ ((press <> [] -> temps <> [] ->
       snd (interp_grid lut press temps name)
       = Ok (regridded g press temps))
      /\ (press = [] \/ temps = [] ->
          snd (interp_grid lut press temps name) = Raise ValueError))
  /\ ((length press <= length temps)%nat ->
      snd (interp_points lut press temps name) = Ok (points g press temps))
  /\ (forall p t, eval g p t = eval g (clamp_p p) (clamp_t t))
  /\ (forall p, p_max lut < p -> clamp_p p = p_max lut)
  /\ (forall p, p < p_min lut -> clamp_p p = p_min lut)
  /\ (forall t, t_max lut < t -> clamp_t t = t_max lut)
  /\ (forall t, t < t_min lut -> clamp_t t = t_min lut).
Proof.
  intros H Hd g clamp_p clamp_t.
  destruct (lut_axes tbl lut H)
    as (Ip & It & Lp & Lt & Epx & Epn & Etx & Etn).
  destruct (queries_spec tbl lut press temps name fld H Hd) as [Eg Ep].
  fold g in Eg, Ep.
  assert (Bp : p_min lut <= p_max lut)
    by (rewrite Epn, Epx; apply increasing_ends; [exact Ip|lia]).
  assert (Bt : t_min lut <= t_max lut)
    by (rewrite Etn, Etx; apply increasing_ends; [exact It|lia]).
  split; [now rewrite Eg, Ep|].
  split; [apply query_lines_in|].
  split.
  { rewrite Eg. simpl snd. split.
    - intros Np Nt. now apply call_regridded.
    - intros He. now apply call_empty. }
  split.
  { intros Hlen. rewrite Ep. simpl snd.
    destruct (Nat.leb_spec (length press) (length temps)); [reflexivity|lia]. }
  split.
  { intros p t. subst clamp_p clamp_t. rewrite Epn, Epx, Etn, Etx.
    apply (eval_clamps g p t); simpl;
      apply increasing_ends; assumption || lia. }
  subst clamp_p clamp_t.
  repeat split; intros x Hx;
    (now apply clamp_above) || (now apply clamp_below).
Qed.

(** C6 as stated fails: on the docstring's table, [interp_grid] with a
    pressure above the table and no temperature prints the line for the
    pressure and then ends in [ValueError]; [interp_points] with that
    pressure and no temperature prints the line and ends in
    [IndexError]. *)
Lemma C6_empty_temperatures_raise :
  exists lut,
    init docstring_table = Ok lut
    /\ interp_grid lut far_press [] "Vp"
       = ([exceeds_msg "pressure"], Raise ValueError)
    /\ interp_points lut far_press [] "Vp"
       = ([exceeds_msg "pressure"], Raise IndexError).
Proof.
  eexists. split; [vm_compute; reflexivity|].
  split; vm_compute; reflexivity.
Qed.

Lemma C6_out_of_range_warns_and_clamps_witness :
  exists lut fld,
    init docstring_table = Ok lut
    /\ dict_get (fields lut) (lower "Vp") = Ok fld
    /\ fst (interp_points lut far_press far_temps "Vp")
       = [exceeds_msg "pressure"; below_msg "temperature"]
    /\ snd (interp_points lut far_press far_temps "Vp")
       = Ok (points (mkInterp2d (pres lut) (temp lut) (f_grid fld))
                    far_press far_temps)
    /\ snd (interp_grid lut far_press far_temps "Vp")
       = Ok (regridded (mkInterp2d (pres lut) (temp lut) (f_grid fld))
                       far_press far_temps)
    /\ forall p t,
         eval (mkInterp2d (pres lut) (temp lut) (f_grid fld)) p t
         = eval (mkInterp2d (pres lut) (temp lut) (f_grid fld))
                (clamp (p_min lut) (p_max lut) p)
                (clamp (t_min lut) (t_max lut) t).
Proof.
  destruct (init docstring_table) as [lut|] eqn:Hi;
    [|vm_compute in Hi; discriminate].
  pose proof Hi as Hc. vm_compute in Hc. injection Hc as Hc.
  destruct (dict_get (fields lut) (lower "Vp")) as [fld|] eqn:Hd;
    [|rewrite <- Hc in Hd; vm_compute in Hd; discriminate].
  destruct (C6_out_of_range_warns_and_clamps docstring_table lut
              far_press far_temps "Vp" fld Hi Hd)
    as ((_ & Hlines) & _ & (Hgrid & _) & Hpoints & Hclamp & _).
  exists lut, fld. split; [reflexivity|]. split; [exact Hd|].
  split; [rewrite Hlines, <- Hc; vm_compute; reflexivity|].
  split; [apply Hpoints; simpl; lia|].
  split; [apply Hgrid; discriminate|exact Hclamp].
Defined.

(** ** Unknown fields and silent queries *)

Lemma dict_get_known {V : Type} (d : list (string * V)) (key : string) :
  In key (map fst d) -> exists v, dict_get d key = Ok v.
Proof.
  induction d as [|[k v] d IH]; simpl; [tauto|].
  intros [->|H].
  - rewrite String.eqb_refl. eauto.
  - destruct (String.eqb k key); eauto.
Qed.

Lemma dict_get_unknown {V : Type} (d : list (string * V)) (key : string) :
  ~ In key (map fst d) -> dict_get d key = Raise KeyError.
Proof.
  induction d as [|[k v] d IH]; simpl; [reflexivity|].
  intros H. destruct (String.eqb_spec k key) as [->|_]; [tauto|].
  apply IH. tauto.
Qed.

(** On a constructed table the bounds check of a query goes through and
    prints the query's lines, whatever follows it. *)
Lemma checked_spec {A : Type} (tbl : RawTable) (lut : SeismicLookupTable)
    (press temps : list Q) (k : Exc A) :
  init tbl = Ok lut ->
  checked lut press temps k = (query_lines lut press temps, k).
Proof.
  intros H. destruct (init_inv tbl lut H) as (Hb & _ & _).
  destruct (build_grids_inv tbl lut Hb)
    as (_ & _ & _ & _ & _ & _ & M1 & M2 & M3 & M4 & _).
  unfold checked.
  rewrite (_check_bounds_spec press _ "pressure" _ _ M3 M4).
  rewrite (_check_bounds_spec temps _ "temperature" _ _ M1 M2).
  reflexivity.
Qed.

(** X1: on a constructed table, a field name is known exactly when its
    lowercase is one of the eight keys; for any other name [interp_grid]
    and [interp_points] print their bounds lines and end in [KeyError]. *)
Theorem X1_unknown_field_raises_KeyError
    (tbl : RawTable) (lut : SeismicLookupTable)
    (press temps : list Q) (name : string) :
  init tbl = Ok lut ->
  (In (lower name) field_names ->
   exists fld, dict_get (fields lut) (lower name) = Ok fld)
  /\ (~ In (lower name) field_names ->
      interp_grid lut press temps name
      = (query_lines lut press temps, Raise KeyError)
      /\ interp_points lut press temps name
         = (query_lines lut press temps, Raise KeyError)).
Proof.
  intros H. destruct (init_inv tbl lut H) as (Hb & _ & _).
  pose proof (build_grids_keys tbl lut Hb) as Hk. fold field_names in Hk.
  split; intros Hin.
  - apply dict_get_known. now rewrite Hk.
  - unfold interp_grid, interp_points.
    rewrite !(checked_spec tbl lut) by exact H.
    rewrite dict_get_unknown by now rewrite Hk.
    split; reflexivity.
Qed.

Lemma X1_unknown_field_raises_KeyError_witness :
  exists lut,
    init docstring_table = Ok lut
    /\ (exists fld, dict_get (fields lut) (lower "T_sol") = Ok fld)
    /\ interp_points lut sample_press sample_temps "rho"
       = (query_lines lut sample_press sample_temps, Raise KeyError).
Proof.
  destruct (init docstring_table) as [lut|] eqn:E;
    [|vm_compute in E; discriminate].
  destruct (X1_unknown_field_raises_KeyError docstring_table lut
              sample_press sample_temps "T_sol" E) as [Hknown _].
  destruct (X1_unknown_field_raises_KeyError docstring_table lut
              sample_press sample_temps "rho" E) as [_ Hunknown].
  exists lut. split; [reflexivity|]. split.
  - apply Hknown. vm_compute. tauto.
  - apply Hunknown. vm_compute.
    intros H.
    repeat match type of H with
           | _ \/ _ => destruct H as [H|H]; [discriminate H|]
           end.
    exact H.
Defined.

Lemma existsb_none {A : Type} (f : A -> bool) (l : list A) :
  existsb f l = false <-> Forall (fun x => f x = false) l.
Proof.
  induction l as [|x l IH]; simpl.
  - split; [constructor|reflexivity].
  - rewrite orb_false_iff, IH, Forall_cons_iff. tauto.
Qed.

Lemma bounds_lines_nil (TP : string) (mx mn : Q) (input : list Q) :
  bounds_lines TP mx mn input = [] <-> Forall (within mn mx) input.
Proof.
  unfold bounds_lines, within.
  assert (E : Forall (fun x => mn <= x /\ x <= mx) input <->
              existsb (fun y => Qltb mx y) input = false
              /\ existsb (fun y => Qltb y mn) input = false).
  { rewrite !existsb_none, !Forall_forall. split.
    - intros H. split; intros x Hx; apply Qltb_ge; now apply H.
    - intros [H1 H2] x Hx. split; apply Qltb_ge; auto. }
  rewrite E.
  destruct (existsb (fun y => Qltb mx y) input);
    destruct (existsb (fun y => Qltb y mn) input); simpl;
    split; try discriminate; try tauto; intros [? ?]; discriminate.
Qed.

(** X2: on a constructed table a query prints nothing exactly when every
    pressure lies within [p_min, p_max] and every temperature within
    [t_min, t_max]; the field name plays no part in what is printed. *)
Theorem X2_queries_in_range_are_silent
    (tbl : RawTable) (lut : SeismicLookupTable)
    (press temps : list Q) (name : string) :
  init tbl = Ok lut ->
  fst (interp_grid lut press temps name)
  = fst (interp_points lut press temps name)
  /\ (fst (interp_points lut press temps name) = [] <->
      Forall (within (p_min lut) (p_max lut)) press
      /\ Forall (within (t_min lut) (t_max lut)) temps).
Proof.
  intros H. unfold interp_grid, interp_points.
  rewrite !(checked_spec tbl lut) by exact H. simpl fst.
  split; [reflexivity|]. unfold query_lines.
  rewrite <- !bounds_lines_nil. split.
  - intros E. apply app_eq_nil in E. exact E.
  - intros [-> ->]. reflexivity.
Qed.

Lemma X2_queries_in_range_are_silent_witness :
  exists lut,
    init docstring_table = Ok lut
    /\ fst (interp_points lut sample_press sample_temps "vp") = [].
Proof.
  destruct (init docstring_table) as [lut|] eqn:E;
    [|vm_compute in E; discriminate].
  exists lut. split; [reflexivity|].
  apply (X2_queries_in_range_are_silent docstring_table lut
           sample_press sample_temps "vp" E).
  pose proof E as Hc. vm_compute in Hc. injection Hc as <-.
  split; repeat constructor; vm_compute; discriminate.
Defined.

(** X3: on a constructed table and a known field, the two queries agree
    at a single point, inside the table or outside it: [interp_grid] on
    one pressure and one temperature returns the 1-D array of the one
    value that [interp_points] returns. *)
Theorem X3_grid_and_points_agree_at_one_point
    (tbl : RawTable) (lut : SeismicLookupTable)
    (p t : Q) (name : string) (fld : Field) :
  init tbl = Ok lut -> dict_get (fields lut) (lower name) = Ok fld ->
  exists v,
    interp_grid lut [p] [t] name = (query_lines lut [p] [t], Ok (Arr1 [v]))
    /\ interp_points lut [p] [t] name = (query_lines lut [p] [t], Ok [v]).
Proof.
  intros H Hd.
  destruct (queries_spec tbl lut [p] [t] name fld H Hd) as [Eg Ep].
  eexists. split; [exact Eg|exact Ep].
Qed.

Lemma X3_grid_and_points_agree_at_one_point_witness :
  exists lut v,
    init docstring_table = Ok lut
    /\ interp_grid lut [50000000] [750] "Vphi"
       = (query_lines lut [50000000] [750], Ok (Arr1 [v]))
    /\ interp_points lut [50000000] [750] "Vphi"
       = (query_lines lut [50000000] [750], Ok [v]).
Proof.
  destruct (init docstring_table) as [lut|] eqn:E;
    [|vm_compute in E; discriminate].
  pose proof E as Hc. vm_compute in Hc. injection Hc as Hc.
  destruct (dict_get (fields lut) (lower "Vphi")) as [fld|] eqn:Hd;
    [|rewrite <- Hc in Hd; vm_compute in Hd; discriminate].
  destruct (X3_grid_and_points_agree_at_one_point docstring_table lut
              50000000 750 "Vphi" fld E Hd) as (v & Hv).
  exists lut, v. split; [reflexivity|exact Hv].
Defined.

(** ** Regridding *)

Lemma np_sort_increasing (l : list Q) : increasing l -> np_sort l = l.
Proof.
  induction l as [|x l IH]; intros H; [reflexivity|].
  simpl. rewrite IH by (eapply increasing_tail; exact H).
  destruct l as [|y l]; [reflexivity|].
  simpl. destruct H as [Hxy _].
  assert (E : Qle_bool x y = true) by (apply Qle_bool_iff; lra).
  now rewrite E.
Qed.

Lemma increasing_within (l : list Q) :
  increasing l -> Forall (within (hd 0 l) (last l 0)) l.
Proof.
  intros H. apply Forall_forall. intros x Hx.
  destruct (In_nth l x 0 Hx) as (k & Hk & <-). split.
  - now apply increasing_from_head.
  - now apply increasing_to_last.
Qed.

(** X4: on a constructed table and a known field, regridding onto the
    table's own axes prints nothing and returns the field's grid: an
    array of [n_uniq_t] rows of [n_uniq_p] entries whose entry [j, i]
    equals [FieldGrid[j, i]]. *)
Theorem X4_regridding_onto_own_axes_returns_the_grid
    (tbl : RawTable) (lut : SeismicLookupTable)
    (name : string) (fld : Field) :
  init tbl = Ok lut -> dict_get (fields lut) (lower name) = Ok fld ->
  exists m,
    interp_grid lut (pres lut) (temp lut) name = ([], Ok (Arr2 m))
    /\ length m = n_uniq_t lut
    /\ forall j, (j < n_uniq_t lut)%nat ->
         length (nth j m []) = n_uniq_p lut
         /\ forall i, (i < n_uniq_p lut)%nat ->
              nth i (nth j m []) 0 == grid_get (f_grid fld) j i.
Proof.
  intros H Hd.
  destruct (lut_axes tbl lut H)
    as (Ip & It & Lp & Lt & Epx & Epn & Etx & Etn).
  destruct (init_inv tbl lut H) as (Hb & _ & _).
  destruct (build_grids_inv tbl lut Hb) as (_ & _ & _ & Enp & Ent & _).
  destruct (queries_spec tbl lut (pres lut) (temp lut) name fld H Hd)
    as [Eg _].
  set (g := mkInterp2d (pres lut) (temp lut) (f_grid fld)) in *.
  exists (map (fun yj => map (fun xi => eval g xi yj) (pres lut)) (temp lut)).
  split; [|split].
  - rewrite Eg. f_equal.
    + unfold query_lines.
      rewrite (proj2 (bounds_lines_nil _ _ _ _)),
        (proj2 (bounds_lines_nil _ _ _ _)).
      * reflexivity.
      * rewrite Etx, Etn. now apply increasing_within.
      * rewrite Epx, Epn. now apply increasing_within.
    + rewrite call_regridded;
        [|intros E; rewrite E in Lp; simpl in Lp; lia
         |intros E; rewrite E in Lt; simpl in Lt; lia].
      unfold regridded. rewrite !np_sort_increasing by assumption.
      destruct (temp lut) as [|a [|b rest]]; simpl in Lt; try lia.
      reflexivity.
  - now rewrite length_map, Ent.
  - intros j Hj. rewrite Ent in Hj.
    rewrite (nth_map_in _ _ j 0) by exact Hj. split.
    + now rewrite length_map, Enp.
    + intros i Hi. rewrite Enp in Hi.
      rewrite (nth_map_in _ _ i 0) by exact Hi.
      apply (eval_knot g i j); assumption.
Qed.

Lemma X4_regridding_onto_own_axes_returns_the_grid_witness :
  exists lut fld m,
    init docstring_table = Ok lut
    /\ dict_get (fields lut) (lower "Qs") = Ok fld
    /\ interp_grid lut (pres lut) (temp lut) "Qs" = ([], Ok (Arr2 m))
    /\ length m = n_uniq_t lut
    /\ forall j, (j < n_uniq_t lut)%nat ->
         length (nth j m []) = n_uniq_p lut
         /\ forall i, (i < n_uniq_p lut)%nat ->
              nth i (nth j m []) 0 == grid_get (f_grid fld) j i.
Proof.
  destruct (init docstring_table) as [lut|] eqn:E;
    [|vm_compute in E; discriminate].
  pose proof E as Hc. vm_compute in Hc. injection Hc as Hc.
  destruct (dict_get (fields lut) (lower "Qs")) as [fld|] eqn:Hd;
    [|rewrite <- Hc in Hd; vm_compute in Hd; discriminate].
  destruct (X4_regridding_onto_own_axes_returns_the_grid docstring_table lut
              "Qs" fld E Hd) as (m & Hm).
  exists lut, fld, m. split; [reflexivity|]. split; [exact Hd|exact Hm].
Defined.

(** ** The interpolant stays within the grid's values *)

(** The search ends in an interval of the knots that holds the clamped
    argument. *)
Lemma locate_interval (knots : list Q) :
  forall k arg, increasing knots -> (2 <= length knots)%nat ->
  hd 0 knots <= arg -> arg <= last knots 0 ->
  exists l, locate k knots arg = (k + l)%nat
            /\ (S l < length knots)%nat
            /\ nth l knots 0 <= arg /\ arg <= nth (S l) knots 0.
Proof.
  induction knots as [|x0 knots IH]; intros k arg Hinc Hlen Hlo Hhi;
    [simpl in Hlen; lia|].
  destruct knots as [|x1 rest]; [simpl in Hlen; lia|].
  destruct rest as [|x2 rest].
  - exists 0%nat. simpl in *. repeat split; auto; lia.
  - change (locate k (x0 :: x1 :: x2 :: rest) arg)
      with (if Qltb arg x1 then k
            else locate (S k) (x1 :: x2 :: rest) arg).
    destruct (Qltb arg x1) eqn:E.
    + apply Qltb_lt in E. exists 0%nat. simpl in *.
      repeat split; auto; try lia; lra.
    + apply Qltb_ge in E.
      destruct (IH (S k) arg) as (l & El & Hl & H1 & H2);
        [apply Hinc|simpl; lia|exact E|exact Hhi|].
      exists (S l). split; [rewrite El; lia|].
      split; [simpl in *; lia|]. split; assumption.
Qed.

(** The two weights are non-negative and add up to one. *)
Lemma bspl_weights (knots : list Q) (x : Q) :
  increasing knots -> (2 <= length knots)%nat ->
  exists l h1 h2,
    bspl knots x = (l, (h1, h2))
    /\ (S l < length knots)%nat
    /\ 0 <= h1 /\ 0 <= h2 /\ h1 + h2 == 1.
Proof.
  intros Hinc Hlen. unfold bspl.
  assert (Hends : hd 0 knots <= last knots 0)
    by (apply increasing_ends; [exact Hinc|lia]).
  destruct (clamp_bounds (hd 0 knots) (last knots 0) x Hends) as [Hlo Hhi].
  set (arg := clamp (hd 0 knots) (last knots 0) x) in *.
  destruct (locate_interval knots 0 arg Hinc Hlen Hlo Hhi)
    as (l & El & Hl & H1 & H2).
  rewrite El. simpl Nat.add.
  pose proof (increasing_step knots l Hinc Hl) as Hstep.
  set (t0 := nth l knots 0) in *. set (t1 := nth (S l) knots 0) in *.
  do 3 eexists. split; [reflexivity|]. split; [exact Hl|].
  assert (Hf : 0 <= 1 / (t1 - t0)).
  { apply Qlt_le_weak. apply Qlt_shift_div_l; lra. }
  split; [apply Qmult_le_0_compat; [exact Hf|lra]|].
  split; [apply Qmult_le_0_compat; [exact Hf|lra]|].
  field. lra.
Qed.

Lemma weighted_within (lo hi a b c d w1 w2 w3 w4 : Q) :
  0 <= w1 -> 0 <= w2 -> 0 <= w3 -> 0 <= w4 -> w1 + w2 + w3 + w4 == 1 ->
  within lo hi a -> within lo hi b -> within lo hi c -> within lo hi d ->
  within lo hi (0 + a * w1 + b * w2 + c * w3 + d * w4).
Proof.
  unfold within. intros W1 W2 W3 W4 Hs [A1 A2] [B1 B2] [C1 C2] [D1 D2].
  pose proof (Qmult_le_0_compat _ _ W1 (proj1 (Qle_minus_iff lo a) A1)).
  pose proof (Qmult_le_0_compat _ _ W2 (proj1 (Qle_minus_iff lo b) B1)).
  pose proof (Qmult_le_0_compat _ _ W3 (proj1 (Qle_minus_iff lo c) C1)).
  pose proof (Qmult_le_0_compat _ _ W4 (proj1 (Qle_minus_iff lo d) D1)).
  pose proof (Qmult_le_0_compat _ _ W1 (proj1 (Qle_minus_iff a hi) A2)).
  pose proof (Qmult_le_0_compat _ _ W2 (proj1 (Qle_minus_iff b hi) B2)).
  pose proof (Qmult_le_0_compat _ _ W3 (proj1 (Qle_minus_iff c hi) C2)).
  pose proof (Qmult_le_0_compat _ _ W4 (proj1 (Qle_minus_iff d hi) D2)).
  assert (El : lo == lo * (w1 + w2 + w3 + w4)) by (rewrite Hs; ring).
  assert (Eh : hi == hi * (w1 + w2 + w3 + w4)) by (rewrite Hs; ring).
  split.
  - rewrite El. lra.
  - rewrite Eh. lra.
Qed.

(** The interpolant is a weighted mean of four grid values. *)
Lemma eval_within (g : Interp2d) (lo hi x y : Q) :
  increasing (ix g) -> increasing (iy g) ->
  (2 <= length (ix g))%nat -> (2 <= length (iy g))%nat ->
  grid_within lo hi (length (iy g)) (length (ix g)) (iz g) ->
  within lo hi (eval g x y).
Proof.
  intros Hx Hy Lx Ly Hg. unfold eval.
  destruct (bspl_weights (ix g) x Hx Lx)
    as (lx & hx1 & hx2 & -> & Hlx & X1 & X2 & Xs).
  destruct (bspl_weights (iy g) y Hy Ly)
    as (ly & hy1 & hy2 & -> & Hly & Y1 & Y2 & Ys).
  apply weighted_within; try (apply Qmult_le_0_compat; assumption);
    try (apply Hg; lia).
  setoid_replace (hx1 * hy1 + hx1 * hy2 + hx2 * hy1 + hx2 * hy2)
    with ((hx1 + hx2) * (hy1 + hy2)) by ring.
  rewrite Xs, Ys. reflexivity.
Qed.

Lemma call_within (g : Interp2d) (lo hi : Q) (press temps : list Q) :
  (forall x y, within lo hi (eval g x y)) ->
  Forall (within lo hi) (entries (regridded g press temps)).
Proof.
  intros H. unfold regridded.
  set (z := map (fun yj => map (fun xi => eval g xi yj) (np_sort press))
                (np_sort temps)).
  assert (Hz : Forall (Forall (within lo hi)) z).
  { subst z. apply Forall_forall. intros row Hrow.
    apply in_map_iff in Hrow. destruct Hrow as (yj & <- & _).
    apply Forall_forall. intros v Hv. apply in_map_iff in Hv.
    destruct Hv as (xi & <- & _). apply H. }
  destruct z as [|row [|row' z]]; simpl.
  - constructor.
  - now inversion Hz.
  - apply Forall_forall. intros v Hv.
    change (In v (concat (row :: row' :: z))) in Hv.
    apply in_concat in Hv. destruct Hv as (r & Hr & Hv).
    rewrite Forall_forall in Hz. specialize (Hz r Hr).
    rewrite Forall_forall in Hz. now apply Hz.
Qed.

(** X5: on a constructed table and a known field, interpolation never
    leaves the range of the field's grid: when every grid value lies
    within [lo] and [hi], so does every value that [interp_grid] returns
    for two arrays that are not empty, and every value that
    [interp_points] returns for at least as many temperatures as
    pressures, for queries inside the table and outside it. *)
Theorem X5_interpolated_values_stay_within_the_grid
    (tbl : RawTable) (lut : SeismicLookupTable)
    (press temps : list Q) (name : string) (fld : Field) (lo hi : Q) :
  init tbl = Ok lut -> dict_get (fields lut) (lower name) = Ok fld ->
  grid_within lo hi (n_uniq_t lut) (n_uniq_p lut) (f_grid fld) ->
  (press <> [] -> temps <> [] ->
   exists arr,
     snd (interp_grid lut press temps name) = Ok arr
     /\ Forall (within lo hi) (entries arr))
  /\ ((length press <= length temps)%nat ->
      exists out,
        snd (interp_points lut press temps name) = Ok out
        /\ Forall (within lo hi) out).
Proof.
  intros H Hd Hg.
  destruct (lut_axes tbl lut H) as (Ip & It & Lp & Lt & _).
  destruct (init_inv tbl lut H) as (Hb & _ & _).
  destruct (build_grids_inv tbl lut Hb) as (_ & _ & _ & Enp & Ent & _).
  rewrite Enp, Ent in Hg.
  destruct (queries_spec tbl lut press temps name fld H Hd) as [Eg Ep].
  set (g := mkInterp2d (pres lut) (temp lut) (f_grid fld)) in *.
  assert (He : forall x y, within lo hi (eval g x y)).
  { intros x y. apply eval_within; assumption. }
  split.
  - intros Np Nt. eexists. rewrite Eg. simpl snd.
    split; [now apply call_regridded|]. now apply call_within.
  - intros Hlen. rewrite Ep. simpl snd.
    destruct (Nat.leb_spec (length press) (length temps)); [|lia].
    eexists. split; [reflexivity|].
    unfold points. apply Forall_forall. intros v Hv.
    apply in_map_iff in Hv. destruct Hv as ([p t] & <- & _). apply He.
Qed.

Lemma X5_interpolated_values_stay_within_the_grid_witness :
  exists lut fld out,
    init docstring_table = Ok lut
    /\ dict_get (fields lut) (lower "vp") = Ok fld
    /\ snd (interp_points lut far_press far_temps "vp") = Ok out
    /\ Forall (within 10 60) out.
Proof.
  destruct (init docstring_table) as [lut|] eqn:E;
    [|vm_compute in E; discriminate].
  pose proof E as Hc. vm_compute in Hc. injection Hc as Hc.
  destruct (dict_get (fields lut) (lower "vp")) as [fld|] eqn:Hd;
    [|rewrite <- Hc in Hd; vm_compute in Hd; discriminate].
  destruct (X5_interpolated_values_stay_within_the_grid docstring_table lut
              far_press far_temps "vp" fld 10 60 E Hd) as [_ Hp].
  - pose proof Hd as Hd'. rewrite <- Hc in Hd'. vm_compute in Hd'.
    injection Hd' as <-. rewrite <- Hc.
    intros j i Hj Hi. vm_compute in Hj, Hi.
    assert (Ej : (j = 0 \/ j = 1 \/ j = 2)%nat) by lia.
    assert (Ei : (i = 0 \/ i = 1)%nat) by lia.
    destruct Ej as [->|[->| ->]]; destruct Ei as [->| ->];
      vm_compute; split; discriminate.
  - destruct (Hp ltac:(simpl; lia)) as (out & Hout & Hall).
    exists lut, fld, out.
    split; [reflexivity|]. split; [exact Hd|]. split; assumption.
Defined.

(** ** Invariants of a constructed table *)

Lemma fields_grids (tbl : RawTable) (lut : SeismicLookupTable) :
  build_grids tbl = Ok lut ->
  Forall (fun kv =>
            exists col,
              fill_column col tbl (length (temp lut))
                (seq 0 (length (pres lut)))
                (np_zeros (length (temp lut)) (length (pres lut)))
              = Ok (f_grid (snd kv)))
         (fields lut).
Proof.
  intros Hb.
  destruct (build_grids_inv tbl lut Hb)
    as (_ & _ & _ & _ & _ & _ & _ & _ & _ & _ & gs & Hloop & Hf).
  apply fill_loop_columns in Hloop. simpl in Hloop.
  destruct Hloop as (G2 & G3 & G4 & G5 & G6 & G7 & G8 & G9).
  rewrite Hf. repeat constructor; simpl; eexists; eassumption.
Qed.

(** X6: what a constructed table keeps: both axes are strictly
    increasing and not empty; [n_uniq_p], [n_uniq_t] and [pstep] are their
    lengths; the four bounds are the first and last axis values; and the
    grid of every field has [n_uniq_t] rows of [n_uniq_p] entries. *)
Theorem X6_constructed_table_invariants
    (tbl : RawTable) (lut : SeismicLookupTable) :
  build_grids tbl = Ok lut ->
  (increasing (pres lut) /\ increasing (temp lut)
   /\ pres lut <> [] /\ temp lut <> [])
  /\ (n_uniq_p lut = length (pres lut) /\ n_uniq_t lut = length (temp lut)
      /\ pstep lut = n_uniq_t lut)
  /\ (p_min lut = hd 0 (pres lut) /\ p_max lut = last (pres lut) 0
      /\ t_min lut = hd 0 (temp lut) /\ t_max lut = last (temp lut) 0)
  /\ Forall (fun kv =>
               length (f_grid (snd kv)) = n_uniq_t lut
               /\ Forall (fun row => length row = n_uniq_p lut)
                         (f_grid (snd kv)))
            (fields lut).
Proof.
  intros Hb.
  destruct (build_grids_inv tbl lut Hb)
    as (_ & Ep & Et & Enp & Ent & Eps & M1 & M2 & M3 & M4 & _).
  assert (Ip : increasing (pres lut))
    by (rewrite Ep; apply np_unique_increasing).
  assert (It : increasing (temp lut))
    by (rewrite Et; apply np_unique_increasing).
  assert (Np : pres lut <> [])
    by (intros E; rewrite E in M3; discriminate).
  assert (Nt : temp lut <> [])
    by (intros E; rewrite E in M1; discriminate).
  rewrite (np_max_increasing _ It Nt) in M1.
  rewrite (np_min_increasing _ It Nt) in M2.
  rewrite (np_max_increasing _ Ip Np) in M3.
  rewrite (np_min_increasing _ Ip Np) in M4.
  split; [tauto|]. split; [repeat split; congruence|].
  split; [repeat split; congruence|].
  pose proof (fields_grids tbl lut Hb) as Hg.
  rewrite Forall_forall in *. intros kv Hkv.
  destruct (Hg kv Hkv) as (col & Hcol).
  destruct (fill_column_get col tbl (length (temp lut)) (length (pres lut))
              (seq 0 (length (pres lut))) _ _ Hcol
              (np_zeros_wide _ _)) as (Hw & Hl & _).
  - unfold np_zeros. apply repeat_length.
  - apply Forall_forall. intros k Hk. apply in_seq in Hk. lia.
  - rewrite Enp, Ent. split; [exact Hl|exact Hw].
Qed.

Lemma X6_constructed_table_invariants_witness :
  exists lut,
    build_grids long_table = Ok lut
    /\ n_uniq_p lut = 2%nat /\ n_uniq_t lut = 3%nat
    /\ Forall (fun kv =>
                 length (f_grid (snd kv)) = n_uniq_t lut
                 /\ Forall (fun row => length row = n_uniq_p lut)
                           (f_grid (snd kv)))
              (fields lut).
Proof.
  destruct (build_grids long_table) as [lut|] eqn:E;
    [|vm_compute in E; discriminate].
  destruct (X6_constructed_table_invariants long_table lut E)
    as (_ & _ & _ & Hg).
  exists lut. split; [reflexivity|].
  pose proof E as Hc. vm_compute in Hc. injection Hc as Hc.
  split; [now rewrite <- Hc|]. split; [now rewrite <- Hc|exact Hg].
Defined.

(** ** The table's own points *)

Lemma insert_unique_holds (x y : Q) (l : list Q) :
  x == y \/ (exists z, In z l /\ z == x) ->
  exists z, In z (insert_unique y l) /\ z == x.
Proof.
  induction l as [|w l IH]; simpl.
  - intros [E|(z & [] & _)]. exists y. split; [now left|now symmetry].
  - intros H. destruct (Qcompare_spec y w) as [E|E|E].
    + destruct H as [Hx|(z & Hz & Ez)].
      * exists w. split; [now left|]. rewrite <- E. now symmetry.
      * exists z. split; assumption.
    + destruct H as [Hx|(z & Hz & Ez)].
      * exists y. split; [now left|now symmetry].
      * exists z. split; [now right|assumption].
    + destruct H as [Hx|(z & [<-|Hz] & Ez)].
      * destruct IH as (z & Hz & Ez); [now left|].
        exists z. split; [now right|assumption].
      * exists w. split; [now left|assumption].
      * destruct IH as (z' & Hz' & Ez'); [right; eauto|].
        exists z'. split; [now right|assumption].
Qed.

(** Every value of an array is, up to equality of numbers, among its
    unique values. *)
Lemma np_unique_holds (l : list Q) (x : Q) :
  In x l -> exists z, In z (np_unique l) /\ z == x.
Proof.
  induction l as [|y l IH]; simpl; [tauto|].
  intros [->|H]; apply insert_unique_holds.
  - left. reflexivity.
  - right. now apply IH.
Qed.

Lemma rows_within (tbl : RawTable) (lut : SeismicLookupTable) :
  build_grids tbl = Ok lut ->
  Forall (fun r => within (p_min lut) (p_max lut) (pressure r)
                   /\ within (t_min lut) (t_max lut) (temperature r)) tbl.
Proof.
  intros Hb.
  destruct (build_grids_inv tbl lut Hb)
    as (_ & Ep & Et & _ & _ & _ & M1 & M2 & M3 & M4 & _).
  assert (Ip : increasing (pres lut))
    by (rewrite Ep; apply np_unique_increasing).
  assert (It : increasing (temp lut))
    by (rewrite Et; apply np_unique_increasing).
  assert (Np : pres lut <> [])
    by (intros E; rewrite E in M3; discriminate).
  assert (Nt : temp lut <> [])
    by (intros E; rewrite E in M1; discriminate).
  rewrite (np_max_increasing _ It Nt) in M1.
  rewrite (np_min_increasing _ It Nt) in M2.
  rewrite (np_max_increasing _ Ip Np) in M3.
  rewrite (np_min_increasing _ Ip Np) in M4.
  injection M1 as M1. injection M2 as M2.
  injection M3 as M3. injection M4 as M4.
  pose proof (increasing_within _ Ip) as Wp.
  pose proof (increasing_within _ It) as Wt.
  rewrite Forall_forall in *. intros r Hr. unfold within in *. split.
  - destruct (np_unique_holds (map pressure tbl) (pressure r))
      as (z & Hz & Ez); [now apply in_map|].
    rewrite <- Ep in Hz. specialize (Wp z Hz).
    rewrite <- M3, <- M4, <- Ez. exact Wp.
  - destruct (np_unique_holds (map temperature tbl) (temperature r))
      as (z & Hz & Ez); [now apply in_map|].
    rewrite <- Et in Hz. specialize (Wt z Hz).
    rewrite <- M1, <- M2, <- Ez. exact Wt.
Qed.

(** X7: the axes of a constructed table cover the table: every row's
    pressure lies within [p_min, p_max] and its temperature within
    [t_min, t_max], so a query at all the table's own points prints
    nothing. *)
Theorem X7_table_points_are_in_range
    (tbl : RawTable) (lut : SeismicLookupTable) (name : string) :
  init tbl = Ok lut ->
  Forall (fun r => within (p_min lut) (p_max lut) (pressure r)
                   /\ within (t_min lut) (t_max lut) (temperature r)) tbl
  /\ fst (interp_points lut (map pressure tbl) (map temperature tbl) name)
     = [].
Proof.
  intros H. destruct (init_inv tbl lut H) as (Hb & _ & _).
  pose proof (rows_within tbl lut Hb) as Hr. split; [exact Hr|].
  unfold interp_points. rewrite (checked_spec tbl lut) by exact H.
  simpl fst. unfold query_lines.
  rewrite (proj2 (bounds_lines_nil _ _ _ _)),
    (proj2 (bounds_lines_nil _ _ _ _)).
  - reflexivity.
  - rewrite Forall_forall in *. intros t Ht. apply in_map_iff in Ht.
    destruct Ht as (r & <- & Hin). now apply Hr.
  - rewrite Forall_forall in *. intros p Hp. apply in_map_iff in Hp.
    destruct Hp as (r & <- & Hin). now apply Hr.
Qed.

Lemma X7_table_points_are_in_range_witness :
  exists lut,
    init uneven_table = Ok lut
    /\ fst (interp_points lut (map pressure uneven_table)
              (map temperature uneven_table) "vs") = [].
Proof.
  destruct (init uneven_table) as [lut|] eqn:E;
    [|vm_compute in E; discriminate].
  exists lut. split; [reflexivity|].
  now apply (X7_table_points_are_in_range uneven_table lut "vs" E).
Defined.

(** ** Equal numbers, equal results *)

Lemma Qltb_comp (x x' y y' : Q) :
  x == x' -> y == y' -> Qltb x y = Qltb x' y'.
Proof. intros Hx Hy. unfold Qltb. now rewrite Hx, Hy. Qed.

Lemma clamp_comp (tb te x x' : Q) :
  x == x' -> clamp tb te x == clamp tb te x'.
Proof.
  intros H. unfold clamp.
  rewrite (Qltb_comp x x' tb tb H (Qeq_refl tb)).
  destruct (Qltb x' tb); [reflexivity|].
  rewrite (Qltb_comp te te x x' (Qeq_refl te) H).
  destruct (Qltb te x'); [reflexivity|exact H].
Qed.

Lemma locate_comp (knots : list Q) :
  forall k arg arg', arg == arg' -> locate k knots arg = locate k knots arg'.
Proof.
  induction knots as [|x0 knots IH]; intros k arg arg' H; [reflexivity|].
  destruct knots as [|x1 rest]; [reflexivity|].
  destruct rest as [|x2 rest]; [reflexivity|].
  change (locate k (x0 :: x1 :: x2 :: rest) arg)
    with (if Qltb arg x1 then k else locate (S k) (x1 :: x2 :: rest) arg).
  change (locate k (x0 :: x1 :: x2 :: rest) arg')
    with (if Qltb arg' x1 then k else locate (S k) (x1 :: x2 :: rest) arg').
  rewrite (Qltb_comp arg arg' x1 x1 H (Qeq_refl x1)).
  destruct (Qltb arg' x1); [reflexivity|]. now apply IH.
Qed.

Lemma bspl_comp (knots : list Q) (x x' : Q) :
  x == x' ->
  fst (bspl knots x) = fst (bspl knots x')
  /\ fst (snd (bspl knots x)) == fst (snd (bspl knots x'))
  /\ snd (snd (bspl knots x)) == snd (snd (bspl knots x')).
Proof.
  intros H. unfold bspl. simpl.
  pose proof (clamp_comp (hd 0 knots) (last knots 0) x x' H) as Hc.
  rewrite (locate_comp knots 0 _ _ Hc).
  split; [reflexivity|]. split; rewrite Hc; reflexivity.
Qed.

(** The interpolant gives equal values at equal points. *)
Lemma eval_comp (g : Interp2d) (x x' y y' : Q) :
  x == x' -> y == y' -> eval g x y == eval g x' y'.
Proof.
  intros Hx Hy. unfold eval.
  destruct (bspl_comp (ix g) x x' Hx) as (Ex & Ex1 & Ex2).
  destruct (bspl_comp (iy g) y y' Hy) as (Ey & Ey1 & Ey2).
  destruct (bspl (ix g) x) as (lx & hx1 & hx2).
  destruct (bspl (ix g) x') as (lx' & hx1' & hx2').
  destruct (bspl (iy g) y) as (ly & hy1 & hy2).
  destruct (bspl (iy g) y') as (ly' & hy1' & hy2').
  simpl in *. subst lx' ly'.
  rewrite Ex1, Ex2, Ey1, Ey2. reflexivity.
Qed.

(** ** Two increasing lists of the same numbers *)

Lemma increasing_same_numbers (l1 : list Q) :
  forall l2, increasing l1 -> increasing l2 ->
  (forall x, In x l1 -> exists y, In y l2 /\ y == x) ->
  (forall y, In y l2 -> exists x, In x l1 /\ x == y) ->
  Forall2 Qeq l1 l2.
Proof.
  induction l1 as [|a l1 IH]; intros l2 I1 I2 H12 H21.
  - destruct l2 as [|b l2]; [constructor|].
    destruct (H21 b (or_introl eq_refl)) as (x & [] & _).
  - destruct l2 as [|b l2].
    { destruct (H12 a (or_introl eq_refl)) as (y & [] & _). }
    pose proof (increasing_above_head a l1 I1) as A1.
    pose proof (increasing_above_head b l2 I2) as A2.
    rewrite Forall_forall in A1, A2.
    assert (Eab : a == b).
    { destruct (H12 a (or_introl eq_refl)) as (y & Hy & Ey).
      destruct (H21 b (or_introl eq_refl)) as (x & Hx & Ex).
      assert (b <= a).
      { destruct Hy as [<-|Hy]; [lra|]. specialize (A2 y Hy). lra. }
      assert (a <= b).
      { destruct Hx as [<-|Hx]; [lra|]. specialize (A1 x Hx). lra. }
      lra. }
    constructor; [exact Eab|].
    apply IH.
    + eapply increasing_tail; exact I1.
    + eapply increasing_tail; exact I2.
    + intros x Hx. destruct (H12 x (or_intror Hx)) as (y & Hy & Ey).
      specialize (A1 x Hx).
      destruct Hy as [<-|Hy]; [lra|]. eauto.
    + intros y Hy. destruct (H21 y (or_intror Hy)) as (x & Hx & Ex).
      specialize (A2 y Hy).
      destruct Hx as [<-|Hx]; [lra|]. eauto.
Qed.

Lemma insert_unique_from (x z : Q) (l : list Q) :
  In z (insert_unique x l) -> z = x \/ In z l.
Proof.
  induction l as [|w l IH]; simpl.
  - intros [<-|[]]. now left.
  - destruct (x ?= w); simpl.
    + tauto.
    + intros [<-|H]; tauto.
    + intros [<-|H]; [tauto|]. destruct (IH H); tauto.
Qed.

(** The unique values of an array are values of the array. *)
Lemma np_unique_from (l : list Q) (z : Q) : In z (np_unique l) -> In z l.
Proof.
  induction l as [|x l IH]; simpl; [tauto|].
  intros H. apply insert_unique_from in H. destruct H as [->|H]; auto.
Qed.

(** ** A table laid out as the docstring demands *)

Lemma Forall2_Qeq_nth (l1 l2 : list Q) (i : nat) :
  Forall2 Qeq l1 l2 -> nth i l1 0 == nth i l2 0.
Proof.
  intros H. revert i. induction H as [|x y l1 l2 E _ IH]; intros [|i];
    simpl; auto; reflexivity.
Qed.

(** The row index of a grid-ordered table splits into a pressure index
    and a temperature index. *)
Lemma row_index_splits (n_p n_t k : nat) :
  (k < n_p * n_t)%nat ->
  exists i j, (i < n_p)%nat /\ (j < n_t)%nat /\ k = (i * n_t + j)%nat.
Proof.
  intros H. assert (Hn : n_t <> 0%nat) by nia.
  exists (k / n_t)%nat, (k mod n_t)%nat. split; [|split].
  - apply Nat.Div0.div_lt_upper_bound. nia.
  - now apply Nat.mod_upper_bound.
  - rewrite (Nat.div_mod_eq k n_t) at 1. lia.
Qed.

Lemma grid_ordered_axes (tbl : RawTable) (ps ts : list Q) :
  grid_ordered tbl ps ts -> ps <> [] -> ts <> [] ->
  Forall2 Qeq (np_unique (map pressure tbl)) ps
  /\ Forall2 Qeq (np_unique (map temperature tbl)) ts.
Proof.
  intros (Ip & It & Hlen & Hrows) Np Nt.
  assert (Lp : (0 < length ps)%nat) by (destruct ps; simpl; [congruence|lia]).
  assert (Lt : (0 < length ts)%nat) by (destruct ts; simpl; [congruence|lia]).
  assert (Hrow : forall r, In r tbl ->
            exists i j, (i < length ps)%nat /\ (j < length ts)%nat
                        /\ pressure r == nth i ps 0
                        /\ temperature r == nth j ts 0).
  { intros r Hr. apply In_nth_error in Hr. destruct Hr as (k & Hk).
    assert (Hlt : (k < length ps * length ts)%nat).
    { rewrite <- Hlen. apply nth_error_Some. congruence. }
    destruct (row_index_splits _ _ k Hlt) as (i & j & Hi & Hj & ->).
    exists i, j. split; [exact Hi|]. split; [exact Hj|].
    now apply (Hrows i j r). }
  assert (Hat : forall i j, (i < length ps)%nat -> (j < length ts)%nat ->
            exists r, In r tbl /\ pressure r == nth i ps 0
                      /\ temperature r == nth j ts 0).
  { intros i j Hi Hj.
    assert (Hlt : (i * length ts + j < length tbl)%nat) by (rewrite Hlen; nia).
    destruct (nth_error tbl (i * length ts + j)) as [r|] eqn:E.
    - exists r. split; [eapply nth_error_In; exact E|].
      now apply (Hrows i j r).
    - apply nth_error_None in E. lia. }
  split; apply increasing_same_numbers;
    try apply np_unique_increasing; try assumption.
  - intros x Hx. apply np_unique_from in Hx. apply in_map_iff in Hx.
    destruct Hx as (r & <- & Hr).
    destruct (Hrow r Hr) as (i & j & Hi & Hj & E1 & E2).
    exists (nth i ps 0). split; [now apply nth_In|now symmetry].
  - intros y Hy. destruct (In_nth ps y 0 Hy) as (i & Hi & <-).
    destruct (Hat i 0%nat Hi Lt) as (r & Hr & E1 & _).
    destruct (np_unique_holds (map pressure tbl) (pressure r))
      as (z & Hz & Ez); [now apply in_map|].
    exists z. split; [exact Hz|]. now rewrite Ez.
  - intros x Hx. apply np_unique_from in Hx. apply in_map_iff in Hx.
    destruct Hx as (r & <- & Hr).
    destruct (Hrow r Hr) as (i & j & Hi & Hj & E1 & E2).
    exists (nth j ts 0). split; [now apply nth_In|now symmetry].
  - intros y Hy. destruct (In_nth ts y 0 Hy) as (j & Hj & <-).
    destruct (Hat 0%nat j Lp Hj) as (r & Hr & _ & E2).
    destruct (np_unique_holds (map temperature tbl) (temperature r))
      as (z & Hz & Ez); [now apply in_map|].
    exists z. split; [exact Hz|]. now rewrite Ez.
Qed.

Lemma init_of_build_grids (tbl : RawTable) (lut : SeismicLookupTable) :
  build_grids tbl = Ok lut ->
  (2 <= length (pres lut))%nat -> (2 <= length (temp lut))%nat ->
  init tbl = Ok lut.
Proof.
  intros Hb Lp Lt. unfold init. rewrite Hb. simpl bind.
  destruct (build_grids_inv tbl lut Hb)
    as (_ & _ & _ & _ & _ & _ & _ & _ & _ & _ & gs & _ & Hf).
  rewrite Hf. unfold interp2d.
  apply Nat.leb_le in Lp, Lt. rewrite Lp, Lt. reflexivity.
Qed.

(** X8: a table laid out as the docstring demands, on at least two
    pressures and two temperatures, is constructed; its axes are those
    pressures and temperatures; and a point query at the pressure and
    temperature of any of its rows prints nothing and returns that row's
    value of the field. *)
Theorem X8_well_formed_table_is_reproduced
    (tbl : RawTable) (ps ts : list Q) :
  grid_ordered tbl ps ts ->
  (2 <= length ps)%nat -> (2 <= length ts)%nat ->
  exists lut,
    init tbl = Ok lut
    /\ Forall2 Qeq (pres lut) ps /\ Forall2 Qeq (temp lut) ts
    /\ forall name fld r,
         dict_get (fields lut) (lower name) = Ok fld -> In r tbl ->
         exists v,
           interp_points lut [pressure r] [temperature r] name
           = ([], Ok [v])
           /\ v == get_column (f_index fld) r.
Proof.
  intros Hgo Lps Lts.
  destruct (grid_ordered_axes tbl ps ts Hgo) as [Ap At];
    [destruct ps; simpl in *; [lia|discriminate]
    |destruct ts; simpl in *; [lia|discriminate]|].
  pose proof (Forall2_length Ap) as Lp.
  pose proof (Forall2_length At) as Lt.
  destruct Hgo as (Ip & It & Hlen & Hrows).
  assert (Hne : tbl <> []) by (destruct tbl; simpl in *; [nia|discriminate]).
  assert (L2 : (2 <= length tbl)%nat) by nia.
  destruct (fill_grids_spec tbl) as [Hok _].
  destruct Hok as (lut & Hb & Etbl & Ep & Et & Enp & Ent & Eps).
  { split; [exact Hne|]. apply blocks_fit_iff; try lia; left; nia. }
  rewrite <- (build_grids_rows tbl L2) in Hb.
  rewrite <- Ep in Ap, Lp. rewrite <- Et in At, Lt.
  assert (Hi : init tbl = Ok lut)
    by (apply init_of_build_grids; [exact Hb|lia|lia]).
  exists lut. split; [exact Hi|]. split; [exact Ap|]. split; [exact At|].
  intros name fld r Hd Hr.
  destruct (lut_axes tbl lut Hi) as (Ipl & Itl & L2p & L2t & _).
  destruct (queries_spec tbl lut [pressure r] [temperature r] name fld Hi Hd)
    as [_ Eq].
  apply In_nth_error in Hr. destruct Hr as (k & Hk).
  assert (Hlt : (k < length ps * length ts)%nat).
  { rewrite <- Hlen. apply nth_error_Some. congruence. }
  destruct (row_index_splits _ _ k Hlt) as (i & j & Hip & Hjt & ->).
  destruct (Hrows i j r Hip Hjt Hk) as [E1 E2].
  eexists. split.
  - rewrite Eq. unfold points. simpl. f_equal.
    pose proof (rows_within tbl lut Hb) as Hw.
    rewrite Forall_forall in Hw.
    destruct (Hw r (nth_error_In _ _ Hk)) as [Wp Wt].
    unfold query_lines.
    rewrite (proj2 (bounds_lines_nil _ _ _ _)),
      (proj2 (bounds_lines_nil _ _ _ _));
      [reflexivity|constructor; [exact Wt|constructor]
      |constructor; [exact Wp|constructor]].
  - rewrite (eval_comp _ (pressure r) (nth i (pres lut) 0)
               (temperature r) (nth j (temp lut) 0)).
    + rewrite (eval_knot (mkInterp2d (pres lut) (temp lut) (f_grid fld)) i j);
        try assumption; simpl; try lia.
      rewrite (field_grid_value tbl lut (lower name) fld i j r Hb Hd);
        [reflexivity|lia|lia|].
      now rewrite Lt.
    + rewrite E1. symmetry. now apply Forall2_Qeq_nth.
    + rewrite E2. symmetry. now apply Forall2_Qeq_nth.
Qed.

Lemma X8_well_formed_table_is_reproduced_witness :
  exists lut,
    init docstring_table = Ok lut
    /\ Forall2 Qeq (pres lut) docstring_pressures
    /\ Forall2 Qeq (temp lut) docstring_temperatures
    /\ forall name fld r,
         dict_get (fields lut) (lower name) = Ok fld ->
         In r docstring_table ->
         exists v,
           interp_points lut [pressure r] [temperature r] name
           = ([], Ok [v])
           /\ v == get_column (f_index fld) r.
Proof.
  apply (X8_well_formed_table_is_reproduced docstring_table
           docstring_pressures docstring_temperatures).
  - split; [simpl; split; [reflexivity|exact I]|].
    split; [simpl; repeat split; reflexivity|].
    split; [reflexivity|].
    intros i j r Hi Hj Hr. simpl in Hi, Hj.
    assert (Ei : (i = 0 \/ i = 1)%nat) by lia.
    assert (Ej : (j = 0 \/ j = 1 \/ j = 2)%nat) by lia.
    destruct Ei as [->| ->]; destruct Ej as [->|[->| ->]];
      simpl in Hr; injection Hr as <-; split; reflexivity.
  - simpl. lia.
  - simpl. lia.
Defined.

(** ** Composition interpolation, the other way round *)

(** X9: for compositions [c1 <> c2], [linear_interp_1d] does not depend
    on the order in which the two samples are given: both orders are
    sorted into the same segment, so the result, or the exception, is the
    same to the last bit. *)
Theorem X9_linear_interp_1d_is_symmetric
    (vals1 vals2 : list Q) (c1 c2 cnew : Q) :
  ~ c1 == c2 ->
  linear_interp_1d vals1 vals2 c1 c2 cnew
  = linear_interp_1d vals2 vals1 c2 c1 cnew.
Proof.
  intros Hc. unfold linear_interp_1d.
  rewrite (Nat.eqb_sym (length vals2) (length vals1)).
  destruct (negb (length vals1 =? length vals2)%nat); [reflexivity|].
  destruct (Qle_bool c1 c2) eqn:E12; destruct (Qle_bool c2 c1) eqn:E21;
    try reflexivity.
  - apply Qle_bool_iff in E12, E21. exfalso. apply Hc. lra.
  - exfalso.
    destruct (Qlt_le_dec c2 c1) as [L|L].
    + assert (L' : c2 <= c1) by lra.
      apply Qle_bool_iff in L'. congruence.
    + apply Qle_bool_iff in L. congruence.
Qed.

Lemma X9_linear_interp_1d_is_symmetric_witness :
  linear_interp_1d sample_vals1 sample_vals2 0 1 3
  = linear_interp_1d sample_vals2 sample_vals1 1 0 3.
Proof.
  apply (X9_linear_interp_1d_is_symmetric sample_vals1 sample_vals2 0 1 3).
  intros E. discriminate E.
Defined.

(** ** The harmonic mean of three compositions *)

Lemma np_broadcast_cases (op : Q -> Q -> Q) (l1 l2 : list Q) :
  (exists r,
      np_broadcast op l1 l2 = Ok r
      /\ length r = (if Nat.eqb (length l1) 1 then length l2 else length l1)
      /\ (length l1 = length l2 \/ length l1 = 1 \/ length l2 = 1)%nat)
  \/ (np_broadcast op l1 l2 = Raise ValueError
      /\ length l1 <> length l2 /\ length l1 <> 1%nat
      /\ length l2 <> 1%nat).
Proof.
  unfold np_broadcast.
  destruct (Nat.eqb_spec (length l1) (length l2)) as [E|E].
  - left. eexists. split; [reflexivity|]. split; [|now left].
    unfold zip_with. rewrite length_map, length_combine.
    destruct (Nat.eqb_spec (length l1) 1); lia.
  - destruct l1 as [|x [|x' l1]].
    + destruct l2 as [|y [|y' l2]]; simpl in *; try lia.
      * left. eexists. split; [reflexivity|]. simpl. split; [reflexivity|].
        now right; right.
      * right. repeat split; simpl; lia.
    + left. eexists. split; [reflexivity|]. rewrite length_map. simpl.
      split; [reflexivity|]. now right; left.
    + destruct l2 as [|y [|y' l2]]; simpl in *.
      * right. repeat split; simpl; lia.
      * left. eexists. split; [reflexivity|]. simpl. rewrite length_map.
        split; [reflexivity|]. now right; right.
      * right. repeat split; simpl; lia.
Qed.

Lemma np_broadcast_equal (op : Q -> Q -> Q) (l1 l2 : list Q) :
  length l1 = length l2 -> np_broadcast op l1 l2 = Ok (zip_with op l1 l2).
Proof.
  intros E. unfold np_broadcast. now rewrite (proj2 (Nat.eqb_eq _ _) E).
Qed.

(** For arrays of one length the mean is computed element by element. *)
Lemma harmonic_mean_comp_elements (bas lhz hzb : list Q) (a b c : Q) :
  length lhz = length bas -> length hzb = length bas ->
  harmonic_mean_comp bas lhz hzb a b c
  = Ok (map (fun t => 1 / ((1 / fst t) * a + (1 / fst (snd t)) * b
                           + (1 / snd (snd t)) * c))
            (combine bas (combine lhz hzb))).
Proof.
  intros H1 H2. unfold harmonic_mean_comp.
  rewrite np_broadcast_equal by (rewrite !length_map; lia). simpl.
  rewrite np_broadcast_equal
    by (unfold zip_with; rewrite !length_map, length_combine, !length_map;
        lia).
  simpl. f_equal. unfold zip_with.
  revert lhz hzb H1 H2.
  induction bas as [|x bas IH]; intros [|y lhz] [|z hzb] H1 H2;
    try discriminate; [reflexivity|].
  simpl. f_equal. apply IH; simpl in *; lia.
Qed.

Lemma reciprocal_within (lo hi v : Q) :
  0 < lo -> lo <= v -> v <= hi ->
  0 < 1 / v /\ lo * (1 / v) <= 1 /\ 1 <= hi * (1 / v).
Proof.
  intros Hlo V1 V2. assert (Hv : 0 < v) by lra.
  assert (Hu : 0 < 1 / v) by (apply Qlt_shift_div_l; lra).
  assert (E : v * (1 / v) == 1) by (field; lra).
  set (u := 1 / v) in *. clearbody u.
  split; [exact Hu|]. split; nra.
Qed.

Lemma weighted_reciprocals (lo hi u v w a b c : Q) :
  0 < lo -> 0 < hi -> 0 <= a -> 0 <= b -> 0 <= c -> a + b + c == 1 ->
  0 < u -> lo * u <= 1 -> 1 <= hi * u ->
  0 < v -> lo * v <= 1 -> 1 <= hi * v ->
  0 < w -> lo * w <= 1 -> 1 <= hi * w ->
  lo * (u * a + v * b + w * c) <= 1 /\ 1 <= hi * (u * a + v * b + w * c)
  /\ 0 < u * a + v * b + w * c.
Proof.
  intros.
  assert (0 <= a * (1 - lo * u)) by (apply Qmult_le_0_compat; lra).
  assert (0 <= b * (1 - lo * v)) by (apply Qmult_le_0_compat; lra).
  assert (0 <= c * (1 - lo * w)) by (apply Qmult_le_0_compat; lra).
  assert (0 <= a * (hi * u - 1)) by (apply Qmult_le_0_compat; lra).
  assert (0 <= b * (hi * v - 1)) by (apply Qmult_le_0_compat; lra).
  assert (0 <= c * (hi * w - 1)) by (apply Qmult_le_0_compat; lra).
  assert (S1 : lo * (u * a + v * b + w * c) <= 1) by nra.
  assert (S2 : 1 <= hi * (u * a + v * b + w * c)) by nra.
  repeat split; try assumption.
  set (s := u * a + v * b + w * c) in *. clearbody s.
  apply Qnot_le_lt. intros Hs. nra.
Qed.

Lemma harmonic_mean_within (lo hi x y z a b c : Q) :
  0 < lo -> 0 <= a -> 0 <= b -> 0 <= c -> a + b + c == 1 ->
  within lo hi x -> within lo hi y -> within lo hi z ->
  within lo hi (1 / ((1 / x) * a + (1 / y) * b + (1 / z) * c)).
Proof.
  unfold within. intros Hlo Ha Hb Hc Hs [X1 X2] [Y1 Y2] [Z1 Z2].
  assert (Hhi : 0 < hi) by lra.
  destruct (reciprocal_within lo hi x Hlo X1 X2) as (Ux & Lx & Hx).
  destruct (reciprocal_within lo hi y Hlo Y1 Y2) as (Uy & Ly & Hy).
  destruct (reciprocal_within lo hi z Hlo Z1 Z2) as (Uz & Lz & Hz).
  destruct (weighted_reciprocals lo hi (1 / x) (1 / y) (1 / z) a b c)
    as (Sl & Sh & Sp); try assumption.
  split.
  - apply Qle_shift_div_l; [exact Sp|exact Sl].
  - apply Qle_shift_div_r; [exact Sp|exact Sh].
Qed.

(** X11: the harmonic mean of three arrays of one length, with
    non-negative fractions that sum to one, is an array of that length
    that lies between the values it mixes: when all values lie within
    [lo] and [hi], with [lo] positive, so does every entry of the mean. *)
Theorem X11_harmonic_mean_stays_within_the_values
    (bas lhz hzb : list Q) (a b c lo hi : Q) :
  length lhz = length bas -> length hzb = length bas ->
  0 < lo -> 0 <= a -> 0 <= b -> 0 <= c -> a + b + c == 1 ->
  Forall (within lo hi) bas -> Forall (within lo hi) lhz ->
  Forall (within lo hi) hzb ->
  exists out,
    harmonic_mean_comp bas lhz hzb a b c = Ok out
    /\ length out = length bas /\ Forall (within lo hi) out.
Proof.
  intros H1 H2 Hlo Ha Hb Hc Hs Wb Wl Wh.
  rewrite harmonic_mean_comp_elements by assumption.
  eexists. split; [reflexivity|]. split.
  - rewrite length_map, !length_combine. lia.
  - apply Forall_forall. intros m Hm. apply in_map_iff in Hm.
    destruct Hm as ([x [y z]] & <- & Hin). simpl.
    pose proof (in_combine_l _ _ _ _ Hin) as Hx.
    apply in_combine_r in Hin.
    pose proof (in_combine_l _ _ _ _ Hin) as Hy.
    apply in_combine_r in Hin.
    rewrite Forall_forall in Wb, Wl, Wh.
    apply harmonic_mean_within; auto.
Qed.

Lemma X11_harmonic_mean_stays_within_the_values_witness :
  exists out,
    harmonic_mean_comp [4; 8] [5; 6] [8; 4] (1 # 5) (3 # 10) (1 # 2) = Ok out
    /\ length out = 2%nat /\ Forall (within 4 8) out.
Proof.
  apply (X11_harmonic_mean_stays_within_the_values
           [4; 8] [5; 6] [8; 4] (1 # 5) (3 # 10) (1 # 2) 4 8);
    try reflexivity; try discriminate;
    repeat constructor; discriminate.
Defined.

(** X18: [harmonic_mean_comp] returns an array exactly when numpy can
    broadcast the three data arrays together, that is when any two of
    their lengths are equal or one of the two is one; for every other
    combination of lengths it ends in numpy's [ValueError]. *)
Theorem X18_harmonic_mean_needs_matching_shapes
    (bas lhz hzb : list Q) (a b c : Q) :
  (shapes_agree (length bas) (length lhz) (length hzb) ->
   succeeds (harmonic_mean_comp bas lhz hzb a b c))
  /\ (~ shapes_agree (length bas) (length lhz) (length hzb) ->
      harmonic_mean_comp bas lhz hzb a b c = Raise ValueError).
Proof.
  unfold harmonic_mean_comp, shapes_agree, succeeds.
  set (m1 := map (fun v => 1 / v * a) bas).
  set (m2 := map (fun v => 1 / v * b) lhz).
  set (m3 := map (fun v => 1 / v * c) hzb).
  assert (L1 : length m1 = length bas) by apply length_map.
  assert (L2 : length m2 = length lhz) by apply length_map.
  assert (L3 : length m3 = length hzb) by apply length_map.
  destruct (np_broadcast_cases Qplus m1 m2)
    as [(m12 & E12 & Hl & Hc)|(E12 & Hn)]; rewrite E12; simpl.
  - destruct (np_broadcast_cases Qplus m12 m3)
      as [(m123 & E123 & _ & Hc')|(E123 & Hn')]; rewrite E123; simpl.
    + split; [intros _; eexists; reflexivity|].
      intros H. exfalso. apply H.
      destruct (Nat.eqb_spec (length m1) 1); lia.
    + split; [|reflexivity].
      intros H. exfalso.
      destruct (Nat.eqb_spec (length m1) 1); lia.
  - split; [|reflexivity]. intros H. exfalso. lia.
Qed.

(** ** The order of a regridded array *)

Lemma existsb_insert_sorted (f : Q -> bool) (x : Q) (l : list Q) :
  existsb f (insert_sorted x l) = f x || existsb f l.
Proof.
  induction l as [|y l IH]; simpl; [reflexivity|].
  destruct (Qle_bool x y); simpl; [reflexivity|].
  rewrite IH. destruct (f x), (f y); reflexivity.
Qed.

Lemma existsb_np_sort (f : Q -> bool) (l : list Q) :
  existsb f (np_sort l) = existsb f l.
Proof.
  induction l as [|x l IH]; simpl; [reflexivity|].
  now rewrite existsb_insert_sorted, IH.
Qed.

Lemma _check_bounds_np_sort (input check : list Q) (TP : string) :
  _check_bounds (np_sort input) check TP = _check_bounds input check TP.
Proof.
  unfold _check_bounds.
  destruct (np_max check) as [mx|e]; simpl; [|reflexivity].
  rewrite existsb_np_sort.
  destruct (np_min check) as [mn|e]; simpl; [|reflexivity].
  now rewrite existsb_np_sort.
Qed.

Lemma insert_sorted_ascending (x : Q) (l : list Q) :
  ascending l -> ascending (insert_sorted x l).
Proof.
  induction l as [|y l IH]; intros H; [exact I|].
  simpl. destruct (Qle_bool x y) eqn:E; [now split|].
  assert (Hyx : Qle_bool y x = true).
  { apply Qle_bool_iff. destruct (Qlt_le_dec y x) as [L|L]; [lra|].
    apply Qle_bool_iff in L. congruence. }
  destruct l as [|z l]; [now split|].
  destruct H as [Hyz H]. specialize (IH H). simpl in IH |- *.
  destruct (Qle_bool x z) eqn:E'.
  - split; [exact Hyx|exact IH].
  - split; [exact Hyz|exact IH].
Qed.

Lemma np_sort_ascending (l : list Q) : ascending (np_sort l).
Proof.
  induction l as [|x l IH]; [exact I|].
  simpl. now apply insert_sorted_ascending.
Qed.

Lemma np_sort_of_ascending (l : list Q) : ascending l -> np_sort l = l.
Proof.
  induction l as [|x l IH]; intros H; [reflexivity|].
  simpl. destruct l as [|y l]; [reflexivity|].
  destruct H as [Hxy H]. rewrite (IH H). simpl. now rewrite Hxy.
Qed.

Lemma call_np_sort (g : Interp2d) (x y : list Q) :
  call g (np_sort x) (np_sort y) = call g x y.
Proof.
  unfold call.
  rewrite (np_sort_of_ascending (np_sort x)) by apply np_sort_ascending.
  rewrite (np_sort_of_ascending (np_sort y)) by apply np_sort_ascending.
  reflexivity.
Qed.

(** X19: [interp_grid] orders its result by increasing pressure and
    temperature, whatever the order of the queries: it prints and returns
    for [press] and [temps] what it prints and returns for the two arrays
    sorted, so two pressures given in decreasing order give the array of
    the same two in increasing order. *)
Theorem X19_interp_grid_sorts_its_queries
    (lut : SeismicLookupTable) (press temps : list Q) (name : string) :
  interp_grid lut press temps name
  = interp_grid lut (np_sort press) (np_sort temps) name
  /\ forall p1 p2, p1 < p2 ->
       interp_grid lut [p2; p1] temps name
       = interp_grid lut [p1; p2] temps name.
Proof.
  assert (G : forall ps ts,
             interp_grid lut ps ts name
             = interp_grid lut (np_sort ps) (np_sort ts) name).
  { intros ps ts. unfold interp_grid, checked.
    rewrite !_check_bounds_np_sort.
    destruct (_check_bounds ps (pres lut) "pressure") as [w1|e];
      [|reflexivity].
    destruct (_check_bounds ts (temp lut) "temperature") as [w2|e];
      [|reflexivity].
    f_equal.
    destruct (dict_get (fields lut) (lower name)) as [f|e]; [|reflexivity].
    simpl. destruct (interp2d (pres lut) (temp lut) (f_grid f)) as [g|e];
      [|reflexivity].
    simpl. now rewrite call_np_sort. }
  split; [apply G|].
  intros p1 p2 Hlt. rewrite (G [p2; p1]), (G [p1; p2]).
  assert (E1 : Qle_bool p2 p1 = false).
  { destruct (Qle_bool p2 p1) eqn:E; [|reflexivity].
    apply Qle_bool_iff in E. lra. }
  assert (E2 : Qle_bool p1 p2 = true) by (apply Qle_bool_iff; lra).
  simpl. now rewrite E1, E2.
Qed.

(** ** Interpolation between two compositions *)

Lemma line_between (c1 c2 v1 v2 cnew : Q) :
  ~ c1 == c2 -> Qmin c1 c2 <= cnew -> cnew <= Qmax c1 c2 ->
  within (Qmin v1 v2) (Qmax v1 v2) (line c1 c2 v1 v2 cnew).
Proof.
  intros Hc Hlo Hhi. unfold within, line.
  assert (Et : (cnew - c1) / (c2 - c1) * (c2 - c1) == cnew - c1).
  { field. intros E. apply Hc. lra. }
  assert (El : v1 + (cnew - c1) * ((v2 - v1) / (c2 - c1))
               == v1 + (cnew - c1) / (c2 - c1) * (v2 - v1)).
  { field. intros E. apply Hc. lra. }
  rewrite El. clear El.
  set (t := (cnew - c1) / (c2 - c1)) in *. clearbody t.
  assert (Ht : 0 <= t /\ t <= 1).
  { destruct (Q.min_spec c1 c2) as [[L E1]|[L E1]];
      destruct (Q.max_spec c1 c2) as [[L' E2]|[L' E2]];
      rewrite E1 in Hlo; rewrite E2 in Hhi; try lra.
    - split; apply Qnot_lt_le; intros C; nra.
    - assert (L2 : c2 < c1).
      { apply Qnot_le_lt. intros C. apply Hc. lra. }
      split; apply Qnot_lt_le; intros C; nra. }
  destruct Ht as [T0 T1].
  destruct (Q.min_spec v1 v2) as [[L E1]|[L E1]];
    destruct (Q.max_spec v1 v2) as [[L' E2]|[L' E2]];
    rewrite E1, E2; try lra; split; nra.
Qed.

(** X21: for two samples of one size at compositions [c1 <> c2] and a
    [cnew] between [c1] and [c2], in either order, every value that
    [linear_interp_1d] returns lies between the two sample values it
    interpolates. *)
Theorem X21_linear_interp_1d_stays_between_the_samples
    (vals1 vals2 : list Q) (c1 c2 cnew : Q) :
  ~ c1 == c2 -> length vals1 = length vals2 ->
  Qmin c1 c2 <= cnew -> cnew <= Qmax c1 c2 ->
  exists out,
    linear_interp_1d vals1 vals2 c1 c2 cnew = Ok out
    /\ Forall2 (fun o v => within (Qmin (fst v) (snd v))
                                  (Qmax (fst v) (snd v)) o)
               out (combine vals1 vals2).
Proof.
  intros Hc Hlen Hlo Hhi.
  destruct (linear_interp_1d_line vals1 vals2 c1 c2 cnew Hc Hlen)
    as (out & Hout & Hall).
  exists out. split; [exact Hout|].
  eapply Forall2_impl; [|exact Hall]. simpl.
  intros o [v1 v2] E. simpl in *.
  destruct (line_between c1 c2 v1 v2 cnew Hc Hlo Hhi) as [W1 W2].
  unfold within. rewrite E. now split.
Qed.

Lemma X21_linear_interp_1d_stays_between_the_samples_witness :
  exists out,
    linear_interp_1d sample_vals1 sample_vals2 0 1 (1 # 4) = Ok out
    /\ Forall2 (fun o v => within (Qmin (fst v) (snd v))
                                  (Qmax (fst v) (snd v)) o)
               out (combine sample_vals1 sample_vals2).
Proof.
  apply (X21_linear_interp_1d_stays_between_the_samples
           sample_vals1 sample_vals2 0 1 (1 # 4)).
  - intros E. discriminate E.
  - reflexivity.
  - vm_compute. discriminate.
  - vm_compute. discriminate.
Defined.

(** ** Composition interpolation in binary64 arithmetic *)

(** At the lower composition the segment formula adds a zero to the
    sample: [c - c] is [+0], a finite slope times zero is a zero, and a
    zero added to [v] is [v]. *)
Lemma lower_knot_value (s c v : PrimFloat.float) :
  Binary64Terms.finite c = true -> Binary64Terms.finite s = true ->
  Binary64Terms.same_number
    (PrimFloat.add (PrimFloat.mul s (PrimFloat.sub c c)) v) v.
Proof.
  unfold Binary64Terms.finite. intros Hc Hs.
  assert (Ed : FloatOps.Prim2SF (PrimFloat.sub c c)
               = SpecFloat.S754_zero false).
  { rewrite FloatAxioms.sub_spec.
    destruct (FloatOps.Prim2SF c) as [sc| | |sc mc ec]; try discriminate.
    - destruct sc; reflexivity.
    - unfold FloatAxioms.SF64sub, SpecFloat.SFsub. cbv zeta.
      rewrite Z.sub_diag. reflexivity. }
  assert (Ep : exists sp,
             FloatOps.Prim2SF (PrimFloat.mul s (PrimFloat.sub c c))
             = SpecFloat.S754_zero sp).
  { rewrite FloatAxioms.mul_spec, Ed.
    destruct (FloatOps.Prim2SF s); try discriminate; eexists; reflexivity. }
  destruct Ep as [sp Ep].
  pose proof (FloatAxioms.add_spec
                (PrimFloat.mul s (PrimFloat.sub c c)) v) as Eo.
  rewrite Ep in Eo.
  destruct (FloatOps.Prim2SF v) as [sv|sv| |sv mv ev] eqn:Ev.
  - right. split; rewrite FloatAxioms.eqb_spec.
    + rewrite Eo. destruct sp, sv; reflexivity.
    + rewrite Ev. reflexivity.
  - left. apply FloatAxioms.Prim2SF_inj. rewrite Eo, Ev. reflexivity.
  - left. apply FloatAxioms.Prim2SF_inj. rewrite Eo, Ev. reflexivity.
  - left. apply FloatAxioms.Prim2SF_inj. rewrite Eo, Ev. reflexivity.
Qed.

(** X22: in binary64 arithmetic, for two samples of one size at
    compositions [c1 <= c2] with [c1] finite and finite slopes,
    [linear_interp_1d] at [cnew = c1] returns [vals1] bit for bit (a zero
    possibly with the other sign): at the lower composition no rounding
    enters. *)
Theorem X22_binary64_lower_sample_is_returned
    (vals1 vals2 : list PrimFloat.float) (c1 c2 : PrimFloat.float) :
  length vals1 = length vals2 ->
  PrimFloat.leb c1 c2 = true -> Binary64Terms.finite c1 = true ->
  Forall (fun ab =>
            Binary64Terms.finite
              (PrimFloat.div (PrimFloat.sub (snd ab) (fst ab))
                             (PrimFloat.sub c2 c1)) = true)
         (combine vals1 vals2) ->
  exists out,
    Binary64.linear_interp_1d vals1 vals2 c1 c2 c1 = Ok out
    /\ Forall2 Binary64Terms.same_number out vals1.
Proof.
  intros Hlen Hle Hc Hs. unfold Binary64.linear_interp_1d.
  rewrite Hlen, Nat.eqb_refl, Hle. simpl.
  eexists. split; [reflexivity|].
  revert vals2 Hlen Hs.
  induction vals1 as [|v1 l1 IH]; intros [|v2 l2] Hlen Hs;
    simpl in *; try discriminate; constructor.
  - apply Forall_cons_iff in Hs as [Hs _]. simpl in Hs.
    now apply lower_knot_value.
  - apply Forall_cons_iff in Hs as [_ Hs]. apply (IH l2); [lia|exact Hs].
Qed.

Lemma X22_binary64_lower_sample_is_returned_witness :
  exists out,
    Binary64.linear_interp_1d [Binary64Terms.f1] [Binary64Terms.f0]
      Binary64Terms.f0 Binary64Terms.f49 Binary64Terms.f0 = Ok out
    /\ Forall2 Binary64Terms.same_number out [Binary64Terms.f1].
Proof.
  apply (X22_binary64_lower_sample_is_returned
           [Binary64Terms.f1] [Binary64Terms.f0]
           Binary64Terms.f0 Binary64Terms.f49).
  - reflexivity.
  - vm_compute. reflexivity.
  - vm_compute. reflexivity.
  - repeat constructor.
Defined.

End LookupTablesSpec.

(** * Properties of the attenuation model *)

Module AttenuationSpec.

Import Attenuation AttenuationTerms.
Import Lra.
Local Open Scope R_scope.

(** ** Booleans of comparisons *)

Lemma Rltb_lt (x y : R) : Rltb x y = true <-> x < y.
Proof. unfold Rltb. destruct (Rlt_dec x y); split; auto; discriminate. Qed.

Lemma Rltb_ge (x y : R) : Rltb x y = false <-> y <= x.
Proof.
  unfold Rltb. destruct (Rlt_dec x y); split; auto; try discriminate; lra.
Qed.

Lemma Rleb_le (x y : R) : Rleb x y = true <-> x <= y.
Proof. unfold Rleb. destruct (Rle_dec x y); split; auto; discriminate. Qed.

Lemma Rleb_gt (x y : R) : Rleb x y = false <-> y < x.
Proof.
  unfold Rleb. destruct (Rle_dec x y); split; auto; try discriminate; lra.
Qed.

Ltac decide_comparisons :=
  repeat match goal with
         | |- context [Rltb ?x ?y] =>
             let E := fresh "E" in
             destruct (Rltb x y) eqn:E;
             [apply Rltb_lt in E|apply Rltb_ge in E]
         | |- context [Rleb ?x ?y] =>
             let E := fresh "E" in
             destruct (Rleb x y) eqn:E;
             [apply Rleb_le in E|apply Rleb_gt in E]
         end.

(** ** mantle_domain_fractions *)

(** The blend fraction [x / (2 H)] is tied to [x] by a linear equation. *)
Lemma blend_fraction (x : R) :
  x / (2.0 * P_smooth_halfwidth) * 2.2e9 = x.
Proof.
  unfold P_smooth_halfwidth.
  replace (2.0 * 1.1e9) with 2.2e9 by lra. lra.
Qed.

(** The scalar branch always returns three fractions that sum to one. *)
Lemma mantle_domain_fractions_sum (p t : R) :
  is_fraction_vector (mantle_domain_fractions p t).
Proof.
  unfold is_fraction_vector, mantle_domain_fractions.
  pose proof (blend_fraction
                (p - (pressure_tztop t - P_smooth_halfwidth))) as F1.
  pose proof (blend_fraction
                (p - (pressure_tzbase t - P_smooth_halfwidth))) as F2.
  set (f1 := (p - (pressure_tztop t - P_smooth_halfwidth))
             / (2.0 * P_smooth_halfwidth)) in *.
  set (f2 := (p - (pressure_tzbase t - P_smooth_halfwidth))
             / (2.0 * P_smooth_halfwidth)) in *.
  unfold P_smooth_halfwidth in *.
  decide_comparisons; simpl; do 3 eexists; (split; [reflexivity|]); lra.
Qed.

(** The array branch treats every P-T point by itself. *)
Lemma mantle_domain_fractions_array_rows (ps ts : list R) :
  length ps = length ts ->
  mantle_domain_fractions_array ps ts = map2 array_row ps ts.
Proof.
  unfold mantle_domain_fractions_array, rows_where, map2.
  revert ts. induction ps as [|p ps IH]; intros [|t ts] Hlen;
    try discriminate; [reflexivity|].
  injection Hlen as Hlen. specialize (IH ts Hlen).
  simpl. f_equal. exact IH.
Qed.

(** Where the two bands do not overlap the array branch computes the row
    of the scalar branch. *)
Lemma array_row_apart (p t : R) :
  bands_apart t -> array_row p t = mantle_domain_fractions p t.
Proof.
  unfold bands_apart, array_row, mantle_domain_fractions.
  pose proof (blend_fraction
                (p - (pressure_tztop t - P_smooth_halfwidth))) as F1.
  pose proof (blend_fraction
                (p - (pressure_tzbase t - P_smooth_halfwidth))) as F2.
  set (f1 := (p - (pressure_tztop t - P_smooth_halfwidth))
             / (2.0 * P_smooth_halfwidth)) in *.
  set (f2 := (p - (pressure_tzbase t - P_smooth_halfwidth))
             / (2.0 * P_smooth_halfwidth)) in *.
  unfold P_smooth_halfwidth in *. intros Hap.
  decide_comparisons; simpl; try lra;
    repeat (f_equal; try lra).
Qed.

Lemma mantle_domain_fractions_array_apart (ps ts : list R) :
  length ps = length ts -> Forall bands_apart ts ->
  mantle_domain_fractions_array ps ts = map2 mantle_domain_fractions ps ts
  /\ Forall is_fraction_vector (mantle_domain_fractions_array ps ts).
Proof.
  intros Hlen Hap. rewrite mantle_domain_fractions_array_rows by exact Hlen.
  assert (E : map2 array_row ps ts = map2 mantle_domain_fractions ps ts).
  { unfold map2. revert ts Hlen Hap.
    induction ps as [|p ps IH]; intros [|t ts] Hlen Hap;
      try discriminate; [reflexivity|].
    apply Forall_cons_iff in Hap as [Ht Hts]. simpl.
    rewrite (array_row_apart p t Ht). f_equal. apply IH; auto. }
  split; [exact E|]. rewrite E. unfold map2.
  apply Forall_forall. intros v Hv. apply in_map_iff in Hv.
  destruct Hv as ([p t] & <- & _). apply mantle_domain_fractions_sum.
Qed.

Lemma array_row_overlap :
  array_row 19e9 4000 = [5 / 11; 21 / 44; 23 / 44].
Proof.
  unfold array_row.
  pose proof (blend_fraction
                (19e9 - (pressure_tztop 4000 - P_smooth_halfwidth))) as F1.
  pose proof (blend_fraction
                (19e9 - (pressure_tzbase 4000 - P_smooth_halfwidth))) as F2.
  set (f1 := (19e9 - (pressure_tztop 4000 - P_smooth_halfwidth))
             / (2.0 * P_smooth_halfwidth)) in *.
  set (f2 := (19e9 - (pressure_tzbase 4000 - P_smooth_halfwidth))
             / (2.0 * P_smooth_halfwidth)) in *.
  unfold P_smooth_halfwidth, pressure_tztop, pressure_tzbase, T_ref in *.
  decide_comparisons; simpl; try lra; repeat (f_equal; try lra).
Qed.

Lemma scalar_row_overlap :
  mantle_domain_fractions 19e9 4000 = [5 / 11; 6 / 11; 0].
Proof.
  unfold mantle_domain_fractions.
  pose proof (blend_fraction
                (19e9 - (pressure_tztop 4000 - P_smooth_halfwidth))) as F1.
  set (f1 := (19e9 - (pressure_tztop 4000 - P_smooth_halfwidth))
             / (2.0 * P_smooth_halfwidth)) in *.
  unfold P_smooth_halfwidth, pressure_tztop, pressure_tzbase, T_ref in *.
  decide_comparisons; simpl; try lra; repeat (f_equal; try lra).
Qed.

(** C3 at the failing input: at 4000 K the two blending bands overlap
    (17.8-20.0 GPa and 17.85-20.05 GPa).  For the batch of two points at
    19 GPa and 4000 K the array branch writes the upper-mantle share of
    the first blend and then overwrites the transition-zone share with
    that of the second: each row is [5/11, 21/44, 23/44], which sums to
    16/11, not to 1.  The scalar branch at the same point returns
    [5/11, 6/11, 0]. *)
Theorem C3_array_fractions_where_bands_overlap :
  mantle_domain_fractions_array [19e9; 19e9] [4000; 4000]
  = [[5 / 11; 21 / 44; 23 / 44]; [5 / 11; 21 / 44; 23 / 44]]
  /\ 5 / 11 + 21 / 44 + 23 / 44 = 16 / 11
  /\ mantle_domain_fractions 19e9 4000 = [5 / 11; 6 / 11; 0].
Proof.
  split; [|split].
  - rewrite mantle_domain_fractions_array_rows by reflexivity.
    unfold map2. simpl. now rewrite array_row_overlap.
  - lra.
  - exact scalar_row_overlap.
Qed.

(** ** The scalar call *)

Lemma np_power_square (x : R) : np_power x 2.0 = x * x.
Proof.
  unfold np_power. destruct (Req_EM_T 2.0 2); [reflexivity|exfalso; lra].
Qed.

Lemma np_power_pos (x y : R) : 0 < x -> np_power x y = Rpower x y.
Proof.
  intros Hx. unfold np_power. destruct (Req_EM_T y 2) as [->|]; auto.
  replace 2 with (INR 2) by (simpl; lra).
  rewrite Rpower_pow by exact Hx. simpl. ring.
Qed.

Lemma weighted_sum_ext (t1 t2 : Q_model -> R) (fs : list R)
    (ms : list Q_model) :
  (forall m, t1 m = t2 m) -> weighted_sum t1 fs ms = weighted_sum t2 fs ms.
Proof.
  intros H. revert ms. induction fs as [|f fs IH]; intros [|m ms]; simpl;
    auto. now rewrite H, IH.
Qed.

(** The loop over the materials adds the three weighted sums to its
    accumulator; it ends in [IndexError] exactly when there are more
    fractions than models. *)
Lemma Q_loop_sums (models : list Q_model) (frequency Tm Qt : R)
    (fs : list R) :
  forall i QS QK_ alpha,
  (i + length fs <= length models)%nat ->
  Q_loop models frequency Tm Qt i fs (QS, QK_, alpha)
  = Ok (QS + weighted_sum
               (fun m => Q0 m * np_power frequency (a m)
                         * exp (a m * g m * Tm / Qt))
               fs (skipn i models),
        QK_ + weighted_sum QK fs (skipn i models),
        alpha + weighted_sum a fs (skipn i models)).
Proof.
  induction fs as [|f fs IH]; intros i QS QK_ alpha Hlen.
  - simpl. now rewrite !Rplus_0_r.
  - simpl in Hlen. simpl Q_loop. unfold getitem.
    destruct (nth_error models i) as [m|] eqn:Em.
    2:{ apply nth_error_None in Em. lia. }
    simpl bind. rewrite IH by lia.
    assert (Es : skipn i models = m :: skipn (S i) models).
    { clear - Em. revert i Em.
      induction models as [|m0 ms IHm]; intros [|i] Em; simpl in *;
        try discriminate.
      - now injection Em as ->.
      - now apply IHm. }
    rewrite Es. simpl weighted_sum. do 2 f_equal; [f_equal|]; ring.
Qed.

Lemma Q_loop_short (models : list Q_model) (frequency Tm Qt : R)
    (fs : list R) :
  forall i acc,
  (i <= length models)%nat -> (length models < i + length fs)%nat ->
  Q_loop models frequency Tm Qt i fs acc = Raise IndexError.
Proof.
  induction fs as [|f fs IH]; intros i acc Hi Hlen; simpl in Hlen.
  - lia.
  - simpl. unfold getitem.
    destruct (nth_error models i) as [m|] eqn:Em.
    + simpl. destruct acc as [[QS QK_] alpha].
      assert (i < length models)%nat by (apply nth_error_Some; congruence).
      apply IH; lia.
    + reflexivity.
Qed.

(** The scalar call, step by step. *)
Lemma anelastic_properties_steps (self : AttenuationModelGoes)
    (Vp Vs pressure temperature frequency dT : R) :
  model_mixing_function self pressure temperature <> [] ->
  (length (model_mixing_function self pressure temperature)
   <= length (Q_models self))%nat ->
  Vp <> 0 ->
  anelastic_properties self Vp Vs pressure temperature frequency dT
  = Ok (closed_form self Vp Vs pressure temperature frequency dT).
Proof.
  intros Hne Hlen HVp. unfold anelastic_properties, closed_form, steps.
  destruct (model_mixing_function self pressure temperature)
    as [|f0 fr] eqn:Efr; [congruence|].
  set (fractions := f0 :: fr) in *.
  set (Tm := T_solidus_function self pressure).
  fold (effective_temperature dT temperature Tm).
  set (Qt := effective_temperature dT temperature Tm).
  rewrite Q_loop_sums by (simpl; exact Hlen).
  simpl skipn.
  set (QS := weighted_sum _ fractions (Q_models self)).
  set (QK_ := weighted_sum QK fractions (Q_models self)).
  set (alpha := weighted_sum a fractions (Q_models self)).
  simpl bind.
  replace (0.0 + QS) with QS by lra.
  replace (0.0 + QK_) with QK_ by lra.
  replace (0.0 + alpha) with alpha by lra.
  unfold py_div. destruct (Req_EM_T Vp 0) as [E|_]; [contradiction|].
  simpl bind. rewrite np_power_square.
  set (lmda := 4.0 / 3.0 * (Vs / Vp * (Vs / Vp))).
  set (invQP := (1.0 - lmda) * (1.0 / QK_) + lmda * (1.0 / QS)).
  unfold clamped. replace 0.0 with 0 by lra.
  destruct (Rltb invQP 0); reflexivity.
Qed.

Lemma effective_temperature_cases (dT temperature Tm : R) :
  (temperature - Tm > dT ->
   effective_temperature dT temperature Tm = Tm + dT)
  /\ (~ temperature - Tm > dT ->
      effective_temperature dT temperature Tm = temperature).
Proof.
  unfold effective_temperature. split; intros H.
  - now rewrite (proj2 (Rltb_lt dT (temperature - Tm)) H).
  - rewrite (proj2 (Rltb_ge dT (temperature - Tm))); [reflexivity|lra].
Qed.

Lemma Rpower_one (y : R) : Rpower 1 y = 1.
Proof. unfold Rpower. now rewrite ln_1, Rmult_0_r, exp_0. Qed.

(** C4: in the scalar call, the temperature used for Q is
    [Tm + freeze_offset] when [T - Tm > freeze_offset] and [T] otherwise;
    for a positive frequency, a non-zero [elastic_Vp], a non-zero
    temperature for Q, and fractions for some and at most all of the
    models, the call returns [T_solidus = Tm] and [Q_S] equal to the
    fraction-weighted sum of
    [Q0_i * frequency^a_i * exp(a_i * g_i * Tm / Q_temperature)].  The
    single-material engine with Q0=35, g=10, a=0.15, QK=1000, solidus at
    1600 K, called with T=1600 K, frequency 1 Hz, elastic_Vp=8000 and
    elastic_Vs=4500, returns [Q_S = 35 * exp(1.5)]. *)
Theorem C4_effective_temperature_and_QS :
  (forall (self : AttenuationModelGoes)
          (Vp Vs pressure temperature frequency dT : R),
      let fractions := model_mixing_function self pressure temperature in
      let Tm := T_solidus_function self pressure in
      let Qt := effective_temperature dT temperature Tm in
      (temperature - Tm > dT -> Qt = Tm + dT)
      /\ (~ temperature - Tm > dT -> Qt = temperature)
      /\ (0 < frequency -> Vp <> 0 -> Qt <> 0 ->
          fractions <> [] ->
          (length fractions <= length (Q_models self))%nat ->
          exists r,
            anelastic_properties self Vp Vs pressure temperature frequency dT
            = Ok r
            /\ T_solidus r = Tm
            /\ Q_S r
               = weighted_sum (QS_term frequency Tm Qt) fractions
                   (Q_models self)))
  /\ (forall pressure, exists r,
         anelastic_properties single_material 8000 4500 pressure 1600 1 0
         = Ok r
         /\ Q_S r = 35 * exp 1.5).
Proof.
  split.
  - intros self Vp Vs pressure temperature frequency dT fractions Tm Qt.
    destruct (effective_temperature_cases dT temperature Tm) as [H1 H2].
    split; [exact H1|]. split; [exact H2|].
    intros Hf HVp _ Hne Hlen. eexists. split.
    + now apply anelastic_properties_steps.
    + split; [reflexivity|]. unfold closed_form, steps. simpl Q_S.
      apply weighted_sum_ext.
      intros m. unfold QS_term. now rewrite np_power_pos.
  - intros pressure. eexists. split.
    + apply anelastic_properties_steps; [discriminate|simpl; lia|lra].
    + unfold closed_form, steps. simpl Q_S. simpl weighted_sum.
      assert (Et : effective_temperature 0 1600 1600 = 1600).
      { apply effective_temperature_cases. lra. }
      rewrite Et, np_power_pos, Rpower_one by lra.
      replace (0.15 * 10.0 * 1600 / 1600) with 1.5 by lra.
      lra.
Qed.

Lemma C4_effective_temperature_and_QS_witness :
  effective_temperature 100 2000 1600 = 1600 + 100
  /\ exists r,
       anelastic_properties single_material 8000 4500 20e9 2000 1 100 = Ok r
       /\ T_solidus r = 1600
       /\ Q_S r
          = weighted_sum
              (QS_term 1 1600 (effective_temperature 100 2000 1600))
              [1.0] (Q_models single_material).
Proof.
  destruct C4_effective_temperature_and_QS as [H _].
  destruct (H single_material 8000 4500 20e9 2000 1 100) as (H1 & _ & H3).
  simpl in H1, H3.
  assert (E : effective_temperature 100 2000 1600 = 1600 + 100)
    by (apply H1; lra).
  split; [exact E|].
  apply H3; [lra|lra|rewrite E; lra|discriminate|simpl; lia].
Defined.

(** ** Arrays, element by element *)

Lemma length_map2 {A B C : Type} (f : A -> B -> C) (l1 : list A)
    (l2 : list B) :
  length (map2 f l1 l2) = Nat.min (length l1) (length l2).
Proof. unfold map2. now rewrite length_map, length_combine. Qed.

Lemma nth_map2 {A B C : Type} (f : A -> B -> C) (l1 : list A) (l2 : list B)
    (k : nat) (d1 : A) (d2 : B) (d : C) :
  (k < length l1)%nat -> (k < length l2)%nat ->
  nth k (map2 f l1 l2) d = f (nth k l1 d1) (nth k l2 d2).
Proof.
  revert l2 k. induction l1 as [|x l1 IH]; intros [|y l2] [|k] H1 H2;
    simpl in *; try lia; [reflexivity|].
  apply IH; lia.
Qed.

Lemma nth_map1 {A B : Type} (f : A -> B) (l : list A) (k : nat)
    (d1 : A) (d : B) :
  (k < length l)%nat -> nth k (map f l) d = f (nth k l d1).
Proof.
  intros H. rewrite (nth_indep _ d (f d1)) by now rewrite length_map.
  apply map_nth.
Qed.

Lemma length_where_set {A : Type} (mask : list bool) (new old : list A) :
  length (where_set mask new old)
  = Nat.min (length mask) (Nat.min (length new) (length old)).
Proof. unfold where_set. now rewrite length_map2, length_combine. Qed.

Lemma nth_where_set {A : Type} (mask : list bool) (new old : list A)
    (k : nat) (d : A) :
  (k < length mask)%nat -> (k < length new)%nat -> (k < length old)%nat ->
  nth k (where_set mask new old) d
  = if nth k mask false then nth k new d else nth k old d.
Proof.
  intros H1 H2 H3. unfold where_set.
  rewrite (nth_map2 _ _ _ k false (d, d))
    by (rewrite ?length_combine; lia).
  revert new old k H1 H2 H3.
  induction mask as [|m mask IH]; intros [|x new] [|y old] [|k] H1 H2 H3;
    simpl in *; try lia; [reflexivity|].
  apply IH; lia.
Qed.

Lemma length_where_fill {A : Type} (mask : list bool) (v : A)
    (old : list A) :
  length (where_fill mask v old) = Nat.min (length mask) (length old).
Proof. unfold where_fill. now rewrite length_map2. Qed.

Lemma nth_where_fill {A : Type} (mask : list bool) (v : A) (old : list A)
    (k : nat) (d : A) :
  (k < length mask)%nat -> (k < length old)%nat ->
  nth k (where_fill mask v old) d
  = if nth k mask false then v else nth k old d.
Proof.
  intros H1 H2. unfold where_fill.
  now rewrite (nth_map2 _ _ _ k false d) by assumption.
Qed.

Lemma list_of_nths {A : Type} (l : list A) (d : A) :
  map (fun j => nth j l d) (seq 0 (length l)) = l.
Proof.
  induction l as [|x l IH]; [reflexivity|].
  simpl. f_equal. rewrite <- seq_shift, map_map. exact IH.
Qed.

(** The materials' columns of a rectangular array, read along a row, are
    that row. *)
Lemma transpose_row (m : list (list R)) (w k : nat) :
  Forall (fun row => length row = w) m -> (k < length m)%nat ->
  map (fun c => nth k c 0) (transpose m) = nth k m [].
Proof.
  intros Hw Hk. unfold transpose.
  destruct m as [|r m']; [simpl in Hk; lia|].
  set (m := r :: m') in *.
  assert (Hr : length r = w) by (inversion Hw; assumption).
  assert (Hrow : length (nth k m []) = w).
  { rewrite Forall_forall in Hw. apply Hw. now apply nth_In. }
  rewrite map_map, Hr, <- Hrow.
  rewrite <- (list_of_nths (nth k m []) 0) at 2.
  apply map_ext. intros j.
  now rewrite (nth_map1 (fun row => nth j row 0) m k []).
Qed.

Lemma transpose_columns (m : list (list R)) (w : nat) :
  Forall (fun row => length row = w) m ->
  (length (transpose m) <= w)%nat
  /\ Forall (fun c => length c = length m) (transpose m).
Proof.
  intros Hw. unfold transpose.
  destruct m as [|r m']; [simpl; split; [lia|constructor]|].
  set (m := r :: m') in *.
  assert (Hr : length r = w) by (inversion Hw; assumption).
  split.
  - rewrite length_map, length_seq. lia.
  - apply Forall_forall. intros c Hc. apply in_map_iff in Hc.
    destruct Hc as (j & <- & _). now rewrite length_map.
Qed.

(** The array loop over the materials runs, at every element, the scalar
    loop on that element's row of fractions. *)
Lemma Q_loop_array_pointwise (models : list Q_model) (frequency : R)
    (Tm Qt : list R) (n : nat) :
  length Tm = n -> length Qt = n ->
  forall cols i QS QK_ alpha,
  Forall (fun c => length c = n) cols ->
  length QS = n -> length QK_ = n -> length alpha = n ->
  (i + length cols <= length models)%nat ->
  exists QS' QK' alpha',
    Q_loop_array models frequency Tm Qt i cols (QS, QK_, alpha)
    = Ok (QS', QK', alpha')
    /\ length QS' = n /\ length QK' = n /\ length alpha' = n
    /\ forall k, (k < n)%nat ->
         Q_loop models frequency (nth k Tm 0) (nth k Qt 0) i
           (map (fun c => nth k c 0) cols)
           (nth k QS 0, nth k QK_ 0, nth k alpha 0)
         = Ok (nth k QS' 0, nth k QK' 0, nth k alpha' 0).
Proof.
  intros HTm HQt.
  induction cols as [|f cols IH]; intros i QS QK_ alpha Hc H1 H2 H3 Hlen.
  - exists QS, QK_, alpha. simpl. auto.
  - apply Forall_cons_iff in Hc as [Hf Hcols]. simpl in Hlen.
    simpl Q_loop_array. unfold getitem.
    destruct (nth_error models i) as [m|] eqn:Em.
    2:{ apply nth_error_None in Em. lia. }
    simpl bind.
    edestruct (IH (S i)) as (QS' & QK' & alpha' & E & L1 & L2 & L3 & Hk);
      [exact Hcols| | | |lia| ].
    4:{ exists QS', QK', alpha'. split; [exact E|].
        split; [exact L1|]. split; [exact L2|]. split; [exact L3|].
        intros k Hlt. specialize (Hk k Hlt).
        simpl map. simpl Q_loop. unfold getitem. rewrite Em. simpl bind.
        rewrite <- Hk. f_equal. f_equal; [f_equal|].
        - rewrite (nth_map2 Rplus _ _ k 0 0),
            (nth_map2 Rmult _ _ k 0 0),
            (nth_map2 _ Tm Qt k 0 0);
            rewrite ?length_map2; try lia. reflexivity.
        - rewrite (nth_map2 Rplus _ _ k 0 0), (nth_map1 _ f k 0);
            rewrite ?length_map; try lia. reflexivity.
        - rewrite (nth_map2 Rplus _ _ k 0 0), (nth_map1 _ f k 0);
            rewrite ?length_map; try lia. reflexivity. }
    + rewrite !length_map2. lia.
    + rewrite length_map2, length_map. lia.
    + rewrite length_map2, length_map. lia.
Qed.

Lemma freeze_masks_agree (dT t tm : R) :
  (if Rltb (tm + dT) t then tm + dT else t) = effective_temperature dT t tm.
Proof.
  unfold effective_temperature.
  destruct (Rltb (tm + dT) t) eqn:E1; destruct (Rltb dT (t - tm)) eqn:E2;
    try reflexivity.
  - apply Rltb_lt in E1. apply Rltb_ge in E2. lra.
  - apply Rltb_ge in E1. apply Rltb_lt in E2. lra.
Qed.

(** Steps 1-4 of the array call: at every element the three sums are
    those of the scalar steps on that element's row of fractions. *)
Lemma array_sums (self : AttenuationModelGoes) (rowf : R -> R -> list R)
    (P T : list R) (frequency dT : R) :
  rowwise self rowf -> length P = length T ->
  let Tm := T_solidus_function_array self P in
  let idx := map2 (fun t tm => Rltb (tm + dT) t) T Tm in
  let Qt := where_set idx (map (fun tm => tm + dT) Tm) T in
  let zeros := map (fun _ : R => 0.0) T in
  exists QS QK_ alpha,
    Q_loop_array (Q_models self) frequency Tm Qt 0
      (transpose (model_mixing_function_array self P T))
      (zeros, zeros, zeros) = Ok (QS, QK_, alpha)
    /\ length Tm = length T
    /\ length QS = length T /\ length QK_ = length T
    /\ length alpha = length T
    /\ forall k, (k < length T)%nat ->
         let fr := rowf (nth k P 0) (nth k T 0) in
         let tm := T_solidus_function self (nth k P 0) in
         let qt := effective_temperature dT (nth k T 0) tm in
         nth k Tm 0 = tm
         /\ nth k QS 0
            = weighted_sum
                (fun m => Q0 m * np_power frequency (a m)
                          * exp (a m * g m * tm / qt))
                fr (Q_models self)
         /\ nth k QK_ 0 = weighted_sum QK fr (Q_models self)
         /\ nth k alpha 0 = weighted_sum a fr (Q_models self).
Proof.
  intros (E1 & E2 & E3) HP Tm idx Qt zeros.
  assert (LTm : length Tm = length T)
    by (subst Tm; rewrite E1, length_map; exact HP).
  assert (Lidx : length idx = length T)
    by (subst idx; rewrite length_map2; lia).
  assert (LQt : length Qt = length T)
    by (subst Qt; rewrite length_where_set, length_map; lia).
  assert (Lz : length zeros = length T) by (subst zeros; apply length_map).
  set (fr := model_mixing_function_array self P T).
  assert (Lfr : length fr = length T)
    by (subst fr; rewrite E2, length_map2 by exact HP; lia).
  assert (Wfr : Forall (fun row => length row = length (Q_models self)) fr).
  { subst fr. rewrite E2 by exact HP. unfold map2. apply Forall_forall.
    intros row Hrow. apply in_map_iff in Hrow.
    destruct Hrow as ([p t] & <- & _). apply E3. }
  destruct (transpose_columns fr _ Wfr) as [Lc Hc]. rewrite Lfr in Hc.
  destruct (Q_loop_array_pointwise (Q_models self) frequency Tm Qt
              (length T) LTm LQt (transpose fr) 0 zeros zeros zeros
              Hc Lz Lz Lz ltac:(simpl; lia))
    as (QS & QK_ & alpha & E & L1 & L2 & L3 & Hk).
  exists QS, QK_, alpha.
  split; [exact E|]. split; [exact LTm|].
  split; [exact L1|]. split; [exact L2|]. split; [exact L3|].
  intros k Hlt frk tm qt. specialize (Hk k Hlt).
  rewrite (transpose_row fr (length (Q_models self)) k Wfr) in Hk
    by (rewrite Lfr; exact Hlt).
  assert (Efr : nth k fr [] = frk).
  { subst fr frk. rewrite E2 by exact HP.
    apply (nth_map2 rowf P T k 0 0); lia. }
  assert (Etm : nth k Tm 0 = tm).
  { subst Tm tm. rewrite E1.
    apply (nth_map1 (T_solidus_function self) P k 0). lia. }
  assert (Eqt : nth k Qt 0 = qt).
  { subst Qt qt. rewrite nth_where_set by (rewrite ?length_map; lia).
    subst idx.
    rewrite (nth_map2 (fun t tm0 => Rltb (tm0 + dT) t) T Tm k 0 0) by lia.
    rewrite (nth_map1 (fun tm0 => tm0 + dT) Tm k 0) by lia.
    rewrite Etm. apply freeze_masks_agree. }
  assert (Ez : nth k zeros 0 = 0.0).
  { subst zeros. apply (nth_map1 (fun _ : R => 0.0) T k 0). exact Hlt. }
  rewrite Efr, Etm, Eqt, Ez in Hk.
  rewrite Q_loop_sums in Hk by (simpl; subst frk; rewrite E3; lia).
  simpl skipn in Hk. injection Hk as H1 H2 H3.
  split; [exact Etm|]. repeat split; lra.
Qed.

Lemma nth_map2_R {C : Type} (f : R -> R -> C) (l1 l2 : list R) (k : nat)
    (d : C) :
  (k < length l1)%nat -> (k < length l2)%nat ->
  nth k (map2 f l1 l2) d = f (nth k l1 0) (nth k l2 0).
Proof. apply nth_map2. Qed.

Lemma nth_map1_R {C : Type} (f : R -> C) (l : list R) (k : nat) (d : C) :
  (k < length l)%nat -> nth k (map f l) d = f (nth k l 0).
Proof. apply nth_map1. Qed.

Ltac lens :=
  repeat first [rewrite length_where_set | rewrite length_where_fill
               |rewrite length_map2 | rewrite length_map];
  lia.

(** Step 5 as the array branch makes it, on one element. *)
Lemma clamp_masks_agree (invQP : R) :
  let idx := Rleb invQP 0.0 in
  let invQP' := if idx then 0.0 else invQP in
  let QP := if idx then PosInf else Finite 0.0 in
  invQP' = fst (clamped invQP)
  /\ (if Rltb 0.0 invQP' then np_inv invQP' else QP) = snd (clamped invQP).
Proof.
  unfold clamped, np_inv. replace 0.0 with 0 by lra.
  destruct (Rleb invQP 0) eqn:E1; destruct (Rltb invQP 0) eqn:E2; simpl;
    [apply Rleb_le in E1|apply Rleb_le in E1
    |apply Rleb_gt in E1|apply Rleb_gt in E1];
    [apply Rltb_lt in E2|apply Rltb_ge in E2
    |apply Rltb_lt in E2|apply Rltb_ge in E2].
  - rewrite (proj2 (Rltb_ge 0 0)) by lra. auto.
  - assert (invQP = 0) by lra. subst.
    rewrite (proj2 (Rltb_ge 0 0)) by lra.
    destruct (Req_EM_T 0 0); [auto|lra].
  - lra.
  - rewrite (proj2 (Rltb_lt 0 invQP)) by lra. auto.
Qed.

(** The array call returns, at every element, steps 3-7 on that element's
    row of fractions. *)
Lemma anelastic_properties_array_pointwise (self : AttenuationModelGoes)
    (rowf : R -> R -> list R) (Vp Vs P T : list R) (frequency dT : R) :
  rowwise self rowf ->
  length Vp = length T -> length Vs = length T -> length P = length T ->
  exists r,
    anelastic_properties_array self Vp Vs P T frequency dT = Ok r
    /\ (length (V_P r) = length T /\ length (V_S r) = length T
        /\ length (Q_S r) = length T /\ length (Q_K r) = length T
        /\ length (Q_P r) = length T /\ length (T_solidus r) = length T)
    /\ forall k, (k < length T)%nat ->
         let c := steps (Q_models self) (rowf (nth k P 0) (nth k T 0))
                    (T_solidus_function self (nth k P 0))
                    (nth k Vp 0) (nth k Vs 0) (nth k T 0) frequency dT in
         nth k (V_P r) 0 = V_P c /\ nth k (V_S r) 0 = V_S c
         /\ nth k (Q_S r) 0 = Q_S c /\ nth k (Q_K r) 0 = Q_K c
         /\ nth k (Q_P r) (Finite 0) = Q_P c
         /\ nth k (T_solidus r) 0 = T_solidus c.
Proof.
  intros Hel HVp HVs HP.
  destruct (array_sums self _ P T frequency dT Hel HP)
    as (QS & QK_ & alpha & E & LTm & L1 & L2 & L3 & Hk).
  unfold anelastic_properties_array. rewrite E. simpl bind.
  eexists. split; [reflexivity|]. simpl.
  split.
  { repeat split; try assumption; lens. }
  intros k Hlt. destruct (Hk k Hlt) as (Etm & EQS & EQK & Eal).
  unfold steps. simpl.
  set (fr := rowf (nth k P 0) (nth k T 0)) in *.
  set (tm := T_solidus_function self (nth k P 0)) in *.
  set (qt := effective_temperature dT (nth k T 0) tm) in *.
  rewrite <- EQS, <- EQK, <- Eal.
  set (lm := 4.0 / 3.0 * (nth k Vs 0 / nth k Vp 0 * (nth k Vs 0 / nth k Vp 0))).
  set (iq := (1.0 - lm) * (1.0 / nth k QK_ 0) + lm * (1.0 / nth k QS 0)).
  destruct (clamp_masks_agree iq) as [C1 C2].
  assert (Eiq : nth k
                  (map2 Rplus
                     (map2 (fun l k0 => (1.0 - l) * k0)
                        (map2 (fun vs vp => 4.0 / 3.0 * np_power (vs / vp) 2.0)
                           Vs Vp)
                        (map (fun q => 1.0 / q) QK_))
                     (map2 Rmult
                        (map2 (fun vs vp => 4.0 / 3.0 * np_power (vs / vp) 2.0)
                           Vs Vp)
                        (map (fun q => 1.0 / q) QS))) 0 = iq).
  { rewrite nth_map2_R by lens. rewrite !nth_map2_R by lens.
    rewrite !nth_map1_R by lia. rewrite np_power_square. reflexivity. }
  repeat split.
  - rewrite nth_map2_R by lens. rewrite nth_map2_R by lens.
    rewrite nth_where_fill by lens.
    rewrite (nth_map1_R (fun x => Rleb x 0.0)) by lens.
    rewrite Eiq, <- C1. reflexivity.
  - rewrite nth_map2_R by lens. rewrite nth_map2_R by lens.
    rewrite nth_map1_R by lia. reflexivity.
  - rewrite nth_where_set by lens.
    rewrite (nth_map1_R (fun x => Rltb 0.0 x)) by lens.
    rewrite (nth_map1_R np_inv) by lens.
    rewrite !nth_where_fill by lens.
    rewrite (nth_map1_R (fun x => Rleb x 0.0)) by lens.
    rewrite (nth_map1_R (fun _ => Finite 0.0)) by lia.
    rewrite Eiq. exact C2.
  - exact Etm.
Qed.

(** ** The two calls side by side *)

(** For a configuration with at least one material that acts element by
    element, the array call on arrays of one length with two or more
    elements returns at every element with a non-zero
    [elastic_Vp] what the scalar call returns there: the freezing of
    step 3 and the clamping of step 5 are made per element. *)
Lemma array_call_agrees_with_scalar_call (self : AttenuationModelGoes)
    (Vp Vs P T : list R) (frequency dT : R) :
  elementwise self -> Q_models self <> [] -> (2 <= length T)%nat ->
  length Vp = length T -> length Vs = length T -> length P = length T ->
  exists r,
    anelastic_properties_array self Vp Vs P T frequency dT = Ok r
    /\ forall k, (k < length T)%nat -> nth k Vp 0 <> 0 ->
         anelastic_properties self (nth k Vp 0) (nth k Vs 0) (nth k P 0)
           (nth k T 0) frequency dT
         = Ok (mkAnelastic (nth k (V_P r) 0) (nth k (V_S r) 0)
                           (nth k (Q_S r) 0) (nth k (Q_K r) 0)
                           (nth k (Q_P r) (Finite 0))
                           (nth k (T_solidus r) 0)).
Proof.
  intros Hel Hmod _ HVp HVs HP.
  destruct (anelastic_properties_array_pointwise self _ Vp Vs P T
              frequency dT Hel HVp HVs HP) as (r & E & _ & Hk).
  exists r. split; [exact E|]. intros k Hlt Hne.
  destruct (Hk k Hlt) as (H1 & H2 & H3 & H4 & H5 & H6).
  destruct Hel as (_ & _ & E3).
  rewrite anelastic_properties_steps.
  - unfold closed_form. rewrite H1, H2, H3, H4, H5, H6.
    now destruct (steps _ _ _ _ _ _ _ _).
  - intros Efr. specialize (E3 (nth k P 0) (nth k T 0)).
    rewrite Efr in E3. destruct (Q_models self); [congruence|discriminate].
  - rewrite E3. lia.
  - exact Hne.
Qed.

Lemma array_row_length (p t : R) : length (array_row p t) = 3%nat.
Proof.
  unfold array_row.
  repeat match goal with
         | |- context [if ?b then _ else _] => destruct b
         end; reflexivity.
Qed.

(** The models of the source act row by row, by [array_row]. *)
Lemma goes_model_rowwise (solidus : R -> R) (models : list Q_model) :
  length models = 3%nat -> rowwise (goes_model solidus models) array_row.
Proof.
  intros H. split; [|split]; simpl.
  - reflexivity.
  - intros ps ts. apply mantle_domain_fractions_array_rows.
  - intros p t. now rewrite array_row_length.
Qed.

Lemma two_elements (l : list R) (x y : R) :
  length l = 2%nat -> nth 0 l 0 = x -> nth 1 l 0 = y -> l = [x; y].
Proof.
  destruct l as [|u [|v [|w l]]]; try discriminate. simpl.
  now intros _ -> ->.
Qed.

(** C1 at the failing input: with the model Q4g of the source, whatever
    its solidus function, the scalar call at 19 GPa and 4000 K returns
    [Q_K = 1000], and the array call on two such points returns
    [Q_K = 16000/11] at each, because the array branch of
    [mantle_domain_fractions] hands it fractions that sum to 16/11. *)
Theorem C1_array_call_differs_for_Q4g (solidus : R -> R) :
  (exists r,
      anelastic_properties (Q4g solidus) 8000 4500 19e9 4000 1 0 = Ok r
      /\ Q_K r = 1000)
  /\ (exists r,
         anelastic_properties_array (Q4g solidus) [8000; 8000] [4500; 4500]
           [19e9; 19e9] [4000; 4000] 1 0 = Ok r
         /\ Q_K r = [16000 / 11; 16000 / 11]).
Proof.
  split.
  - eexists. split.
    + apply anelastic_properties_steps; [| |lra];
        simpl model_mixing_function; rewrite scalar_row_overlap;
        [discriminate|simpl; lia].
    + unfold closed_form, steps. simpl Q_K. simpl model_mixing_function.
      rewrite scalar_row_overlap. simpl. lra.
  - destruct (anelastic_properties_array_pointwise (Q4g solidus) array_row
                [8000; 8000] [4500; 4500] [19e9; 19e9] [4000; 4000] 1 0)
      as (r & E & (_ & _ & _ & L & _) & Hk); try reflexivity.
    { now apply goes_model_rowwise. }
    exists r. split; [exact E|].
    apply two_elements; [exact L| |].
    + destruct (Hk 0%nat) as (_ & _ & _ & H & _); [simpl; lia|].
      rewrite H. unfold steps. simpl. rewrite array_row_overlap. simpl. lra.
    + destruct (Hk 1%nat) as (_ & _ & _ & H & _); [simpl; lia|].
      rewrite H. unfold steps. simpl. rewrite array_row_overlap. simpl. lra.
Qed.

(** ** Step 5 *)

Lemma invQP_forms (QS QK_ Vs Vp : R) :
  (1.0 - 4.0 / 3.0 * (Vs / Vp * (Vs / Vp))) * (1.0 / QK_)
  + 4.0 / 3.0 * (Vs / Vp * (Vs / Vp)) * (1.0 / QS)
  = (1.0 - 4.0 / 3.0 * (Vs / Vp) ^ 2) / QK_
    + 4.0 / 3.0 * (Vs / Vp) ^ 2 / QS.
Proof.
  replace 1.0 with 1 by lra.
  replace (4.0 / 3.0) with (4 / 3) by lra.
  unfold Rdiv. ring.
Qed.

(** Step 5 on the written-out steps, with [invQP] as the specification
    writes it. *)
Lemma steps_clamp (models : list Q_model) (fr : list R)
    (Tm Vp Vs temperature frequency dT : R) :
  let r := steps models fr Tm Vp Vs temperature frequency dT in
  let alpha := weighted_sum a fr models in
  let lambda := 4.0 / 3.0 * (Vs / Vp) ^ 2 in
  let invQP := (1.0 - lambda) / Q_K r + lambda / Q_S r in
  (invQP < 0 ->
   Q_P r = PosInf
   /\ V_P r = Vp * (1.0 - 0 / (2.0 * tan (PI * alpha / 2.0))))
  /\ (0 <= invQP ->
      Q_P r = np_inv invQP
      /\ V_P r = Vp * (1.0 - invQP / (2.0 * tan (PI * alpha / 2.0)))).
Proof.
  unfold steps. cbn [Q_K Q_S Q_P V_P].
  set (QK_ := weighted_sum QK fr models).
  set (alpha := weighted_sum a fr models).
  set (QS := weighted_sum _ fr models).
  rewrite invQP_forms.
  set (invQP := (1.0 - 4.0 / 3.0 * (Vs / Vp) ^ 2) / QK_
                + 4.0 / 3.0 * (Vs / Vp) ^ 2 / QS).
  unfold clamped. split; intros H.
  - rewrite (proj2 (Rltb_lt invQP 0) H). auto.
  - rewrite (proj2 (Rltb_ge invQP 0) H). auto.
Qed.

(** C5, as the code has it: with
    [lambda = (4/3) * (elastic_Vs / elastic_Vp)^2] and
    [invQ_P = (1 - lambda)/Q_K + lambda/Q_S], a negative [invQ_P] is
    clamped to 0 (it enters [V_P] as 0) and [Q_P] is [+infinity];
    otherwise [Q_P] is numpy's [1 / invQ_P] ([+infinity] at 0) and
    [invQ_P] enters [V_P] as it is.  The scalar call raises nothing in this
    step when [elastic_Vp] is not zero (and the steps before it went
    through: fractions for some and at most all of the models, a non-zero
    temperature for Q); the array call raises nothing for arrays of one
    length with two or more elements, and does the same at every element
    with a non-zero [elastic_Vp]. *)
Theorem C5_invQP_is_clamped :
  (forall (self : AttenuationModelGoes)
          (Vp Vs pressure temperature frequency dT : R),
      let fractions := model_mixing_function self pressure temperature in
      Vp <> 0 ->
      effective_temperature dT temperature (T_solidus_function self pressure)
      <> 0 ->
      fractions <> [] ->
      (length fractions <= length (Q_models self))%nat ->
      exists r,
        anelastic_properties self Vp Vs pressure temperature frequency dT
        = Ok r
        /\ let alpha := weighted_sum a fractions (Q_models self) in
           let lambda := 4.0 / 3.0 * (Vs / Vp) ^ 2 in
           let invQP := (1.0 - lambda) / Q_K r + lambda / Q_S r in
           (invQP < 0 ->
            Q_P r = PosInf
            /\ V_P r = Vp * (1.0 - 0 / (2.0 * tan (PI * alpha / 2.0))))
           /\ (0 <= invQP ->
               Q_P r = np_inv invQP
               /\ V_P r
                  = Vp * (1.0 - invQP / (2.0 * tan (PI * alpha / 2.0)))))
  /\ (forall (self : AttenuationModelGoes) (rowf : R -> R -> list R)
             (Vp Vs P T : list R) (frequency dT : R),
         rowwise self rowf -> (2 <= length T)%nat ->
         length Vp = length T -> length Vs = length T ->
         length P = length T ->
         exists r,
           anelastic_properties_array self Vp Vs P T frequency dT = Ok r
           /\ forall k, (k < length T)%nat -> nth k Vp 0 <> 0 ->
                let alpha :=
                  weighted_sum a (rowf (nth k P 0) (nth k T 0))
                    (Q_models self) in
                let lambda := 4.0 / 3.0 * (nth k Vs 0 / nth k Vp 0) ^ 2 in
                let invQP := (1.0 - lambda) / nth k (Q_K r) 0
                             + lambda / nth k (Q_S r) 0 in
                (invQP < 0 ->
                 nth k (Q_P r) (Finite 0) = PosInf
                 /\ nth k (V_P r) 0
                    = nth k Vp 0
                      * (1.0 - 0 / (2.0 * tan (PI * alpha / 2.0))))
                /\ (0 <= invQP ->
                    nth k (Q_P r) (Finite 0) = np_inv invQP
                    /\ nth k (V_P r) 0
                       = nth k Vp 0
                         * (1.0 - invQP / (2.0 * tan (PI * alpha / 2.0))))).
Proof.
  split.
  - intros self Vp Vs pressure temperature frequency dT fractions
           HVp _ Hne Hlen.
    eexists. split; [now apply anelastic_properties_steps|].
    unfold closed_form. apply steps_clamp.
  - intros self rowf Vp Vs P T frequency dT Hrow _ HVp HVs HP.
    destruct (anelastic_properties_array_pointwise self rowf Vp Vs P T
                frequency dT Hrow HVp HVs HP) as (r & E & _ & Hk).
    exists r. split; [exact E|]. intros k Hlt _.
    destruct (Hk k Hlt) as (H1 & _ & H3 & H4 & H5 & _).
    rewrite H1, H3, H4, H5. apply steps_clamp.
Qed.

(** C5 as stated fails: a scalar call with [elastic_Vp = 0.0] divides two
    Python floats when it computes [lambda], and ends in
    [ZeroDivisionError]. *)
Lemma C5_zero_Vp_raises :
  anelastic_properties single_material 0 4500 20e9 1600 1 0
  = Raise ZeroDivisionError.
Proof.
  unfold anelastic_properties.
  rewrite Q_loop_sums by (simpl; lia). simpl bind.
  unfold py_div. destruct (Req_EM_T 0 0) as [_|H]; [reflexivity|].
  now contradiction H.
Qed.

Lemma C5_invQP_is_clamped_witness :
  exists r,
    anelastic_properties single_material 8000 4500 20e9 1600 1 0 = Ok r
    /\ let alpha := weighted_sum a [1.0] (Q_models single_material) in
       let lambda := 4.0 / 3.0 * (4500 / 8000) ^ 2 in
       let invQP := (1.0 - lambda) / Q_K r + lambda / Q_S r in
       (invQP < 0 ->
        Q_P r = PosInf
        /\ V_P r = 8000 * (1.0 - 0 / (2.0 * tan (PI * alpha / 2.0))))
       /\ (0 <= invQP ->
           Q_P r = np_inv invQP
           /\ V_P r = 8000 * (1.0 - invQP / (2.0 * tan (PI * alpha / 2.0)))).
Proof.
  destruct C5_invQP_is_clamped as [H _].
  apply (H single_material 8000 4500 20e9 1600 1 0).
  - lra.
  - simpl. rewrite (proj2 (effective_temperature_cases 0 1600 1600)); lra.
  - discriminate.
  - simpl. lia.
Defined.

(** ** More on mantle_domain_fractions *)

(** X12: for floats, [mantle_domain_fractions] returns at every pressure
    and temperature three fractions, each between 0 and 1, that sum to
    one. *)
Theorem X12_scalar_fractions_sum_to_one (p t : R) :
  is_fraction_vector (mantle_domain_fractions p t).
Proof. apply mantle_domain_fractions_sum. Qed.

Lemma bands_apart_threshold (t : R) : bands_apart t <-> t <= 81250 / 23.
Proof.
  unfold bands_apart, pressure_tztop, pressure_tzbase, P_smooth_halfwidth,
    T_ref. split; intros H; lra.
Qed.

(** X13: on arrays of one length with two or more elements and no
    temperature above 81250/23 K (about 3532.6 K, up to where the two
    blending bands do not overlap), [mantle_domain_fractions] returns at
    every element the three fractions it returns for the floats of that
    element, and they sum to one. *)
Theorem X13_array_fractions_agree_below_3532K (ps ts : list R) :
  length ps = length ts -> (2 <= length ts)%nat ->
  Forall (fun t => t <= 81250 / 23) ts ->
  mantle_domain_fractions_array ps ts = map2 mantle_domain_fractions ps ts
  /\ Forall is_fraction_vector (mantle_domain_fractions_array ps ts).
Proof.
  intros Hlen _ Hts. apply mantle_domain_fractions_array_apart; [exact Hlen|].
  rewrite Forall_forall in *. intros t Ht.
  apply bands_apart_threshold. now apply Hts.
Qed.

Lemma X13_array_fractions_agree_below_3532K_witness :
  mantle_domain_fractions_array [10e9; 19e9] [1600; 2000]
  = map2 mantle_domain_fractions [10e9; 19e9] [1600; 2000]
  /\ Forall is_fraction_vector
       (mantle_domain_fractions_array [10e9; 19e9] [1600; 2000]).
Proof.
  apply (X13_array_fractions_agree_below_3532K [10e9; 19e9] [1600; 2000]).
  - reflexivity.
  - simpl. lia.
  - repeat constructor; lra.
Defined.

(** X14: for floats, raising the pressure at a fixed temperature never
    raises the upper-mantle fraction and never lowers the lower-mantle
    fraction. *)
Theorem X14_fractions_shift_with_pressure (p1 p2 t : R) :
  p1 <= p2 ->
  nth 0 (mantle_domain_fractions p2 t) 0
  <= nth 0 (mantle_domain_fractions p1 t) 0
  /\ nth 2 (mantle_domain_fractions p1 t) 0
     <= nth 2 (mantle_domain_fractions p2 t) 0.
Proof.
  intros Hp. unfold mantle_domain_fractions.
  pose proof (blend_fraction
                (p1 - (pressure_tztop t - P_smooth_halfwidth))) as F1.
  pose proof (blend_fraction
                (p1 - (pressure_tzbase t - P_smooth_halfwidth))) as F2.
  pose proof (blend_fraction
                (p2 - (pressure_tztop t - P_smooth_halfwidth))) as G1.
  pose proof (blend_fraction
                (p2 - (pressure_tzbase t - P_smooth_halfwidth))) as G2.
  set (f1 := (p1 - (pressure_tztop t - P_smooth_halfwidth))
             / (2.0 * P_smooth_halfwidth)) in *.
  set (f2 := (p1 - (pressure_tzbase t - P_smooth_halfwidth))
             / (2.0 * P_smooth_halfwidth)) in *.
  set (g1 := (p2 - (pressure_tztop t - P_smooth_halfwidth))
             / (2.0 * P_smooth_halfwidth)) in *.
  set (g2 := (p2 - (pressure_tzbase t - P_smooth_halfwidth))
             / (2.0 * P_smooth_halfwidth)) in *.
  unfold P_smooth_halfwidth in *.
  decide_comparisons; simpl; lra.
Qed.

Lemma X14_fractions_shift_with_pressure_witness :
  nth 0 (mantle_domain_fractions 12e9 1600) 0
  <= nth 0 (mantle_domain_fractions 10e9 1600) 0
  /\ nth 2 (mantle_domain_fractions 10e9 1600) 0
     <= nth 2 (mantle_domain_fractions 12e9 1600) 0.
Proof.
  apply (X14_fractions_shift_with_pressure 10e9 12e9 1600). lra.
Defined.

(** ** More on anelastic_properties *)

(** X15: for a configuration with at least one material whose functions
    act on arrays element by element, the array call on arrays of one
    length with two or more elements returns, at every element with a
    non-zero [elastic_Vp] and a non-zero temperature for Q (the floats the
    scalar call divides by), the six values that the scalar call returns
    for the floats of that element. *)
Theorem X15_array_call_is_the_scalar_call_per_element
    (self : AttenuationModelGoes) (Vp Vs P T : list R) (frequency dT : R) :
  elementwise self -> Q_models self <> [] -> (2 <= length T)%nat ->
  length Vp = length T -> length Vs = length T -> length P = length T ->
  exists r,
    anelastic_properties_array self Vp Vs P T frequency dT = Ok r
    /\ forall k, (k < length T)%nat -> nth k Vp 0 <> 0 ->
         effective_temperature dT (nth k T 0)
           (T_solidus_function self (nth k P 0)) <> 0 ->
         anelastic_properties self (nth k Vp 0) (nth k Vs 0) (nth k P 0)
           (nth k T 0) frequency dT
         = Ok (mkAnelastic (nth k (V_P r) 0) (nth k (V_S r) 0)
                           (nth k (Q_S r) 0) (nth k (Q_K r) 0)
                           (nth k (Q_P r) (Finite 0))
                           (nth k (T_solidus r) 0)).
Proof.
  intros Hel Hmod Hlen HVp HVs HP.
  destruct (array_call_agrees_with_scalar_call self Vp Vs P T frequency dT
              Hel Hmod Hlen HVp HVs HP) as (r & E & Hk).
  exists r. split; [exact E|]. intros k Hlt Hnz _. now apply Hk.
Qed.

Lemma single_material_elementwise : elementwise single_material.
Proof.
  split; [|split]; simpl; reflexivity.
Qed.

Lemma X15_array_call_is_the_scalar_call_per_element_witness :
  exists r,
    anelastic_properties_array single_material [8000; 9000] [4500; 5000]
      [10e9; 20e9] [1500; 1900] 1 0 = Ok r
    /\ forall k, (k < 2)%nat -> nth k [8000; 9000] 0 <> 0 ->
         effective_temperature 0 (nth k [1500; 1900] 0)
           (T_solidus_function single_material (nth k [10e9; 20e9] 0)) <> 0 ->
         anelastic_properties single_material (nth k [8000; 9000] 0)
           (nth k [4500; 5000] 0) (nth k [10e9; 20e9] 0)
           (nth k [1500; 1900] 0) 1 0
         = Ok (mkAnelastic (nth k (V_P r) 0) (nth k (V_S r) 0)
                           (nth k (Q_S r) 0) (nth k (Q_K r) 0)
                           (nth k (Q_P r) (Finite 0))
                           (nth k (T_solidus r) 0)).
Proof.
  apply (X15_array_call_is_the_scalar_call_per_element single_material
           [8000; 9000] [4500; 5000] [10e9; 20e9] [1500; 1900] 1 0).
  - exact single_material_elementwise.
  - discriminate.
  - simpl. lia.
  - reflexivity.
  - reflexivity.
  - reflexivity.
Defined.

(** X16: the scalar call ends in [IndexError] when the mixing function
    returns more fractions than there are models (the temperature for Q
    being non-zero, so that no term before the missing model divides by
    zero), and in [ZeroDivisionError] when it returns none (the sum [QS]
    is then still the Python float [0.0]). *)
Theorem X16_materials_loop_errors
    (self : AttenuationModelGoes)
    (Vp Vs pressure temperature frequency dT : R) :
  let fractions := model_mixing_function self pressure temperature in
  ((length (Q_models self) < length fractions)%nat ->
   effective_temperature dT temperature (T_solidus_function self pressure)
   <> 0 ->
   anelastic_properties self Vp Vs pressure temperature frequency dT
   = Raise IndexError)
  /\ (fractions = [] ->
      anelastic_properties self Vp Vs pressure temperature frequency dT
      = Raise ZeroDivisionError).
Proof.
  intros fractions. split; [intros H _|intros H];
    unfold anelastic_properties; fold fractions.
  - rewrite Q_loop_short by (simpl; lia). reflexivity.
  - rewrite H. simpl. unfold py_div.
    destruct (Req_EM_T 0.0 0) as [_|E]; [reflexivity|]. exfalso. lra.
Qed.

Lemma X16_materials_loop_errors_witness :
  anelastic_properties no_models 8000 4500 20e9 1600 1 0 = Raise IndexError.
Proof.
  apply (X16_materials_loop_errors no_models 8000 4500 20e9 1600 1 0).
  - simpl. lia.
  - simpl. rewrite (proj2 (effective_temperature_cases 0 1600 1600)); lra.
Defined.

Lemma weighted_sum_constant (t : Q_model -> R) (k x y z : R)
    (models : list Q_model) :
  length models = 3%nat -> Forall (fun m => t m = k) models ->
  x + y + z = 1 -> weighted_sum t [x; y; z] models = k.
Proof.
  intros Hlen Hall Hs.
  destruct models as [|m1 [|m2 [|m3 [|m4 ms]]]]; try discriminate.
  apply Forall_cons_iff in Hall as [E1 Hall].
  apply Forall_cons_iff in Hall as [E2 Hall].
  apply Forall_cons_iff in Hall as [E3 _].
  simpl. rewrite E1, E2, E3.
  replace (x * k + (y * k + (z * k + 0))) with ((x + y + z) * k) by ring.
  rewrite Hs. ring.
Qed.

Lemma weighted_sum_positive (t : Q_model -> R) (x y z : R)
    (models : list Q_model) :
  length models = 3%nat -> Forall (fun m => 0 < t m) models ->
  0 <= x -> 0 <= y -> 0 <= z -> x + y + z = 1 ->
  0 < weighted_sum t [x; y; z] models.
Proof.
  intros Hlen Hall Hx Hy Hz Hs.
  destruct models as [|m1 [|m2 [|m3 [|m4 ms]]]]; try discriminate.
  apply Forall_cons_iff in Hall as [E1 Hall].
  apply Forall_cons_iff in Hall as [E2 Hall].
  apply Forall_cons_iff in Hall as [E3 _].
  simpl.
  pose proof (Rmult_le_pos _ _ Hx (Rlt_le _ _ E1)).
  pose proof (Rmult_le_pos _ _ Hy (Rlt_le _ _ E2)).
  pose proof (Rmult_le_pos _ _ Hz (Rlt_le _ _ E3)).
  destruct (Rle_lt_or_eq_dec 0 x Hx) as [Px|Zx].
  - pose proof (Rmult_lt_0_compat _ _ Px E1). lra.
  - destruct (Rle_lt_or_eq_dec 0 y Hy) as [Py|Zy].
    + pose proof (Rmult_lt_0_compat _ _ Py E2). lra.
    + assert (Pz : 0 < z) by lra.
      pose proof (Rmult_lt_0_compat _ _ Pz E3). lra.
Qed.

Lemma tan_half_pi_positive (alpha : R) :
  0 < alpha < 1 -> 0 < 2.0 * tan (PI * alpha / 2.0).
Proof.
  intros [H0 H1]. pose proof PI_RGT_0 as HPI.
  assert (0 < tan (PI * alpha / 2.0)).
  { apply tan_gt_0.
    - replace (PI * alpha / 2.0) with (PI * alpha / 2) by lra.
      apply Rdiv_lt_0_compat; [apply Rmult_lt_0_compat; assumption|lra].
    - assert (PI * alpha < PI) by nra.
      replace (PI * alpha / 2.0) with (PI * alpha / 2) by lra. lra. }
  lra.
Qed.

(** X17: for a model built, like Q4g, Q6g and Q7g, on
    [mantle_domain_fractions] and three models with a common exponent
    between 0 and 1, a common [QK] and positive [Q0], the scalar call with
    positive frequency and positive elastic velocities (and a non-zero
    temperature for Q) returns [Q_K] equal to the common [QK], a positive
    [Q_S], and velocities that attenuation only lowers:
    [V_S < elastic_Vs] and [V_P <= elastic_Vp]. *)
Theorem X17_attenuation_lowers_the_velocities
    (solidus : R -> R) (models : list Q_model) (alpha0 k : R)
    (Vp Vs pressure temperature frequency dT : R) :
  uniform_models alpha0 k models -> 0 < alpha0 < 1 ->
  0 < frequency -> 0 < Vp -> 0 < Vs ->
  effective_temperature dT temperature (solidus pressure) <> 0 ->
  exists r,
    anelastic_properties (goes_model solidus models) Vp Vs pressure
      temperature frequency dT = Ok r
    /\ Q_K r = k /\ 0 < Q_S r /\ V_S r < Vs /\ V_P r <= Vp.
Proof.
  intros [Hlen Hall] Ha Hf HVp HVs _.
  destruct (mantle_domain_fractions_sum pressure temperature)
    as (x & y & z & Efr & Hx & Hy & Hz & Hs).
  rewrite anelastic_properties_steps;
    [|simpl; rewrite Efr; discriminate
     |simpl; rewrite Efr, Hlen; simpl; lia
     |lra].
  eexists. split; [reflexivity|].
  unfold closed_form, steps. simpl. rewrite Efr.
  set (Tm := solidus pressure).
  set (Qt := effective_temperature dT temperature Tm).
  assert (EQK : weighted_sum QK [x; y; z] models = k).
  { apply weighted_sum_constant; try assumption.
    eapply Forall_impl; [|exact Hall]. simpl. tauto. }
  assert (Eal : weighted_sum a [x; y; z] models = alpha0).
  { apply weighted_sum_constant; try assumption.
    eapply Forall_impl; [|exact Hall]. simpl. tauto. }
  assert (PQS : 0 < weighted_sum
                      (fun m => Q0 m * np_power frequency (a m)
                                * exp (a m * g m * Tm / Qt))
                      [x; y; z] models).
  { apply weighted_sum_positive; try assumption; try lra.
    eapply Forall_impl; [|exact Hall]. simpl. intros m (_ & _ & HQ0).
    rewrite np_power_pos by exact Hf.
    apply Rmult_lt_0_compat; [|apply exp_pos].
    apply Rmult_lt_0_compat; [exact HQ0|apply exp_pos]. }
  rewrite EQK, Eal.
  set (QS := weighted_sum
               (fun m => Q0 m * np_power frequency (a m)
                         * exp (a m * g m * Tm / Qt))
               [x; y; z] models) in *.
  pose proof (tan_half_pi_positive alpha0 Ha) as Ht.
  set (tn := 2.0 * tan (PI * alpha0 / 2.0)) in *.
  split; [reflexivity|]. split; [exact PQS|]. split.
  - assert (0 < 1.0 / QS / tn).
    { apply Rdiv_lt_0_compat; [|exact Ht].
      apply Rdiv_lt_0_compat; [lra|exact PQS]. }
    nra.
  - set (iq := (1.0 - 4.0 / 3.0 * (Vs / Vp * (Vs / Vp))) * (1.0 / k)
               + 4.0 / 3.0 * (Vs / Vp * (Vs / Vp)) * (1.0 / QS)).
    assert (0 <= fst (clamped iq)).
    { unfold clamped. destruct (Rltb iq 0) eqn:E; simpl; [lra|].
      now apply Rltb_ge in E. }
    assert (0 <= fst (clamped iq) / tn).
    { apply Rle_mult_inv_pos; assumption. }
    nra.
Qed.

Lemma Q4g_uniform (solidus : R -> R) :
  uniform_models 0.15 1000.0 (Q_models (Q4g solidus)).
Proof.
  split; [reflexivity|]. simpl. repeat constructor; simpl; lra.
Qed.

Lemma Q6g_uniform (solidus : R -> R) :
  uniform_models 0.15 1000.0 (Q_models (Q6g solidus)).
Proof.
  split; [reflexivity|]. simpl. repeat constructor; simpl; lra.
Qed.

Lemma Q7g_uniform (solidus : R -> R) :
  uniform_models 0.15 1000.0 (Q_models (Q7g solidus)).
Proof.
  split; [reflexivity|]. simpl. repeat constructor; simpl; lra.
Qed.

Lemma X17_attenuation_lowers_the_velocities_witness :
  exists r,
    anelastic_properties (Q4g (fun _ => 1600)) 8000 4500 10e9 1500 1 0 = Ok r
    /\ Q_K r = 1000.0 /\ 0 < Q_S r /\ V_S r < 4500 /\ V_P r <= 8000.
Proof.
  apply (X17_attenuation_lowers_the_velocities (fun _ => 1600)
           (Q_models (Q4g (fun _ => 1600))) 0.15 1000.0
           8000 4500 10e9 1500 1 0).
  - apply Q4g_uniform.
  - lra.
  - lra.
  - lra.
  - lra.
  - rewrite (proj2 (effective_temperature_cases 0 1500 1600)); lra.
Defined.

Lemma mix_reciprocal (u v l : R) :
  0 < u -> 0 < v -> 0 <= l <= 1 ->
  0 < (1.0 - l) * (1.0 / v) + l * (1.0 / u)
  /\ Rmin u v <= 1 / ((1.0 - l) * (1.0 / v) + l * (1.0 / u)) <= Rmax u v.
Proof.
  intros Hu Hv [L0 L1].
  replace 1.0 with 1 by lra.
  assert (Iu : 0 < 1 / u) by (apply Rdiv_lt_0_compat; lra).
  assert (Iv : 0 < 1 / v) by (apply Rdiv_lt_0_compat; lra).
  assert (Eu : u * (1 / u) = 1) by (field; lra).
  assert (Ev : v * (1 / v) = 1) by (field; lra).
  set (iu := 1 / u) in *. set (iv := 1 / v) in *.
  set (w := (1 - l) * iv + l * iu).
  assert (Hw : 0 < w) by (unfold w; nra).
  split; [exact Hw|].
  assert (Ew : w * (1 / w) = 1) by (field; lra).
  assert (Iw : 0 < 1 / w) by (apply Rdiv_lt_0_compat; lra).
  set (q := 1 / w) in *.
  pose proof (Rmin_l u v) as M1. pose proof (Rmin_r u v) as M2.
  pose proof (Rmax_l u v) as N1. pose proof (Rmax_r u v) as N2.
  assert (Pm : 0 < Rmin u v) by (apply Rmin_glb_lt; assumption).
  set (m := Rmin u v) in *. set (M := Rmax u v) in *.
  clearbody q iu iv m M.
  assert (A1 : m * iu <= 1) by nra.
  assert (A2 : m * iv <= 1) by nra.
  assert (B1 : 1 <= M * iu) by nra.
  assert (B2 : 1 <= M * iv) by nra.
  assert (C1 : m * w <= 1).
  { unfold w.
    assert (0 <= (1 - l) * (1 - m * iv)) by (apply Rmult_le_pos; lra).
    assert (0 <= l * (1 - m * iu)) by (apply Rmult_le_pos; lra).
    nra. }
  assert (C2 : 1 <= M * w).
  { unfold w.
    assert (0 <= (1 - l) * (M * iv - 1)) by (apply Rmult_le_pos; lra).
    assert (0 <= l * (M * iu - 1)) by (apply Rmult_le_pos; lra).
    nra. }
  clearbody w. split.
  - assert (0 <= q * (1 - m * w)) by (apply Rmult_le_pos; lra). nra.
  - assert (0 <= q * (M * w - 1)) by (apply Rmult_le_pos; lra). nra.
Qed.

(** X20: for a model built on [mantle_domain_fractions] and three models
    with positive [Q0] and [QK], the scalar call with a positive frequency
    and elastic velocities with [0 < (4/3) elastic_Vs^2 <= elastic_Vp^2]
    (and a non-zero temperature for Q) returns a finite [Q_P] that lies
    between [Q_S] and [Q_K]: the clamp to infinity is not reached. *)
Theorem X20_QP_lies_between_QS_and_QK
    (solidus : R -> R) (models : list Q_model)
    (Vp Vs pressure temperature frequency dT : R) :
  positive_models models ->
  0 < frequency -> 0 < Vp -> 0 < Vs -> 4 * (Vs * Vs) <= 3 * (Vp * Vp) ->
  effective_temperature dT temperature (solidus pressure) <> 0 ->
  exists r q,
    anelastic_properties (goes_model solidus models) Vp Vs pressure
      temperature frequency dT = Ok r
    /\ Q_P r = Finite q
    /\ Rmin (Q_S r) (Q_K r) <= q <= Rmax (Q_S r) (Q_K r).
Proof.
  intros [Hlen Hall] Hf HVp HVs Hr _.
  destruct (mantle_domain_fractions_sum pressure temperature)
    as (x & y & z & Efr & Hx & Hy & Hz & Hs).
  rewrite anelastic_properties_steps;
    [|simpl; rewrite Efr; discriminate
     |simpl; rewrite Efr, Hlen; simpl; lia
     |lra].
  unfold closed_form, steps. simpl. rewrite Efr.
  set (Tm := solidus pressure).
  set (Qt := effective_temperature dT temperature Tm).
  assert (PQK : 0 < weighted_sum QK [x; y; z] models).
  { apply weighted_sum_positive; try assumption; try lra.
    eapply Forall_impl; [|exact Hall]. simpl. tauto. }
  assert (PQS : 0 < weighted_sum
                      (fun m => Q0 m * np_power frequency (a m)
                                * exp (a m * g m * Tm / Qt))
                      [x; y; z] models).
  { apply weighted_sum_positive; try assumption; try lra.
    eapply Forall_impl; [|exact Hall]. simpl. intros m (HQ0 & _).
    rewrite np_power_pos by exact Hf.
    apply Rmult_lt_0_compat; [|apply exp_pos].
    apply Rmult_lt_0_compat; [exact HQ0|apply exp_pos]. }
  set (QK_ := weighted_sum QK [x; y; z] models) in *.
  set (QS := weighted_sum
               (fun m => Q0 m * np_power frequency (a m)
                         * exp (a m * g m * Tm / Qt))
               [x; y; z] models) in *.
  set (lmda := 4.0 / 3.0 * (Vs / Vp * (Vs / Vp))).
  assert (Hl : 0 <= lmda <= 1).
  { unfold lmda. assert (Er : Vs / Vp * Vp = Vs) by (field; lra).
    assert (Pr : 0 < Vs / Vp) by (apply Rdiv_lt_0_compat; lra).
    set (rt := Vs / Vp) in *. clearbody rt.
    assert (E2 : rt * rt * (Vp * Vp) = Vs * Vs) by (rewrite <- Er; ring).
    assert (P2 : 0 < Vp * Vp) by nra.
    split; [nra|].
    assert (H4 : 4 * (rt * rt) <= 3).
    { apply Rnot_lt_le. intros C.
      assert (3 * (Vp * Vp) < 4 * (rt * rt) * (Vp * Vp))
        by (apply Rmult_lt_compat_r; assumption).
      nra. }
    lra. }
  destruct (mix_reciprocal QS QK_ lmda PQS PQK Hl) as (Hw & Hq).
  set (invQP := (1.0 - lmda) * (1.0 / QK_) + lmda * (1.0 / QS)) in *.
  eexists. exists (1 / invQP). split; [reflexivity|].
  cbn [Q_P Q_S Q_K]. split; [|exact Hq].
  unfold clamped. rewrite (proj2 (Rltb_ge invQP 0)) by lra.
  simpl. unfold np_inv.
  destruct (Req_EM_T invQP 0) as [E|_]; [lra|reflexivity].
Qed.

Lemma Q4g_positive (solidus : R -> R) :
  positive_models (Q_models (Q4g solidus)).
Proof.
  split; [reflexivity|]. simpl. repeat constructor; simpl; lra.
Qed.

Lemma X20_QP_lies_between_QS_and_QK_witness :
  exists r q,
    anelastic_properties (Q4g (fun _ => 1600)) 8000 4500 10e9 1500 1 0 = Ok r
    /\ Q_P r = Finite q
    /\ Rmin (Q_S r) (Q_K r) <= q <= Rmax (Q_S r) (Q_K r).
Proof.
  apply (X20_QP_lies_between_QS_and_QK (fun _ => 1600)
           (Q_models (Q4g (fun _ => 1600))) 8000 4500 10e9 1500 1 0).
  - apply Q4g_positive.
  - lra.
  - lra.
  - lra.
  - lra.
  - rewrite (proj2 (effective_temperature_cases 0 1500 1600)); lra.
Defined.

End AttenuationSpec.
